(** * Spectral coherency of mne-cpp: a shallow embedding of coherency.cpp

    The development follows [Coherency::calculateReal], [calculateImag],
    [calculate], [compute], [computePSDCSD], [computePSDCSDReal] and
    [computePSDCSDImag].

    Conventions of the embedding:
    - a C++ [double] is an exact real number ([R]); a
      [std::complex<double>] is a pair of reals ([Cplx.t]);
    - a C++ [int] is a [Z]; sizes of containers and loop counters that
      start at a size or at [0] are [nat];
    - an Eigen dynamic matrix is a record of its column count and its
      list of rows, so that matrices without rows keep their column count;
    - an Eigen or Qt operation whose precondition fails (index out of
      range, operands of different sizes, negative dimension) stops the
      program with an assertion: every operation that has such a
      precondition returns an [option], and [None] is that stop;
    - [QtConcurrent::map] followed by [waitForFinished] is the in-order
      sequential traversal of the container; the mutex then has no
      content and is left out. *)

From Stdlib Require Import Reals ZArith Lia Lra String.
From stdpp Require Import base option list.

(** ** Scalars *)

Module Cplx.
Local Open Scope R_scope.

Record t : Type := mk { re : R; im : R }.

Definition zero : t := mk 0 0.
Definition add (a b : t) : t := mk (re a + re b) (im a + im b).
Definition mul (a b : t) : t :=
  mk (re a * re b - im a * im b) (re a * im b + im a * re b).
Definition conj (a : t) : t := mk (re a) (- im a).
(** [std::complex<double> * double] and [std::complex<double> / double] *)
Definition scale (a : t) (x : R) : t := mk (re a * x) (im a * x).
Definition divr (a : t) (x : R) : t := mk (re a / x) (im a / x).
(** [numext::abs2] and [std::abs] *)
Definition abs2 (a : t) : R := re a * re a + im a * im a.
Definition abs (a : t) : R := sqrt (abs2 a).
End Cplx.

Abbreviation complex := Cplx.t.

(** Sums of a list, [Eigen::DenseBase::sum]. *)
Definition Rsum (l : list R) : R := foldr Rplus 0%R l.
Definition Csum (l : list complex) : complex := foldr Cplx.add Cplx.zero l.

(** [Eigen::DenseBase::mean]: the sum divided by the number of coefficients. *)
Definition mean (l : list R) : R := (Rsum l / INR (length l))%R.

(** ** Eigen matrices and row vectors *)

Record Matrix (A : Type) : Type := mkMatrix {
  m_cols : nat;
  m_coeffs : list (list A)
}.
Arguments mkMatrix {A} _ _.
Arguments m_cols {A} _.
Arguments m_coeffs {A} _.

Abbreviation MatrixXd := (Matrix R).
Abbreviation MatrixXcd := (Matrix complex).

Section Eigen.
Context {A : Type}.

Definition rows (M : Matrix A) : nat := length (m_coeffs M).
Definition cols (M : Matrix A) : nat := m_cols M.

(** Every row of a matrix has [cols] coefficients. *)
Definition mat_wf (M : Matrix A) : Prop :=
  Forall (λ r, length r = cols M) (m_coeffs M).

(** The default constructor: a matrix of size 0 x 0. *)
Definition mat_empty : Matrix A := mkMatrix 0 [].

(** [Matrix(r, c)]: storage for r x c coefficients.  C++ leaves them
    indeterminate; [fill] stands for that content. *)
Definition mat_alloc (r c : nat) (fill : A) : Matrix A :=
  mkMatrix c (replicate r (replicate c fill)).

(** The same constructor called with C++ [int]s. *)
Definition mat_alloc_int (r c : Z) (fill : A) : option (Matrix A) :=
  if ((0 <=? r) && (0 <=? c))%Z
  then Some (mat_alloc (Z.to_nat r) (Z.to_nat c) fill)
  else None.

(** [M.row(i)] read. *)
Definition row (M : Matrix A) (i : nat) : option (list A) :=
  m_coeffs M !! i.

(** [M.row(i) = r]: a row block is not resized by an assignment. *)
Definition set_row (M : Matrix A) (i : nat) (r : list A) : option (Matrix A) :=
  if (i <? rows M) && (length r =? cols M)
  then Some (mkMatrix (m_cols M) (<[i := r]> (m_coeffs M)))
  else None.

(** [M.row(i)(k) = f (M.row(i)(k))], as in [M.row(i)(k) /= 2.0]. *)
Definition update_coeff (M : Matrix A) (i k : nat) (f : A → A)
  : option (Matrix A) :=
  r ← row M i;
  x ← r !! k;
  Some (mkMatrix (m_cols M) (<[i := <[k := f x]> r]> (m_coeffs M))).

(** [M.row(i).tail(1)] is the block of the last coefficient of row i. *)
Definition update_tail1 (M : Matrix A) (i : nat) (f : A → A)
  : option (Matrix A) :=
  update_coeff M i (cols M - 1) f.

Definition mat_map {B : Type} (f : A → B) (M : Matrix A) : Matrix B :=
  mkMatrix (m_cols M) ((λ r : list A, f <$> r) <$> m_coeffs M).

(** Coefficient-wise binary operations need operands of one size. *)
Definition vec_zip {B C : Type} (f : A → B → C) (u : list A) (v : list B)
  : option (list C) :=
  if length u =? length v then Some (zip_with f u v) else None.

Definition mat_zip {B C : Type} (f : A → B → C) (M : Matrix A) (N : Matrix B)
  : option (Matrix C) :=
  if (rows M =? length (m_coeffs N)) && (cols M =? m_cols N)
  then Some (mkMatrix (m_cols M)
               (zip_with (zip_with f) (m_coeffs M) (m_coeffs N)))
  else None.

(** [M.colwise().sum()]: one sum per column; a matrix without rows gives
    a row of zeros. *)
Definition colwise_sum (zero : A) (add : A → A → A) (M : Matrix A) : list A :=
  foldr (zip_with add) (replicate (cols M) zero) (m_coeffs M).

(** [v.transpose()] of a row vector stored into a matrix: n x 1. *)
Definition transpose_row (v : list A) : Matrix A :=
  mkMatrix 1 ((λ x, [x]) <$> v).
End Eigen.

(** ** Loops *)

(** A loop whose body may stop the program: the body is run on the
    indices in order and threads the variables it assigns. *)
Fixpoint foldlM {I S : Type} (body : I → S → option S) (idx : list I) (s : S)
  : option S :=
  match idx with
  | [] => Some s
  | i :: rest => s' ← body i s; foldlM body rest s'
  end.

(** [for (i = lo; i < hi; ++i) body] *)
Definition for_range {S : Type} (lo hi : nat) (body : nat → S → option S)
  : S → option S :=
  foldlM body (seq lo (hi - lo)).

(** ** Data of the connectivity library used by coherency.cpp *)

(** [ConnectivityTrialData]: the fields of a trial that coherency.cpp
    reads and writes. *)
Record ConnectivityTrialData : Type := mkTrial {
  matData : MatrixXd;
  matPsd : MatrixXd;
  vecPairCsd : list (Z * MatrixXcd)
}.

(** [ConnectivitySettings::IntermediateSumData] *)
Record IntermediateSumData : Type := mkSums {
  matPsdSum : MatrixXd;
  vecPairCsdSum : list (Z * MatrixXcd)
}.

(** [ConnectivitySettings] *)
Record ConnectivitySettings : Type := mkSettings {
  m_dataList : list ConnectivityTrialData;
  m_iNfft : Z;
  m_sWindowType : string;
  data : IntermediateSumData
}.

(** A trial as it is handed to the library: data only, nothing stored. *)
Definition new_trial (d : MatrixXd) : ConnectivityTrialData :=
  mkTrial d mat_empty [].

(** Settings as they are handed to the library: no sums yet. *)
Definition new_settings (trials : list ConnectivityTrialData) (nfft : Z)
    (window : string) : ConnectivitySettings :=
  mkSettings trials nfft window (mkSums mat_empty []).

(** ** The network

    Modelled from the spec: the classes [Network], [NetworkNode] and
    [NetworkEdge] (network/network.h, network/networknode.h and
    network/networkedge.h) are used by coherency.cpp through
    [getNodeAt], [append] and the edge constructor only.  Following the
    specification, the network is a passive container with append-only
    construction: nodes indexed by channel, each with an adjacency list,
    and a global edge list.  An edge object is created once and shared by
    pointer; [net_store] lists the edge objects in the order of their
    creation and a pointer is a position in that list. *)

Record NetworkEdge : Type := mkEdge {
  iStartNode : Z;
  iEndNode : Z;
  matWeight : MatrixXd
}.

Record Network : Type := mkNetwork {
  net_store : list NetworkEdge;
  net_nodes : list (list nat);
  net_edges : list nat
}.

(** Modelled from the spec: [new NetworkEdge(i, j, w)] held by a
    [QSharedPointer]; the result is the network with the new object and
    the pointer to it. *)
Definition new_NetworkEdge (net : Network) (i j : Z) (w : MatrixXd)
  : Network * nat :=
  (mkNetwork (net_store net ++ [mkEdge i j w]) (net_nodes net) (net_edges net),
   length (net_store net)).

(** Modelled from the spec: [net.getNodeAt(i)->append(pEdge)] appends the
    pointer to the adjacency list of node i; the node has to exist. *)
Definition node_append (net : Network) (i : Z) (pEdge : nat) : option Network :=
  if (i <? 0)%Z then None else
  adj ← net_nodes net !! Z.to_nat i;
  Some (mkNetwork (net_store net)
          (<[Z.to_nat i := adj ++ [pEdge]]> (net_nodes net))
          (net_edges net)).

(** Modelled from the spec: [net.append(pEdge)] appends the pointer to the
    global edge list. *)
Definition network_append (net : Network) (pEdge : nat) : Network :=
  mkNetwork (net_store net) (net_nodes net) (net_edges net ++ [pEdge]).

(** A network of [n] nodes without edges, as the callers prepare it. *)
Definition new_network (n : nat) : Network :=
  mkNetwork [] (replicate n []) [].

(** The edge objects of the global edge list, in order. *)
Definition network_edges (net : Network) : list NetworkEdge :=
  omap (λ p, net_store net !! p) (net_edges net).

(** ** coherency.cpp *)

Section Coherency.

(** The two numeric routines that coherency.cpp calls and does not
    define.  [fft_kernel x k] is coefficient [k] of the forward transform
    of the real signal [x]; [generateTapers] is [Spectral::generateTapers],
    which returns the taper matrix (one taper per row) and the taper
    weights. *)
Context (fft_kernel : list R → nat → complex).
Context (generateTapers : Z → string → MatrixXd * list R).

(** [Eigen::FFT<double>::fwd(dst, src, nfft)] with the flag
    [HalfSpectrum]: a length below 1 means the length of the source; the
    source is padded with zeros or cut to [nfft] samples and [dst] is
    resized to [(nfft >> 1) + 1] coefficients. *)
Definition fft_fwd (src : list R) (nfft : Z) : list complex :=
  let n := if (nfft <? 1)%Z then length src else Z.to_nat nfft in
  let input := take n (src ++ replicate (n - length src) 0%R) in
  fft_kernel input <$> seq 0 (n / 2 + 1).

(** The test that opens [compute]. *)
Definition already_computed (inputData : ConnectivityTrialData)
    (iNRows iNFreqs : Z) : bool :=
  (Z.of_nat (length (vecPairCsd inputData)) =? iNRows)%Z
  && (Z.of_nat (rows (matPsd inputData)) =? iNRows)%Z
  && (Z.of_nat (cols (matPsd inputData)) =? iNFreqs)%Z.

(** [tapers.second.cwiseAbs2().sum()] *)
Definition weight_norm2 (weights : list R) : R :=
  Rsum ((λ w, w * w)%R <$> weights).

Definition halve (x : R) : R := (x / 2)%R.
Definition chalve (z : complex) : complex := Cplx.divr z 2.

(** Body of the loop over the tapers (lines 395 to 399). *)
Definition taper_step (rowData : list R) (tapers : MatrixXd * list R)
    (iNfft : Z) (j : nat) (matTapSpectrum : MatrixXcd) : option MatrixXcd :=
  taper ← row tapers.1 j;
  vecInputFFT ← vec_zip Rmult rowData taper;
  let vecTmpFreq := fft_fwd vecInputFFT iNfft in
  w ← tapers.2 !! j;
  set_row matTapSpectrum j ((λ z, Cplx.scale z w) <$> vecTmpFreq).

(** Body of the first loop over the channels (lines 390 to 411).  The
    loop assigns [vecTapSpectra], [matTapSpectrum] and [inputData.matPsd]. *)
Definition psd_step (data : MatrixXd) (tapers : MatrixXd * list R)
    (iNfft : Z) (bNfftEven : bool) (denomPSD : R) (i : nat)
    (st : list MatrixXcd * MatrixXcd * MatrixXd)
  : option (list MatrixXcd * MatrixXcd * MatrixXd) :=
  let '(vecTapSpectra, matTapSpectrum, psd) := st in
  dataRow ← row data i;
  let rowData := (λ x, x - mean dataRow)%R <$> dataRow in
  matTapSpectrum ←
    for_range 0 (rows tapers.1) (taper_step rowData tapers iNfft) matTapSpectrum;
  let vecTapSpectra := vecTapSpectra ++ [matTapSpectrum] in
  psd ← set_row psd i
          ((λ x, x / denomPSD)%R
             <$> colwise_sum 0%R Rplus (mat_map Cplx.abs2 matTapSpectrum));
  psd ← update_coeff psd i 0 halve;
  psd ← (if bNfftEven then update_tail1 psd i halve else Some psd);
  Some (vecTapSpectra, matTapSpectrum, psd).

(** Body of the loop over the second channel of a pair (lines 424 to 433). *)
Definition csd_inner_step (vecTapSpectra : list MatrixXcd) (bNfftEven : bool)
    (denomCSD : R) (i j : nat) (matCsd : MatrixXcd) : option MatrixXcd :=
  Si ← vecTapSpectra !! i;
  Sj ← vecTapSpectra !! j;
  prod ← mat_zip Cplx.mul Si (mat_map Cplx.conj Sj);
  matCsd ← set_row matCsd j
             ((λ z, Cplx.divr z denomCSD)
                <$> colwise_sum Cplx.zero Cplx.add prod);
  matCsd ← update_coeff matCsd j 0 chalve;
  if bNfftEven then update_tail1 matCsd j chalve else Some matCsd.

(** Body of the loop over the first channel of a pair (lines 423 to 436). *)
Definition csd_step (vecTapSpectra : list MatrixXcd) (bNfftEven : bool)
    (denomCSD : R) (iNRows : Z) (i : nat)
    (st : MatrixXcd * list (Z * MatrixXcd))
  : option (MatrixXcd * list (Z * MatrixXcd)) :=
  let '(matCsd, pairs) := st in
  matCsd ← for_range i (Z.to_nat iNRows)
             (csd_inner_step vecTapSpectra bNfftEven denomCSD i) matCsd;
  Some (matCsd, pairs ++ [(Z.of_nat i, matCsd)]).

(** [vecPairCsdAvg[j].second += inputData.vecPairCsd.at(j).second] *)
Definition csd_sum_step (pairs : list (Z * MatrixXcd)) (j : nat)
    (vecPairCsdAvg : list (Z * MatrixXcd)) : option (list (Z * MatrixXcd)) :=
  acc ← vecPairCsdAvg !! j;
  p ← pairs !! j;
  s ← mat_zip Cplx.add acc.2 p.2;
  Some (<[j := (acc.1, s)]> vecPairCsdAvg).

(** The critical section of [compute] (lines 442 to 458). *)
Definition merge (inputData : ConnectivityTrialData) (matPsdSum : MatrixXd)
    (vecPairCsdAvg : list (Z * MatrixXcd))
  : option (MatrixXd * list (Z * MatrixXcd)) :=
  matPsdSum ←
    (if (rows matPsdSum =? 0) || (cols matPsdSum =? 0)
     then Some (matPsd inputData)
     else mat_zip Rplus matPsdSum (matPsd inputData));
  vecPairCsdAvg ←
    (if bool_decide (vecPairCsdAvg = [])
     then Some (vecPairCsd inputData)
     else for_range 0 (length vecPairCsdAvg)
            (csd_sum_step (vecPairCsd inputData)) vecPairCsdAvg);
  Some (matPsdSum, vecPairCsdAvg).

(** Lines 369 to 436 of [compute]: the spectra, the PSD and the CSDs of
    one trial, stored in the trial.  The content given to the three
    matrices at their allocation stands for the indeterminate content of
    the C++ ones; every coefficient that is read has been assigned
    before. *)
Definition compute_trial (inputData : ConnectivityTrialData)
    (iNRows iNFreqs iNfft : Z) (tapers : MatrixXd * list R)
  : option ConnectivityTrialData :=
  let bNfftEven := (Z.rem iNfft 2 =? 0)%Z in
  let denomPSD := (weight_norm2 tapers.2 / 2)%R in
  matTapSpectrum ←
    mat_alloc_int (Z.of_nat (rows tapers.1)) iNFreqs Cplx.zero;
  psd ← mat_alloc_int iNRows iNFreqs 0%R;
  '(vecTapSpectra, _, psd) ←
    for_range 0 (Z.to_nat iNRows)
      (psd_step (matData inputData) tapers iNfft bNfftEven denomPSD)
      ([], matTapSpectrum, psd);
  let denomCSD :=
    (sqrt (weight_norm2 tapers.2) * sqrt (weight_norm2 tapers.2) / 2)%R in
  matCsd ← mat_alloc_int iNRows iNFreqs Cplx.zero;
  '(_, pairs) ←
    for_range 0 (Z.to_nat iNRows)
      (csd_step vecTapSpectra bNfftEven denomCSD iNRows)
      (matCsd, vecPairCsd inputData);
  Some (mkTrial (matData inputData) psd pairs).

(** [Coherency::compute].  The result is the trial, the sum of the PSDs
    and the sums of the CSDs after the call. *)
Definition compute (inputData : ConnectivityTrialData) (matPsdSum : MatrixXd)
    (vecPairCsdAvg : list (Z * MatrixXcd)) (iNRows iNFreqs iNfft : Z)
    (tapers : MatrixXd * list R)
  : option (ConnectivityTrialData * MatrixXd * list (Z * MatrixXcd)) :=
  if already_computed inputData iNRows iNFreqs
  then Some (inputData, matPsdSum, vecPairCsdAvg)
  else
    inputData ← compute_trial inputData iNRows iNFreqs iNfft tapers;
    '(matPsdSum, vecPairCsdAvg) ← merge inputData matPsdSum vecPairCsdAvg;
    Some (inputData, matPsdSum, vecPairCsdAvg).

(** The product of row [i] of the PSD sum with each of its rows: the
    matrix [matPSDtmp] that [computePSDCSD] (lines 471 to 476),
    [computePSDCSDReal] (489 to 494) and [computePSDCSDImag] (524 to 529)
    build with the same statements. *)
Definition psd_product (i : Z) (matPsdSum : MatrixXd) : option MatrixXd :=
  let matPSDtmp := mat_alloc (rows matPsdSum) (cols matPsdSum) 0%R in
  if (i <? 0)%Z then None else
  vecPsdSum ← row matPsdSum (Z.to_nat i);
  for_range 0 (rows matPSDtmp)
    (λ j tmp, r ← row matPsdSum j;
              p ← vec_zip Rmult vecPsdSum r;
              set_row tmp j p)
    matPSDtmp.

(** [Coherency::computePSDCSD]: the pair is changed in place. *)
Definition computePSDCSD (pairInput : Z * MatrixXcd) (matPsdSum : MatrixXd)
  : option (Z * MatrixXcd) :=
  matPSDtmp ← psd_product pairInput.1 matPsdSum;
  q ← mat_zip Cplx.divr pairInput.2 matPSDtmp;
  Some (pairInput.1, q).

(** Body of the loop that creates the edges (lines 504 to 513 and 538 to
    547); [weight] is [std::abs] in [computePSDCSDReal] and the imaginary
    part in [computePSDCSDImag]. *)
Definition edge_step (weight : complex → R) (i : Z) (matCohy : MatrixXcd)
    (j : nat) (finalNetwork : Network) : option Network :=
  r ← row matCohy j;
  let matWeight := transpose_row (weight <$> r) in
  let '(net, pEdge) := new_NetworkEdge finalNetwork i (Z.of_nat j) matWeight in
  net ← node_append net i pEdge;
  net ← node_append net (Z.of_nat j) pEdge;
  Some (network_append net pEdge).

(** Lines 489 to 513 of [computePSDCSDReal] and 524 to 547 of
    [computePSDCSDImag], which differ in [weight] only: the quotient of the
    CSD matrix by [matPSDtmp], then one edge for every row [j] from [i]
    on. *)
Definition build_edges (weight : complex → R) (finalNetwork : Network)
    (pairInput : Z * MatrixXcd) (matPsdSum : MatrixXd) : option Network :=
  matPSDtmp ← psd_product pairInput.1 matPsdSum;
  matCohy ← mat_zip Cplx.divr pairInput.2 matPSDtmp;
  let i := pairInput.1 in
  for_range (Z.to_nat i) (rows matCohy) (edge_step weight i matCohy)
    finalNetwork.

(** [Coherency::computePSDCSDReal] *)
Definition computePSDCSDReal (finalNetwork : Network)
    (pairInput : Z * MatrixXcd) (matPsdSum : MatrixXd) : option Network :=
  build_edges Cplx.abs finalNetwork pairInput matPsdSum.

(** [Coherency::computePSDCSDImag] *)
Definition computePSDCSDImag (finalNetwork : Network)
    (pairInput : Z * MatrixXcd) (matPsdSum : MatrixXd) : option Network :=
  build_edges Cplx.im finalNetwork pairInput matPsdSum.

(** The FFT length used by a run (lines 116 to 120). *)
Definition effective_nfft (configured : Z) (first : ConnectivityTrialData) : Z :=
  let iSignalLength := Z.of_nat (cols (matData first)) in
  if (configured <? iSignalLength)%Z then iSignalLength else configured.

(** [QtConcurrent::map(m_dataList, computeLambda)]: [compute] on every
    trial in turn, all of them sharing the two sums. *)
Fixpoint compute_all (trials : list ConnectivityTrialData)
    (matPsdSum : MatrixXd) (vecPairCsdSum : list (Z * MatrixXcd))
    (iNRows iNFreqs iNfft : Z) (tapers : MatrixXd * list R)
  : option (list ConnectivityTrialData * MatrixXd * list (Z * MatrixXcd)) :=
  match trials with
  | [] => Some ([], matPsdSum, vecPairCsdSum)
  | inputData :: rest =>
      '(inputData, matPsdSum, vecPairCsdSum) ←
        compute inputData matPsdSum vecPairCsdSum iNRows iNFreqs iNfft tapers;
      '(rest, matPsdSum, vecPairCsdSum) ←
        compute_all rest matPsdSum vecPairCsdSum iNRows iNFreqs iNfft tapers;
      Some (inputData :: rest, matPsdSum, vecPairCsdSum)
  end.

(** The statements that [calculateReal] (lines 115 to 155),
    [calculateImag] (197 to 237) and [calculate] (279 to 319) share: FFT
    length, tapers, sizes, the run of [compute] over the trials and the
    square root of the PSD sum.  [first] is [m_dataList.first()]. *)
Definition spectra (s : ConnectivitySettings) (first : ConnectivityTrialData)
  : option ConnectivitySettings :=
  let iSignalLength := Z.of_nat (cols (matData first)) in
  let iNfft := effective_nfft (m_iNfft s) first in
  let tapers := generateTapers iSignalLength (m_sWindowType s) in
  let iNRows := Z.of_nat (rows (matData first)) in
  let iNFreqs := (iNfft / 2 + 1)%Z in
  '(trials, psd, csd) ←
    compute_all (m_dataList s) (matPsdSum (data s)) (vecPairCsdSum (data s))
      iNRows iNFreqs iNfft tapers;
  Some (mkSettings trials (m_iNfft s) (m_sWindowType s)
          (mkSums (mat_map sqrt psd) csd)).

(** [Coherency::calculateReal] *)
Definition calculateReal (finalNetwork : Network) (s : ConnectivitySettings)
  : option (Network * ConnectivitySettings) :=
  match m_dataList s with
  | [] => Some (finalNetwork, s)
  | first :: _ =>
      s ← spectra s first;
      net ← foldlM (λ pairInput net,
                      computePSDCSDReal net pairInput (matPsdSum (data s)))
                   (vecPairCsdSum (data s)) finalNetwork;
      Some (net, s)
  end.

(** [Coherency::calculateImag] *)
Definition calculateImag (finalNetwork : Network) (s : ConnectivitySettings)
  : option (Network * ConnectivitySettings) :=
  match m_dataList s with
  | [] => Some (finalNetwork, s)
  | first :: _ =>
      s ← spectra s first;
      net ← foldlM (λ pairInput net,
                      computePSDCSDImag net pairInput (matPsdSum (data s)))
                   (vecPairCsdSum (data s)) finalNetwork;
      Some (net, s)
  end.

(** [Coherency::calculate]: [computePSDCSD] rewrites every entry of
    [vecPairCsdSum], which is then copied to [vecCoherency]. *)
Definition calculate (vecCoherency : list (Z * MatrixXcd))
    (s : ConnectivitySettings)
  : option (list (Z * MatrixXcd) * ConnectivitySettings) :=
  match m_dataList s with
  | [] => Some (vecCoherency, s)
  | first :: _ =>
      s ← spectra s first;
      csd ← mapM (λ pairInput, computePSDCSD pairInput (matPsdSum (data s)))
                 (vecPairCsdSum (data s));
      Some (csd, mkSettings (m_dataList s) (m_iNfft s) (m_sWindowType s)
                   (mkSums (matPsdSum (data s)) csd))
  end.

End Coherency.

(** ** A concrete pair of numeric routines

    The discrete Fourier transform and a one-taper rectangular window,
    used where a statement is evaluated on concrete data. *)

(** Coefficient [k] of the DFT of [x]:
    the sum over n of x_n (cos (2 pi k n / N) - i sin (2 pi k n / N)). *)
Definition dft_kernel (x : list R) (k : nat) : complex :=
  let N := INR (length x) in
  let angle (n : nat) : R := (2 * PI * INR k * INR n / N)%R in
  Csum (imap (λ n xn, Cplx.mk (xn * cos (angle n)) (- (xn * sin (angle n)))) x).

(** One taper with the constant value 1 / L and the weight 1. *)
Definition ones_tapers (iSignalLength : Z) (sWindowType : string)
  : MatrixXd * list R :=
  (mkMatrix (Z.to_nat iSignalLength)
     [replicate (Z.to_nat iSignalLength) (1 / IZR iSignalLength)%R],
   [1%R]).


(** ** The estimator in the words of its description

    The quantities that the description of the trial processor names,
    written as formulas over the data of the trial, the tapers and the
    FFT length.  They are compared with the result of [compute] below. *)

Section Described.

Context (fft_kernel : list R → nat → complex).

(** Coefficient (i, k) of a matrix, if the matrix has one. *)
Definition coeff {A : Type} (M : Matrix A) (i k : nat) : option A :=
  row M i ≫= (.!! k).

(** The row of a channel with its mean removed. *)
Definition demeaned (dataRow : list R) : list R :=
  (λ x, x - mean dataRow)%R <$> dataRow.

(** Bin [k] of the spectrum of channel [i] under taper [t]: the demeaned
    row times the taper, transformed by the half-spectrum FFT of length
    [nfft] and scaled by the weight of the taper. *)
Definition spec_spectrum (d : MatrixXd) (tapers : MatrixXd * list R)
    (nfft : Z) (i t k : nat) : complex :=
  default Cplx.zero
    (dataRow ← row d i;
     taper ← row tapers.1 t;
     w ← tapers.2 !! t;
     z ← fft_fwd fft_kernel (zip_with Rmult (demeaned dataRow) taper) nfft !! k;
     Some (Cplx.scale z w)).

(** The sum of squared taper weights divided by 2. *)
Definition spec_denominator (tapers : MatrixXd * list R) : R :=
  (Rsum ((λ w, w * w)%R <$> tapers.2) / 2)%R.

(** The number of frequency bins of the half spectrum. *)
Definition spec_bins (nfft : Z) : nat := Z.to_nat (nfft / 2) + 1.

(** Bin 0 is divided by 2; the last bin is divided by 2 when [nfft] is
    even; the other bins are left as they are. *)
Definition spec_halving {A : Type} (half : A → A) (nfft : Z) (k : nat) (x : A)
  : A :=
  let x := if k =? 0 then half x else x in
  if Z.even nfft && (k =? spec_bins nfft - 1) then half x else x.

Definition spec_psd (d : MatrixXd) (tapers : MatrixXd * list R) (nfft : Z)
    (i k : nat) : R :=
  spec_halving (λ x, x / 2)%R nfft k
    (Rsum ((λ t, Cplx.abs2 (spec_spectrum d tapers nfft i t k))
             <$> seq 0 (rows tapers.1))
     / spec_denominator tapers)%R.

Definition spec_csd (d : MatrixXd) (tapers : MatrixXd * list R) (nfft : Z)
    (i j k : nat) : complex :=
  spec_halving (λ z, Cplx.divr z 2) nfft k
    (Cplx.divr
       (Csum ((λ t, Cplx.mul (spec_spectrum d tapers nfft i t k)
                        (Cplx.conj (spec_spectrum d tapers nfft j t k)))
                <$> seq 0 (rows tapers.1)))
       (spec_denominator tapers)).

End Described.

(** ** Closed forms of the loops of [compute]

    What the loops of [compute] leave in the variables they assign, as
    functions of the data; the facts below show that the loops compute
    them. *)

(** The rows of [matTapSpectrum] after the loop over the tapers. *)
Definition tap_rows (fft_kernel : list R → nat → complex) (rowData : list R)
    (tapers : MatrixXd * list R) (nfft : Z)
  : list (list complex) :=
  zip_with (λ taper w,
              (λ z, Cplx.scale z w)
                <$> fft_fwd fft_kernel (zip_with Rmult rowData taper) nfft)
    (m_coeffs tapers.1) tapers.2.


(** The three statements that end the computation of a PSD or CSD row:
    bin 0 is halved, then the last bin when the FFT length is even. *)
Definition halve_bins {A : Type} (half : A → A) (bNfftEven : bool) (r : list A)
  : list A :=
  let r := alter half 0 r in
  if bNfftEven then alter half (length r - 1) r else r.

(** Row [i] of [inputData.matPsd], from the tapered spectra of channel i. *)
Definition psd_row (denomPSD : R) (bNfftEven : bool) (S : MatrixXcd) : list R :=
  halve_bins halve bNfftEven
    ((λ x, x / denomPSD)%R <$> colwise_sum 0%R Rplus (mat_map Cplx.abs2 S)).

(** Row [j] of [matCsd] in the turn of channel i. *)
Definition csd_row (denomCSD : R) (bNfftEven : bool) (Si Sj : MatrixXcd)
  : list complex :=
  halve_bins chalve bNfftEven
    ((λ z, Cplx.divr z denomCSD)
       <$> colwise_sum Cplx.zero Cplx.add
             (mkMatrix (m_cols Si)
                (zip_with (zip_with Cplx.mul) (m_coeffs Si)
                   (m_coeffs (mat_map Cplx.conj Sj))))).

(** [vecTapSpectra] after the first loop over the channels. *)
Definition trial_spectra (fft_kernel : list R → nat → complex) (d : MatrixXd)
    (tapers : MatrixXd * list R) (nfft : Z) : list MatrixXcd :=
  (λ dataRow, mkMatrix (spec_bins nfft)
                (tap_rows fft_kernel (demeaned dataRow) tapers nfft))
    <$> m_coeffs d.


(** Tapers for signals of [L] samples: one row of [L] samples and one
    weight per taper. *)
Definition tapers_wf (tapers : MatrixXd * list R) (L : nat) : Prop :=
  mat_wf tapers.1 ∧ cols tapers.1 = L ∧ length tapers.2 = rows tapers.1.


(** What [compute] appends to [inputData.vecPairCsd] for channel [i]:
    the channel index and a matrix whose rows [j] from [i] on are the
    CSDs of the pairs (i, j). *)
Definition csd_entry_ok (vts : list MatrixXcd) (denomCSD : R) (bNfftEven : bool)
    (F i : nat) (e : Z * MatrixXcd) : Prop :=
  e.1 = Z.of_nat i ∧ cols e.2 = F ∧ rows e.2 = length vts ∧ mat_wf e.2 ∧
  ∀ j Sa Sb, i ≤ j → vts !! i = Some Sa → vts !! j = Some Sb →
    row e.2 j = Some (csd_row denomCSD bNfftEven Sa Sb).


(** Spectra of one size: K taper rows of F bins each. *)
Definition spectra_wf (vts : list MatrixXcd) (K F : nat) : Prop :=
  Forall (λ S : MatrixXcd, mat_wf S ∧ cols S = F ∧ rows S = K) vts.


(** Coefficient-wise sums, as [+=] computes them on operands of one size. *)
Definition mat_plus (M N : MatrixXd) : MatrixXd :=
  mkMatrix (m_cols M) (zip_with (zip_with Rplus) (m_coeffs M) (m_coeffs N)).

Definition cmat_plus (M N : MatrixXcd) : MatrixXcd :=
  mkMatrix (m_cols M) (zip_with (zip_with Cplx.add) (m_coeffs M) (m_coeffs N)).

(** The loop of lines 453 to 455 on lists of one length. *)
Definition pairs_plus (acc pairs : list (Z * MatrixXcd)) : list (Z * MatrixXcd) :=
  zip_with (λ a p, (a.1, cmat_plus a.2 p.2)) acc pairs.

(** A PSD matrix and a list of CSD matrices for C channels and F bins. *)
Definition psd_shape (C F : nat) (M : MatrixXd) : Prop :=
  rows M = C ∧ cols M = F ∧ mat_wf M.

Definition pairs_shape (C F : nat) (pairs : list (Z * MatrixXcd)) : Prop :=
  length pairs = C
  ∧ Forall (λ e, rows e.2 = C ∧ cols e.2 = F ∧ mat_wf e.2) pairs.


(** Data of a trial with C channels and L samples. *)
Definition data_shape (C L : nat) (d : MatrixXd) : Prop :=
  mat_wf d ∧ rows d = C ∧ cols d = L.


(** The matrix [matCohy] of [computePSDCSDReal] and [computePSDCSDImag],
    and the new [pairInput.second] of [computePSDCSD]: the CSD sums
    divided by the products of row [pairInput.first] of the PSD matrix
    with each of its rows. *)
Definition coherency_matrix (pairInput : Z * MatrixXcd) (matPsdSum : MatrixXd)
  : MatrixXcd :=
  let vecPsdSum := default [] (row matPsdSum (Z.to_nat pairInput.1)) in
  mkMatrix (m_cols pairInput.2)
    (zip_with (zip_with Cplx.divr) (m_coeffs pairInput.2)
       (zip_with Rmult vecPsdSum <$> m_coeffs matPsdSum)).

(** One turn of the edge loop: the edge object is created, the pointer to
    it is appended to both end nodes and to the edge list. *)
Definition attach (net : Network) (e : NetworkEdge) : Network :=
  let p := length (net_store net) in
  mkNetwork (net_store net ++ [e])
    (alter (λ adj, adj ++ [p]) (Z.to_nat (iEndNode e))
       (alter (λ adj, adj ++ [p]) (Z.to_nat (iStartNode e)) (net_nodes net)))
    (net_edges net ++ [p]).

(** The edges created for one entry of the CSD sums, in order. *)
Definition pair_edges (weight : complex → R) (i : Z) (matCohy : MatrixXcd)
  : list NetworkEdge :=
  zip_with (λ j r, mkEdge i (Z.of_nat j) (transpose_row (weight <$> r)))
    (seq (Z.to_nat i) (rows matCohy - Z.to_nat i))
    (drop (Z.to_nat i) (m_coeffs matCohy)).

(** The edges created by a run, in order. *)
Definition run_edges (weight : complex → R) (pairs : list (Z * MatrixXcd))
    (matPsdSum : MatrixXd) : list NetworkEdge :=
  pair ← pairs; pair_edges weight pair.1 (coherency_matrix pair matPsdSum).


(** The CSD sums of a run: entry [i] is for channel [i]. *)
Definition pairs_indexed (pairs : list (Z * MatrixXcd)) : Prop :=
  ∀ i e, pairs !! i = Some e → e.1 = Z.of_nat i.


(** The result stored in a trial that held data only. *)
Definition result_of (fft_kernel : list R → nat → complex) (C : nat) (nfft : Z) (tapers : MatrixXd * list R)
    (d : MatrixXd) (r : ConnectivityTrialData) : Prop :=
  compute_trial fft_kernel (new_trial d) (Z.of_nat C) (nfft / 2 + 1) nfft tapers
  = Some r.


(** The end nodes of an edge. *)
Definition endpoints (e : NetworkEdge) : Z * Z := (iStartNode e, iEndNode e).

(** The pairs (i, j) of channels with i <= j < C, in the order of the run. *)
Definition upper_pairs (C : nat) : list (Z * Z) :=
  i ← seq 0 C; (λ j, (Z.of_nat i, Z.of_nat j)) <$> seq i (C - i).

(** The pointers appended to the adjacency list of node [v] when the edges
    [es] are attached in order, the first of them at position [base] of the
    store. *)
Fixpoint adj_of (v base : nat) (es : list NetworkEdge) : list nat :=
  match es with
  | [] => []
  | e :: rest =>
      (if decide (Z.to_nat (iStartNode e) = v) then [base] else [])
      ++ (if decide (Z.to_nat (iEndNode e) = v) then [base] else [])
      ++ adj_of v (S base) rest
  end.

(** Number of occurrences of a pointer in a list of pointers. *)
Definition occurrences (p : nat) (l : list nat) : nat :=
  length (filter (λ q, q = p) l).


(** The sums of a run over new trials: the result of the first trial,
    to which the results of the other trials are added in turn. *)
Definition psd_total (r : ConnectivityTrialData) (rs : list ConnectivityTrialData)
  : MatrixXd :=
  foldl mat_plus (matPsd r) (matPsd <$> rs).

Definition csd_total (r : ConnectivityTrialData) (rs : list ConnectivityTrialData)
  : list (Z * MatrixXcd) :=
  foldl pairs_plus (vecPairCsd r) (vecPairCsd <$> rs).

(** The settings after a run over new trials. *)
Definition settings_after (r : ConnectivityTrialData)
    (rs : list ConnectivityTrialData) (nfft0 : Z) (win : string)
  : ConnectivitySettings :=
  mkSettings (r :: rs) nfft0 win
    (mkSums (mat_map sqrt (psd_total r rs)) (csd_total r rs)).

(** The entries of the CSD sums after [computePSDCSD]. *)
Definition normalised (pairs : list (Z * MatrixXcd)) (matPsdSum : MatrixXd)
  : list (Z * MatrixXcd) :=
  (λ pair, (pair.1, coherency_matrix pair matPsdSum)) <$> pairs.

(** Input of a run: at least one trial, all trials of C channels and L
    samples, and tapers of L samples. *)
Definition valid_run (generateTapers : Z → string → MatrixXd * list R)
    (datas : list MatrixXd) (win : string) (C L : nat) : Prop :=
  datas ≠ [] ∧ Forall (data_shape C L) datas
  ∧ tapers_wf (generateTapers (Z.of_nat L) win) L.

(** The FFT length of a run over trials of L samples. *)
Definition run_nfft (nfft0 : Z) (L : nat) : Z :=
  if (nfft0 <? Z.of_nat L)%Z then Z.of_nat L else nfft0.


(** A network whose edge list holds exactly one edge per pair (i, j) of
    channels with i <= j < C, each with a weight vector of F entries. *)
Definition one_edge_per_pair (C F : nat) (net : Network) : Prop :=
  length (network_edges net) = length (net_edges net)
  ∧ (∀ x y, (x, y) ∈ endpoints <$> network_edges net
            ↔ (0 ≤ x ≤ y)%Z ∧ (y < Z.of_nat C)%Z)
  ∧ NoDup (endpoints <$> network_edges net)
  ∧ 2 * length (network_edges net) = C * (C + 1)
  ∧ Forall (λ e, rows (matWeight e) = F ∧ cols (matWeight e) = 1)
      (network_edges net).

(** All pointers of a network point into its store. *)
Definition net_closed (net : Network) : Prop :=
  Forall (λ q, q < length (net_store net)) (net_edges net)
  ∧ Forall (Forall (λ q, q < length (net_store net))) (net_nodes net).


(** A matrix and a list of CSD entries with every coefficient multiplied
    by a real number. *)
Definition mat_scale (k : R) (P : MatrixXd) : MatrixXd :=
  mat_map (λ x, k * x)%R P.

Definition pairs_scale (k : R) (pairs : list (Z * MatrixXcd))
  : list (Z * MatrixXcd) :=
  (λ e, (e.1, mat_map (λ z, Cplx.scale z k) e.2)) <$> pairs.


(** Every stored PSD and CSD matrix of the settings has F columns. *)
Definition bins_everywhere (F : nat) (s : ConnectivitySettings) : Prop :=
  Forall (λ t, cols (matPsd t) = F ∧ mat_wf (matPsd t)
               ∧ Forall (λ e, cols e.2 = F ∧ mat_wf e.2) (vecPairCsd t))
    (m_dataList s)
  ∧ cols (matPsdSum (data s)) = F ∧ mat_wf (matPsdSum (data s))
  ∧ Forall (λ e, cols e.2 = F ∧ mat_wf e.2) (vecPairCsdSum (data s)).


(** The channel count and the bin count that a run passes to [compute]
    (lines 126 and 127). *)
Definition run_rows (first : ConnectivityTrialData) : Z :=
  Z.of_nat (rows (matData first)).

Definition run_freqs (s : ConnectivitySettings) (first : ConnectivityTrialData)
  : Z :=
  (effective_nfft (m_iNfft s) first / 2 + 1)%Z.

(** Settings all of whose trials pass the test that opens [compute];
    [first] is the first trial. *)
Definition all_computed (s : ConnectivitySettings)
    (first : ConnectivityTrialData) : Prop :=
  head (m_dataList s) = Some first
  ∧ Forall (λ t, already_computed t (run_rows first) (run_freqs s first) = true)
      (m_dataList s).

(** The settings with the PSD sum replaced by its square root. *)
Definition with_sqrt_psd (s : ConnectivitySettings) : ConnectivitySettings :=
  mkSettings (m_dataList s) (m_iNfft s) (m_sWindowType s)
    (mkSums (mat_map sqrt (matPsdSum (data s))) (vecPairCsdSum (data s))).

(** The settings with the CSD sums replaced. *)
Definition with_csd (csd : list (Z * MatrixXcd)) (s : ConnectivitySettings)
  : ConnectivitySettings :=
  mkSettings (m_dataList s) (m_iNfft s) (m_sWindowType s)
    (mkSums (matPsdSum (data s)) csd).

(** ** Further closed forms, variations of the input, and relations
       between the coefficients *)

(** The matrix [matCsd] at the end of the turn of channel [i] in the loop
    of lines 423 to 436: the rows from [i] on are assigned in this turn,
    the rows before [i] are left from the turns of their own channels. *)
Definition csd_matrix (den : R) (even : bool) (F : nat) (vts : list MatrixXcd)
    (i : nat) : MatrixXcd :=
  mkMatrix F
    (imap (λ j Sj, csd_row den even
                     (if j <? i then Sj else default Sj (vts !! i)) Sj) vts).

(** What the loop of lines 423 to 436 appends to [vecPairCsd]. *)
Definition csd_entries (den : R) (even : bool) (F : nat) (vts : list MatrixXcd)
  : list (Z * MatrixXcd) :=
  (λ i, (Z.of_nat i, csd_matrix den even F vts i)) <$> seq 0 (length vts).

(** A trial with other data and the same stored result. *)
Definition with_data (d : MatrixXd) (t : ConnectivityTrialData)
  : ConnectivityTrialData :=
  mkTrial d (matPsd t) (vecPairCsd t).

(** The data with the constant [offs !! i] added to every sample of
    channel [i]. *)
Definition shift_channels (offs : list R) (d : MatrixXd) : MatrixXd :=
  mkMatrix (m_cols d)
    (zip_with (λ c r, (λ x, x + c)%R <$> r) offs (m_coeffs d)).

(** The data of the first [n] channels. *)
Definition first_channels (n : nat) (d : MatrixXd) : MatrixXd :=
  mkMatrix (m_cols d) (take n (m_coeffs d)).

(** The settings with one more trial at the end of the trial list. *)
Definition add_trial (t : ConnectivityTrialData) (s : ConnectivitySettings)
  : ConnectivitySettings :=
  mkSettings (m_dataList s ++ [t]) (m_iNfft s) (m_sWindowType s) (data s).

(** An FFT routine that commutes with the multiplication of the signal by
    [g]. *)
Definition homogeneous (fft_kernel : list R → nat → complex) (g : R) : Prop :=
  ∀ x k, fft_kernel ((λ v, g * v)%R <$> x) k = Cplx.scale (fft_kernel x k) g.

(** The result stored for a trial, for the data multiplied by [g]: the
    PSD and the CSDs are multiplied by the square of [g]. *)
Definition gain_trial (g : R) (r : ConnectivityTrialData) : ConnectivityTrialData :=
  mkTrial (mat_scale g (matData r)) (mat_scale (g * g) (matPsd r))
    (pairs_scale (g * g) (vecPairCsd r)).

(** A cross term [z] that the two powers [p] and [q] dominate. *)
Definition dominated (z : complex) (p q : R) : Prop :=
  (0 <= p ∧ 0 <= q ∧ Cplx.abs2 z <= p * q)%R.

(** A cross term whose squared magnitude is the product of the two
    powers. *)
Definition tight (z : complex) (p q : R) : Prop :=
  (0 <= p ∧ 0 <= q ∧ Cplx.abs2 z = p * q)%R.

(** The cross term of a signal with itself: the power, which is the same
    on both sides, without imaginary part. *)
Definition auto_term (z : complex) (p q : R) : Prop :=
  (z = Cplx.mk p 0 ∧ q = p ∧ 0 <= p)%R.

(** A relation between a cross term and two powers that the empty sum,
    sums and divisions by a non-negative number keep. *)
Definition sum_closed (Rel : complex → R → R → Prop) : Prop :=
  Rel Cplx.zero 0%R 0%R
  ∧ (∀ z1 p1 q1 z2 p2 q2,
       Rel z1 p1 q1 → Rel z2 p2 q2 →
       Rel (Cplx.add z1 z2) (p1 + p2)%R (q1 + q2)%R)
  ∧ (∀ z p q c, (0 <= c)%R → Rel z p q →
       Rel (Cplx.divr z c) (p / c)%R (q / c)%R).

(** [Rel] holds between bin k of row j of the CSD entry i and the bins k
    of the rows i and j of the PSD, for the pairs (i, j) in [Idx]. *)
Definition holds_at (Rel : complex → R → R → Prop) (Idx : nat → nat → Prop)
    (pairs : list (Z * MatrixXcd)) (psd : MatrixXd) : Prop :=
  ∀ i j k e z p q,
    Idx i j → pairs !! i = Some e → coeff e.2 j k = Some z →
    coeff psd i k = Some p → coeff psd j k = Some q → Rel z p q.

(** What a call leaves of the settings as it found them: the configured
    FFT length, the window type and the data of every trial. *)
Definition same_configuration (s s' : ConnectivitySettings) : Prop :=
  m_iNfft s' = m_iNfft s ∧ m_sWindowType s' = m_sWindowType s
  ∧ matData <$> m_dataList s' = matData <$> m_dataList s.

(** A power that is zero. *)
Definition no_power (z : complex) (p q : R) : Prop := p = 0%R.

(** The coefficients of a list of CSD entries, for the pairs (i, j) with
    i <= j, and those of a PSD matrix are given by [csd] and [psd]. *)
Definition coeffs_are (csd : nat → nat → nat → complex) (psd : nat → nat → R)
    (pairs : list (Z * MatrixXcd)) (P : MatrixXd) : Prop :=
  (∀ i j k e z, i ≤ j → pairs !! i = Some e → coeff e.2 j k = Some z →
                z = csd i j k)
  ∧ (∀ i k p, coeff P i k = Some p → p = psd i k).

(** The sums over the trials of a run, in the order of the trials, of the
    CSD and of the PSD of the description of the estimator. *)
Definition csd_sum (fft_kernel : list R → nat → complex) (d : MatrixXd)
    (ds : list MatrixXd) (tapers : MatrixXd * list R) (nfft : Z)
    (i j k : nat) : complex :=
  foldl Cplx.add (spec_csd fft_kernel d tapers nfft i j k)
    ((λ d, spec_csd fft_kernel d tapers nfft i j k) <$> ds).

Definition psd_sum (fft_kernel : list R → nat → complex) (d : MatrixXd)
    (ds : list MatrixXd) (tapers : MatrixXd * list R) (nfft : Z)
    (i k : nat) : R :=
  foldl Rplus (spec_psd fft_kernel d tapers nfft i k)
    ((λ d, spec_psd fft_kernel d tapers nfft i k) <$> ds).

(** The data with the channels [a] and [b] exchanged. *)
Definition swap_channels (a b : nat) (d : MatrixXd) : MatrixXd :=
  match row d a, row d b with
  | Some ra, Some rb =>
      mkMatrix (m_cols d) (<[a := rb]> (<[b := ra]> (m_coeffs d)))
  | _, _ => d
  end.


(** ** Concrete settings *)

(** A trial of one channel and two samples. *)
Definition swing : MatrixXd := mkMatrix 2 [[2; -2]%R].

(** One taper with the values 1, 2, ..., L and the weight 1. *)
Definition ramp_tapers (iSignalLength : Z) (sWindowType : string)
  : MatrixXd * list R :=
  (mkMatrix (Z.to_nat iSignalLength)
     [(λ n, INR (S n)) <$> seq 0 (Z.to_nat iSignalLength)],
   [1%R]).

(** The trial [swing] with the PSD and the CSD that [compute] stores in it
    for the taper of [ramp_tapers] and an FFT of length 2, and the settings
    that a call of [calculate] on this trial leaves. *)
Definition memo_trial : ConnectivityTrialData :=
  mkTrial swing (mkMatrix 2 [[4; 36]%R])
    [(0%Z, mkMatrix 2 [[Cplx.mk 4 0; Cplx.mk 36 0]])].

Definition memo_settings : ConnectivitySettings :=
  mkSettings [memo_trial] 2 "ramp"
    (mkSums (mkMatrix 2 [[2; 6]%R])
       [(0%Z, mkMatrix 2 [[Cplx.mk 1 0; Cplx.mk 1 0]])]).

(** Bin [k] of row [j] of the matrix of entry [i], real part. *)
Definition csd_re (pairs : list (Z * MatrixXcd)) (i j k : nat) : option R :=
  e ← pairs !! i; Cplx.re <$> coeff e.2 j k.


(** The settings with another configured FFT length. *)
Definition set_nfft (n : Z) (s : ConnectivitySettings) : ConnectivitySettings :=
  mkSettings (m_dataList s) n (m_sWindowType s) (data s).

(** The result of a call with the configured FFT length put back. *)
Definition keep_nfft {A : Type} (n : Z) (res : A * ConnectivitySettings)
  : A * ConnectivitySettings :=
  (res.1, set_nfft n res.2).

(** Data of two samples for one, two, three channels and for none. *)
Definition one_channel : MatrixXd := mkMatrix 2 [[1; 3]%R].
Definition two_channels : MatrixXd := mkMatrix 2 [[1; 3]; [2; 5]]%R.
Definition three_channels : MatrixXd := mkMatrix 2 [[1; 3]; [2; 5]; [4; 0]]%R.
Definition no_channel : MatrixXd := mkMatrix 2 [].

(** Other data of two channels and two samples, and data whose second
    channel is the first one with the offset 1. *)
Definition two_channels_b : MatrixXd := mkMatrix 2 [[0; 1]; [4; 2]]%R.
Definition copy_channels : MatrixXd := mkMatrix 2 [[1; 3]; [1 + 1; 3 + 1]]%R.

(** Data whose first channel is constant. *)
Definition flat_channels : MatrixXd := mkMatrix 2 [[7; 7]; [1; 3]]%R.

(** ** Loops and matrices: general facts *)

Lemma for_range_inv {St : Type} (P : nat → St → Prop)
    (body : nat → St → option St) (lo hi : nat) (s : St) :
  lo ≤ hi → P lo s →
  (∀ i st, lo ≤ i < hi → P i st → ∃ st', body i st = Some st' ∧ P (S i) st') →
  ∃ s', for_range lo hi body s = Some s' ∧ P hi s'.
Proof.
  unfold for_range. intros Hle.
  remember (hi - lo) as n eqn:Hn.
  revert lo s Hle Hn. induction n as [|n IH]; intros lo s Hle Hn HP Hstep.
  - exists s. assert (hi = lo) as -> by lia. done.
  - simpl. destruct (Hstep lo s) as (s1 & -> & HP1); [lia|done|]. simpl.
    apply IH; [lia|lia|done|]. intros i st Hi. apply Hstep. lia.
Qed.

Lemma for_range_empty {St : Type} (body : nat → St → option St) (lo hi : nat) (s : St) :
  hi ≤ lo → for_range lo hi body s = Some s.
Proof. intros H. unfold for_range. by replace (hi - lo) with 0 by lia. Qed.

Section EigenFacts.
Context {A : Type}.
Implicit Types (M : Matrix A) (r : list A).

Lemma set_row_Some M i r :
  i < rows M → length r = cols M →
  set_row M i r = Some (mkMatrix (m_cols M) (<[i := r]> (m_coeffs M))).
Proof.
  intros Hi Hr. unfold set_row.
  apply Nat.ltb_lt in Hi as ->. apply Nat.eqb_eq in Hr as ->. done.
Qed.

Lemma update_coeff_Some M i k f r x :
  row M i = Some r → r !! k = Some x →
  update_coeff M i k f
  = Some (mkMatrix (m_cols M) (<[i := <[k := f x]> r]> (m_coeffs M))).
Proof. intros Hr Hx. unfold update_coeff. rewrite Hr. simpl. by rewrite Hx. Qed.

Lemma mat_wf_alloc (n c : nat) (x : A) : mat_wf (mat_alloc n c x).
Proof.
  unfold mat_wf, mat_alloc. simpl. apply Forall_replicate.
  by rewrite length_replicate.
Qed.

Lemma mat_wf_insert M i r :
  mat_wf M → length r = cols M →
  mat_wf (mkMatrix (m_cols M) (<[i := r]> (m_coeffs M))).
Proof.
  unfold mat_wf. simpl. intros Hwf Hr.
  destruct (decide (i < length (m_coeffs M))) as [Hi|Hi].
  - by apply Forall_insert.
  - by rewrite list_insert_ge by lia.
Qed.

Lemma mat_wf_row M i r : mat_wf M → row M i = Some r → length r = cols M.
Proof. intros Hwf Hr. by eapply (Forall_lookup_1 _ _ _ _ Hwf Hr). Qed.

Lemma mat_zip_Some {B C : Type} (f : A → B → C) M (N : Matrix B) :
  rows M = rows N → cols M = cols N →
  mat_zip f M N
  = Some (mkMatrix (m_cols M) (zip_with (zip_with f) (m_coeffs M) (m_coeffs N))).
Proof.
  unfold mat_zip, rows, cols. intros Hr Hc.
  apply Nat.eqb_eq in Hr as ->. apply Nat.eqb_eq in Hc as ->. done.
Qed.

End EigenFacts.

Section RowFacts.
Context {A : Type}.
Implicit Types (M : Matrix A) (r : list A).

Lemma insert_as_alter (f : A → A) r k x :
  r !! k = Some x → <[k := f x]> r = alter f k r.
Proof.
  intros H. apply list_eq. intros j.
  apply lookup_lt_Some in H as Hlt.
  destruct (decide (k = j)) as [<-|Hne].
  - by rewrite list_lookup_insert_eq, list_lookup_alter_eq, H.
  - by rewrite list_lookup_insert_ne, list_lookup_alter_ne.
Qed.

Lemma halve_bins_length (half : A → A) even r :
  length (halve_bins half even r) = length r.
Proof.
  unfold halve_bins. destruct even; by rewrite ?length_alter.
Qed.

Lemma halve_bins_lookup (half : A → A) even r k x :
  r !! k = Some x →
  halve_bins half even r !! k
  = Some (let y := if k =? 0 then half x else x in
          if even && (k =? length r - 1) then half y else y).
Proof.
  intros H. unfold halve_bins.
  assert (alter half 0 r !! k = Some (if k =? 0 then half x else x)) as H1.
  { destruct (decide (0 = k)) as [<-|Hk].
    - by rewrite list_lookup_alter_eq, H.
    - rewrite list_lookup_alter_ne, H by done. by destruct k. }
  destruct even; simpl; [|done].
  rewrite length_alter.
  destruct (decide (length r - 1 = k)) as [<-|Hk].
  - by rewrite list_lookup_alter_eq, H1, Nat.eqb_refl.
  - rewrite list_lookup_alter_ne, H1 by done.
    apply Nat.eqb_neq in Hk. rewrite Nat.eqb_sym in Hk. by rewrite Hk.
Qed.

(** Assigning a row and halving its end bins in place. *)
Lemma assign_row_halved (half : A → A) M i r (even : bool) :
  i < rows M → length r = cols M → 0 < cols M →
  ∃ M1 M2,
    set_row M i r = Some M1 ∧ update_coeff M1 i 0 half = Some M2 ∧
    (if even then update_tail1 M2 i half else Some M2)
    = Some (mkMatrix (m_cols M) (<[i := halve_bins half even r]> (m_coeffs M))).
Proof.
  intros Hi Hr Hc. unfold cols, rows in *.
  destruct (lookup_lt_is_Some_2 r 0) as [x Hx]; [lia|].
  eexists _, _. split; [by apply set_row_Some|].
  split.
  { eapply update_coeff_Some; [|done]. unfold row. simpl.
    by apply list_lookup_insert_eq. }
  simpl. rewrite list_insert_insert_eq, (insert_as_alter half r 0 x Hx).
  unfold halve_bins. destruct even; [|done].
  destruct (lookup_lt_is_Some_2 (alter half 0 r) (m_cols M - 1)) as [y Hy].
  { rewrite length_alter. lia. }
  unfold update_tail1, cols. simpl.
  erewrite update_coeff_Some; [|unfold row; simpl; by apply list_lookup_insert_eq|done].
  simpl. rewrite list_insert_insert_eq, (insert_as_alter half _ _ y Hy).
  by rewrite length_alter, Hr.
Qed.

Lemma colwise_sum_length (zero : A) add M :
  mat_wf M → length (colwise_sum zero add M) = cols M.
Proof.
  unfold colwise_sum, mat_wf. generalize (cols M) as c. intros c.
  induction 1 as [|r l Hr _ IH]; simpl.
  - by rewrite length_replicate.
  - rewrite length_zip_with. lia.
Qed.

Lemma colwise_sum_lookup (zero : A) add M k :
  mat_wf M → k < cols M →
  colwise_sum zero add M !! k
  = Some (foldr add zero ((λ r, default zero (r !! k)) <$> m_coeffs M)).
Proof.
  unfold colwise_sum, mat_wf. generalize (cols M) as c. intros c Hwf Hk.
  induction Hwf as [|r l Hr _ IH]; simpl.
  - by apply lookup_replicate_2.
  - rewrite lookup_zip_with, IH.
    destruct (lookup_lt_is_Some_2 r k) as [x ->]; [lia|]. done.
Qed.

End RowFacts.

Lemma mat_wf_map {A B : Type} (f : A → B) (M : Matrix A) :
  mat_wf M → mat_wf (mat_map f M).
Proof.
  unfold mat_wf, mat_map, cols. simpl. intros H.
  apply Forall_fmap. eapply Forall_impl; [exact H|].
  intros r Hr. simpl. by rewrite length_fmap.
Qed.


Lemma mat_wf_zip {A B C : Type} (f : A → B → C) (M : Matrix A) (N : Matrix B) :
  mat_wf M → mat_wf N → cols M = cols N →
  mat_wf (mkMatrix (m_cols M) (zip_with (zip_with f) (m_coeffs M) (m_coeffs N))).
Proof.
  unfold mat_wf, cols. simpl. intros HM HN Hc.
  apply Forall_lookup_2. intros i r. rewrite lookup_zip_with. intros Hr.
  destruct (m_coeffs M !! i) as [a|] eqn:Ha; [|done]. simpl in Hr.
  destruct (m_coeffs N !! i) as [b|] eqn:Hb; [|done]. simpl in Hr.
  injection Hr as <-. rewrite length_zip_with.
  rewrite (Forall_lookup_1 _ _ _ _ HM Ha), (Forall_lookup_1 _ _ _ _ HN Hb). lia.
Qed.


Lemma rem2_even (n : Z) : (0 ≤ n)%Z → (Z.rem n 2 =? 0)%Z = Z.even n.
Proof.
  intros Hn. rewrite Z.rem_mod_nonneg by lia. rewrite Zmod_even.
  by destruct (Z.even n).
Qed.

Lemma to_nat_bins (nfft : Z) :
  (0 ≤ nfft)%Z → Z.to_nat (nfft / 2 + 1) = spec_bins nfft.
Proof.
  intros H. unfold spec_bins.
  assert (0 ≤ nfft / 2)%Z by (apply Z.div_pos; lia). lia.
Qed.

Lemma mat_alloc_int_Some {A : Type} (r c : Z) (x : A) :
  (0 ≤ r)%Z → (0 ≤ c)%Z →
  mat_alloc_int r c x = Some (mat_alloc (Z.to_nat r) (Z.to_nat c) x).
Proof.
  intros Hr Hc. unfold mat_alloc_int.
  apply Z.leb_le in Hr as ->. apply Z.leb_le in Hc as ->. done.
Qed.


Lemma fmap_as_seq {A B : Type} (g : A → B) (h : nat → B) (l : list A) :
  (∀ t x, l !! t = Some x → g x = h t) → g <$> l = h <$> seq 0 (length l).
Proof.
  intros H. apply list_eq. intros t. rewrite !list_lookup_fmap.
  destruct (l !! t) as [x|] eqn:Hx.
  - rewrite lookup_seq_lt by by eapply lookup_lt_Some. simpl. f_equal. by apply H.
  - rewrite lookup_seq_ge by by apply lookup_ge_None. done.
Qed.

Lemma weight_norm2_nonneg (weights : list R) : (0 <= weight_norm2 weights)%R.
Proof.
  unfold weight_norm2, Rsum. induction weights as [|w l IH].
  - simpl. lra.
  - rewrite fmap_cons. cbn [foldr].
    pose proof (Rle_0_sqr w) as Hw. unfold Rsqr in Hw. lra.
Qed.

Lemma denomCSD_eq (weights : list R) :
  (sqrt (weight_norm2 weights) * sqrt (weight_norm2 weights) / 2
   = weight_norm2 weights / 2)%R.
Proof. rewrite sqrt_sqrt by apply weight_norm2_nonneg. done. Qed.

(** ** The loops of [compute] *)

Section TaperLoop.
Context (fft_kernel : list R → nat → complex).

Lemma fft_fwd_length src nfft :
  length (fft_fwd fft_kernel src nfft)
  = (if (nfft <? 1)%Z then length src else Z.to_nat nfft) / 2 + 1.
Proof. unfold fft_fwd. by rewrite length_map, length_seq. Qed.

Lemma fft_fwd_bins src nfft :
  (Z.of_nat (length src) ≤ nfft)%Z →
  length (fft_fwd fft_kernel src nfft) = spec_bins nfft.
Proof.
  intros H. rewrite fft_fwd_length. unfold spec_bins.
  destruct (nfft <? 1)%Z eqn:E.
  - apply Z.ltb_lt in E. assert (nfft = 0%Z) as -> by lia.
    assert (length src = 0) as -> by lia. done.
  - apply Z.ltb_ge in E. rewrite Z2Nat.inj_div by lia. done.
Qed.

Lemma take_S_insert {A} (l : list A) j x :
  j < length l → take (S j) (<[j := x]> l) = take j l ++ [x].
Proof.
  intros Hj. rewrite (take_S_r _ _ x).
  - by rewrite take_insert_ge by lia.
  - by apply list_lookup_insert_eq.
Qed.

Lemma taper_loop rowData tapers nfft (M : MatrixXcd) :
  mat_wf tapers.1 → cols tapers.1 = length rowData →
  length tapers.2 = rows tapers.1 →
  (Z.of_nat (length rowData) ≤ nfft)%Z →
  rows M = rows tapers.1 → cols M = spec_bins nfft →
  for_range 0 (rows tapers.1) (taper_step fft_kernel rowData tapers nfft) M
  = Some (mkMatrix (spec_bins nfft) (tap_rows fft_kernel rowData tapers nfft)).
Proof.
  intros Hwf Hc Hw Hn HrM HcM.
  set (K := rows tapers.1) in *. set (F := spec_bins nfft) in *.
  set (T := tap_rows fft_kernel rowData tapers nfft).
  assert (length T = K) as HT.
  { unfold T, tap_rows. rewrite length_zip_with. unfold K, rows in *. lia. }
  destruct (for_range_inv
    (λ j (M' : MatrixXcd), m_cols M' = F ∧ length (m_coeffs M') = K
                           ∧ take j (m_coeffs M') = take j T)
    (taper_step fft_kernel rowData tapers nfft) 0 K M) as (M' & -> & HF & HK & Ht);
    [lia|done| |].
  - intros j M1 Hj (H1 & H2 & H3).
    destruct (lookup_lt_is_Some_2 (m_coeffs tapers.1) j) as [taper Htap];
      [unfold K, rows in Hj; lia|].
    destruct (lookup_lt_is_Some_2 tapers.2 j) as [w Hwj]; [lia|].
    assert (length taper = length rowData) as Hlt.
    { rewrite <- Hc. by eapply mat_wf_row. }
    unfold taper_step, row. rewrite Htap. simpl.
    unfold vec_zip. rewrite Hlt, Nat.eqb_refl. simpl. rewrite Hwj. simpl.
    rewrite set_row_Some.
    + eexists; split; [done|]. simpl. rewrite length_insert.
      split_and!; [done..|].
      rewrite take_S_insert by lia. rewrite H3.
      symmetry. apply take_S_r. unfold T, tap_rows.
      rewrite lookup_zip_with, Htap. simpl. by rewrite Hwj.
    + unfold rows. lia.
    + rewrite length_map, fft_fwd_bins; [done|].
      rewrite length_zip_with. lia.
  - f_equal. destruct M' as [c l]. simpl in *. subst c. f_equal.
    rewrite <- (take_ge l K), <- (take_ge T K) by lia. done.
Qed.

End TaperLoop.

Section PsdLoop.
Context (fft_kernel : list R → nat → complex).

Lemma tap_rows_wf rowData tapers nfft :
  tapers_wf tapers (length rowData) → (Z.of_nat (length rowData) ≤ nfft)%Z →
  mat_wf (mkMatrix (spec_bins nfft) (tap_rows fft_kernel rowData tapers nfft)).
Proof.
  intros (Hwf & Hc & Hw) Hn. unfold mat_wf, cols. simpl.
  apply Forall_lookup_2. intros t r. unfold tap_rows.
  rewrite lookup_zip_with. intros Hr.
  destruct (m_coeffs tapers.1 !! t) as [taper|] eqn:Ht; [|done]. simpl in Hr.
  destruct (tapers.2 !! t) as [w|]; [|done]. simpl in Hr.
  injection Hr as <-. rewrite length_fmap. apply fft_fwd_bins.
  rewrite length_zip_with.
  assert (length taper = length rowData); [|lia].
  rewrite <- Hc. by eapply mat_wf_row.
Qed.

Lemma tap_rows_length rowData tapers nfft :
  length tapers.2 = rows tapers.1 →
  length (tap_rows fft_kernel rowData tapers nfft) = rows tapers.1.
Proof. intros H. unfold tap_rows. rewrite length_zip_with. unfold rows in *. lia. Qed.

Lemma psd_step_Some d tapers nfft even den i vts M psd dataRow :
  row d i = Some dataRow →
  tapers_wf tapers (length dataRow) → (Z.of_nat (length dataRow) ≤ nfft)%Z →
  rows M = rows tapers.1 → cols M = spec_bins nfft →
  i < rows psd → cols psd = spec_bins nfft →
  let S := mkMatrix (spec_bins nfft)
             (tap_rows fft_kernel (demeaned dataRow) tapers nfft) in
  psd_step fft_kernel d tapers nfft even den i (vts, M, psd)
  = Some (vts ++ [S], S,
          mkMatrix (m_cols psd) (<[i := psd_row den even S]> (m_coeffs psd))).
Proof.
  intros Hrow Htap Hn HrM HcM Hi Hc S.
  assert (length (demeaned dataRow) = length dataRow) as Hlen.
  { unfold demeaned. by rewrite length_fmap. }
  unfold psd_step. rewrite Hrow. simpl.
  destruct Htap as (Hwf & Hct & Hw).
  change ((λ x : R, (x - mean dataRow)%R) <$> dataRow) with (demeaned dataRow).
  rewrite taper_loop; [|done|lia|done|lia|done|done]. simpl. fold S.
  assert (mat_wf S) as HS.
  { apply tap_rows_wf; [|lia]. rewrite Hlen. done. }
  destruct (assign_row_halved halve psd i
              ((λ x, x / den)%R <$> colwise_sum 0%R Rplus (mat_map Cplx.abs2 S))
              even) as (M1 & M2 & -> & H2 & H3).
  - done.
  - rewrite length_fmap, colwise_sum_length by by apply mat_wf_map.
    by rewrite Hc.
  - rewrite Hc. unfold spec_bins. lia.
  - simpl. rewrite H2. simpl. rewrite H3. done.
Qed.

Lemma psd_loop d tapers nfft even den M0 :
  mat_wf d → tapers_wf tapers (cols d) → (Z.of_nat (cols d) ≤ nfft)%Z →
  rows M0 = rows tapers.1 → cols M0 = spec_bins nfft →
  ∃ M',
    for_range 0 (rows d) (psd_step fft_kernel d tapers nfft even den)
      ([], M0, mat_alloc (rows d) (spec_bins nfft) 0%R)
    = Some (trial_spectra fft_kernel d tapers nfft, M',
            mkMatrix (spec_bins nfft)
              (psd_row den even <$> trial_spectra fft_kernel d tapers nfft)).
Proof.
  intros Hwf Htap Hn HrM HcM.
  set (TS := trial_spectra fft_kernel d tapers nfft).
  set (F := spec_bins nfft) in *. set (C := rows d).
  assert (length TS = C) as HTS. { unfold TS, trial_spectra. by rewrite length_fmap. }
  destruct (for_range_inv
    (λ i (st : list MatrixXcd * MatrixXcd * MatrixXd),
       st.1.1 = take i TS ∧ rows st.1.2 = rows tapers.1 ∧ cols st.1.2 = F
       ∧ m_cols st.2 = F ∧ length (m_coeffs st.2) = C
       ∧ take i (m_coeffs st.2) = take i (psd_row den even <$> TS))
    (psd_step fft_kernel d tapers nfft even den) 0 C
    ([], M0, mat_alloc C F 0%R)) as ([[vts M'] psd] & -> & H1 & _ & _ & H4 & H5 & H6);
    [lia| | |].
  - simpl. rewrite length_replicate. done.
  - intros i [[vts M] psd] Hi (H1 & H2 & H3 & H4 & H5 & H6). cbn [fst snd] in *.
    destruct (lookup_lt_is_Some_2 (m_coeffs d) i) as [dataRow Hrow]; [unfold C, rows in Hi; lia|].
    assert (length dataRow = cols d) as Hlen by by eapply mat_wf_row.
    rewrite (psd_step_Some _ _ _ _ _ _ _ _ _ dataRow);
      [|done|by rewrite Hlen|lia|done|done|unfold rows; lia|done].
    eexists; split; [done|]. simpl.
    assert (TS !! i = Some (mkMatrix F (tap_rows fft_kernel (demeaned dataRow) tapers nfft))) as HTSi.
    { unfold TS, trial_spectra. rewrite list_lookup_fmap, Hrow. reflexivity. }
    rewrite length_insert. split_and!; [|by apply tap_rows_length, Htap|done..|].
    + rewrite H1. symmetry. by apply take_S_r.
    + rewrite take_S_insert by lia. rewrite H6. symmetry. apply take_S_r.
      rewrite list_lookup_fmap, HTSi. done.
  - simpl in *. exists M'. subst vts. rewrite take_ge by lia.
    do 2 f_equal. destruct psd as [c l]. simpl in *. subst c. f_equal.
    rewrite <- (take_ge l C) by lia. rewrite H6. apply take_ge.
    rewrite length_fmap. lia.
Qed.

End PsdLoop.

Section CsdLoop.
Context (fft_kernel : list R → nat → complex).

Lemma csd_row_length den even (Si Sj : MatrixXcd) K F :
  mat_wf Si → cols Si = F → rows Si = K →
  mat_wf Sj → cols Sj = F → rows Sj = K →
  length (csd_row den even Si Sj) = F.
Proof.
  intros HSi Hci Hri HSj Hcj Hrj. unfold csd_row.
  rewrite halve_bins_length, length_fmap, colwise_sum_length; [done|].
  apply mat_wf_zip; [done|by apply mat_wf_map|]. unfold cols in *. simpl. congruence.
Qed.

Lemma csd_inner_loop vts even den i K F (M : MatrixXcd) Si :
  spectra_wf vts K F → 0 < F → vts !! i = Some Si →
  rows M = length vts → cols M = F →
  for_range i (length vts) (csd_inner_step vts even den i) M
  = Some (mkMatrix F (take i (m_coeffs M) ++ (csd_row den even Si <$> drop i vts))).
Proof.
  intros Hvts HF HSi HrM HcM. set (C := length vts) in *.
  assert (i < C) as HiC by by eapply lookup_lt_Some.
  pose proof (Forall_lookup_1 _ _ _ _ Hvts HSi) as (HwSi & HcSi & HrSi).
  destruct (for_range_inv
    (λ j (M' : MatrixXcd), m_cols M' = F ∧ length (m_coeffs M') = C
       ∧ take j (m_coeffs M')
         = take i (m_coeffs M) ++ (csd_row den even Si <$> take (j - i) (drop i vts)))
    (csd_inner_step vts even den i) i C M) as (M' & -> & H1 & H2 & H3);
    [lia| | |].
  - split_and!; [done..|]. rewrite Nat.sub_diag. simpl. by rewrite app_nil_r.
  - intros j M1 Hj (H1 & H2 & H3).
    destruct (lookup_lt_is_Some_2 vts j) as [Sj HSj]; [lia|].
    pose proof (Forall_lookup_1 _ _ _ _ Hvts HSj) as (HwSj & HcSj & HrSj).
    unfold csd_inner_step. rewrite HSi, HSj. simpl.
    rewrite mat_zip_Some; [|unfold rows, mat_map in *; simpl; rewrite length_fmap; lia
                            |unfold cols in *; simpl; congruence].
    cbn [mbind option_bind].
    destruct (assign_row_halved chalve M1 j
      ((λ z, Cplx.divr z den) <$> colwise_sum Cplx.zero Cplx.add
         (mkMatrix (m_cols Si)
            (zip_with (zip_with Cplx.mul) (m_coeffs Si)
               (m_coeffs (mat_map Cplx.conj Sj))))) even)
      as (M2 & M3 & -> & HM3 & Hfin).
    + unfold rows. lia.
    + rewrite length_fmap, colwise_sum_length.
      * unfold cols in *. simpl. congruence.
      * apply mat_wf_zip; [done|by apply mat_wf_map|]. unfold cols in *. simpl. congruence.
    + unfold cols. lia.
    + simpl. rewrite HM3. simpl. rewrite Hfin.
      eexists; split; [done|]. simpl. rewrite length_insert.
      split_and!; [done..|].
      rewrite take_S_insert by lia. rewrite H3.
      replace (S j - i) with (S (j - i)) by lia.
      rewrite (take_S_r _ _ Sj).
      * rewrite fmap_app, app_assoc. done.
      * rewrite lookup_drop. by replace (i + (j - i)) with j by lia.
  - f_equal. destruct M' as [c l]. simpl in *. subst c. f_equal.
    rewrite <- (take_ge l C) by lia. rewrite H3.
    rewrite (take_ge (drop i vts)); [done|]. rewrite length_drop. lia.
Qed.

Lemma csd_loop vts even den K F iNRows old :
  spectra_wf vts K F → 0 < F → Z.to_nat iNRows = length vts →
  ∃ M' new,
    for_range 0 (length vts) (csd_step vts even den iNRows)
      (mat_alloc (length vts) F Cplx.zero, old)
    = Some (M', old ++ new)
    ∧ length new = length vts
    ∧ ∀ i e, new !! i = Some e → csd_entry_ok vts den even F i e.
Proof.
  intros Hvts HF HC.
  destruct (for_range_inv
    (λ i (st : MatrixXcd * list (Z * MatrixXcd)),
       m_cols st.1 = F ∧ length (m_coeffs st.1) = length vts ∧ mat_wf st.1
       ∧ ∃ new, st.2 = old ++ new ∧ length new = i
           ∧ ∀ i' e, new !! i' = Some e → csd_entry_ok vts den even F i' e)
    (csd_step vts even den iNRows) 0 (length vts)
    (mat_alloc (length vts) F Cplx.zero, old))
    as ([M' pairs] & -> & _ & _ & _ & new & Hp & Hl & Hnew); [lia| | |].
  - cbn [fst snd]. split_and!.
    + done.
    + simpl. by rewrite length_replicate.
    + apply mat_wf_alloc.
    + exists []. rewrite app_nil_r. split_and!; [done..|]. intros ? ?. by rewrite lookup_nil.
  - intros i [M pairs] Hi (H1 & H2 & H3 & new & Hp & Hl & Hnew).
    cbn [fst snd] in *. subst pairs.
    destruct (lookup_lt_is_Some_2 vts i) as [Si HSi]; [lia|].
    pose proof (Forall_lookup_1 _ _ _ _ Hvts HSi) as (HwSi & HcSi & HrSi).
    unfold csd_step. rewrite HC.
    rewrite (csd_inner_loop _ _ _ _ K F _ Si) by done. simpl.
    set (M1 := mkMatrix F (take i (m_coeffs M) ++ (csd_row den even Si <$> drop i vts))).
    assert (length (m_coeffs M1) = length vts) as HlM1.
    { simpl. rewrite length_app, length_take, length_fmap, length_drop. lia. }
    assert (mat_wf M1) as HwM1.
    { unfold mat_wf, cols. simpl. apply Forall_app. split.
      - apply Forall_take. unfold mat_wf, cols in H3. by rewrite H1 in H3.
      - apply Forall_fmap, Forall_drop. eapply Forall_impl; [exact Hvts|].
        intros Sj (? & ? & ?). simpl. by eapply csd_row_length. }
    eexists; split; [done|]. cbn [fst snd].
    split_and!; [done..|].
    exists (new ++ [(Z.of_nat i, M1)]). split_and!.
    + by rewrite app_assoc.
    + rewrite length_app. simpl. lia.
    + intros i' e He. apply lookup_app_Some in He as [He|[Hge He]]; [by apply Hnew|].
      rewrite Hl in Hge, He.
      destruct (i' - i) as [|n] eqn:En; [|done]. simpl in He. injection He as <-.
      assert (i' = i) as -> by lia.
      split_and!; [done..|].
      intros j Sa Sb Hj Ha Hb. simpl. unfold row. simpl.
      rewrite lookup_app_r by (rewrite length_take; lia).
      rewrite length_take, list_lookup_fmap, lookup_drop.
      replace (i + (j - i `min` length (m_coeffs M))) with j by lia.
      rewrite Hb. simpl. congruence.
  - exists M', new. cbn [fst snd] in *. subst pairs. done.
Qed.

End CsdLoop.

Section TrialResult.
Context (fft_kernel : list R → nat → complex).

Lemma trial_spectra_wf d tapers nfft :
  mat_wf d → tapers_wf tapers (cols d) → (Z.of_nat (cols d) ≤ nfft)%Z →
  spectra_wf (trial_spectra fft_kernel d tapers nfft)
    (rows tapers.1) (spec_bins nfft).
Proof.
  intros Hwf Htap Hn. unfold spectra_wf, trial_spectra.
  apply Forall_fmap. eapply Forall_impl; [exact Hwf|].
  intros dataRow Hlen. simpl.
  assert (length (demeaned dataRow) = cols d) as Hl.
  { unfold demeaned. by rewrite length_fmap. }
  split_and!.
  - apply tap_rows_wf; by rewrite Hl.
  - done.
  - unfold rows at 1. simpl. apply tap_rows_length, Htap.
Qed.

Lemma compute_trial_Some inputData iNRows iNFreqs iNfft tapers :
  mat_wf (matData inputData) →
  tapers_wf tapers (cols (matData inputData)) →
  iNRows = Z.of_nat (rows (matData inputData)) →
  (Z.of_nat (cols (matData inputData)) ≤ iNfft)%Z →
  iNFreqs = (iNfft / 2 + 1)%Z →
  let even := (Z.rem iNfft 2 =? 0)%Z in
  let TS := trial_spectra fft_kernel (matData inputData) tapers iNfft in
  ∃ new,
    compute_trial fft_kernel inputData iNRows iNFreqs iNfft tapers
    = Some (mkTrial (matData inputData)
              (mkMatrix (spec_bins iNfft)
                 (psd_row (weight_norm2 tapers.2 / 2) even <$> TS))
              (vecPairCsd inputData ++ new))
    ∧ length new = rows (matData inputData)
    ∧ ∀ i e, new !! i = Some e →
        csd_entry_ok TS
          (sqrt (weight_norm2 tapers.2) * sqrt (weight_norm2 tapers.2) / 2)
          even (spec_bins iNfft) i e.
Proof.
  intros Hwf Htap -> Hn -> even TS. subst even.
  assert (0 ≤ iNfft)%Z as Hpos by lia.
  assert (length TS = rows (matData inputData)) as HTS.
  { unfold TS, trial_spectra. by rewrite length_fmap. }
  unfold compute_trial.
  assert (0 ≤ iNfft / 2)%Z as Hdiv by (apply Z.div_pos; lia).
  rewrite !mat_alloc_int_Some by lia.
  cbn [mbind option_bind]. rewrite !Nat2Z.id, !to_nat_bins by done.
  destruct (psd_loop fft_kernel (matData inputData) tapers iNfft
              (Z.rem iNfft 2 =? 0)%Z
              (weight_norm2 tapers.2 / 2)
              (mat_alloc (rows tapers.1) (spec_bins iNfft) Cplx.zero))
    as (M' & ->); [done..| |done|].
  { unfold rows, mat_alloc. simpl. by rewrite length_replicate. }
  cbn [mbind option_bind]. fold TS. rewrite <- HTS.
  destruct (csd_loop TS (Z.rem iNfft 2 =? 0)%Z
              (sqrt (weight_norm2 tapers.2) * sqrt (weight_norm2 tapers.2) / 2)
              (rows tapers.1) (spec_bins iNfft)
              (Z.of_nat (length TS)) (vecPairCsd inputData))
    as (M'' & new & Hloop & Hlen & Hnew).
  - by apply trial_spectra_wf.
  - unfold spec_bins. lia.
  - lia.
  - rewrite Hloop. cbn [mbind option_bind].
    exists new. split_and!; [done|lia|done].
Qed.

End TrialResult.

Section Pointwise.
Context (fft_kernel : list R → nat → complex).

Lemma spectrum_lookup d tapers nfft i t k dataRow r :
  row d i = Some dataRow →
  tap_rows fft_kernel (demeaned dataRow) tapers nfft !! t = Some r →
  default Cplx.zero (r !! k) = spec_spectrum fft_kernel d tapers nfft i t k.
Proof.
  intros Hrow Hr. unfold spec_spectrum. rewrite Hrow. cbn [mbind option_bind].
  unfold tap_rows in Hr. rewrite lookup_zip_with in Hr. unfold row.
  destruct (m_coeffs tapers.1 !! t) as [taper|]; [|done]. cbn [mbind option_bind] in *.
  destruct (tapers.2 !! t) as [w|]; [|done]. cbn [mbind option_bind] in *.
  injection Hr as <-. rewrite list_lookup_fmap.
  by destruct (fft_fwd _ _ _ !! k).
Qed.

Lemma psd_row_lookup d tapers nfft i k dataRow :
  row d i = Some dataRow → tapers_wf tapers (length dataRow) →
  (Z.of_nat (length dataRow) ≤ nfft)%Z → k < spec_bins nfft →
  psd_row (weight_norm2 tapers.2 / 2) (Z.rem nfft 2 =? 0)%Z
    (mkMatrix (spec_bins nfft)
       (tap_rows fft_kernel (demeaned dataRow) tapers nfft)) !! k
  = Some (spec_psd fft_kernel d tapers nfft i k).
Proof.
  intros Hrow Htap Hn Hk.
  set (S := mkMatrix (spec_bins nfft)
              (tap_rows fft_kernel (demeaned dataRow) tapers nfft)).
  assert (length (demeaned dataRow) = length dataRow) as Hl.
  { unfold demeaned. by rewrite length_fmap. }
  assert (mat_wf S) as HS by (apply tap_rows_wf; by rewrite Hl).
  unfold psd_row.
  erewrite halve_bins_lookup; last first.
  { rewrite list_lookup_fmap, colwise_sum_lookup; [done|by apply mat_wf_map|done]. }
  rewrite length_fmap, colwise_sum_length by by apply mat_wf_map.
  f_equal. unfold spec_psd, spec_halving, halve, spec_denominator, weight_norm2.
  rewrite rem2_even by lia.
  change (cols (mat_map Cplx.abs2 S)) with (spec_bins nfft).
  cbn zeta.
  replace (foldr Rplus 0%R _) with
    (Rsum ((λ t, Cplx.abs2 (spec_spectrum fft_kernel d tapers nfft i t k))
             <$> seq 0 (rows tapers.1))); [done|].
  unfold Rsum. f_equal. unfold mat_map, S. simpl.
  rewrite <- list_fmap_compose.
  rewrite <- (tap_rows_length fft_kernel (demeaned dataRow) tapers nfft) by apply Htap.
  symmetry. apply fmap_as_seq. intros t r Hr. simpl.
  rewrite list_lookup_fmap.
  rewrite <- (spectrum_lookup d tapers nfft i t k dataRow r Hrow Hr).
  pose proof (Forall_lookup_1 _ _ _ _ HS Hr) as Hlr. unfold cols in Hlr. simpl in Hlr.
  destruct (lookup_lt_is_Some_2 r k) as [z ->]; [lia|]. done.
Qed.

Lemma csd_row_lookup d tapers nfft i j k rowi rowj :
  row d i = Some rowi → row d j = Some rowj →
  length rowi = length rowj → tapers_wf tapers (length rowi) →
  (Z.of_nat (length rowi) ≤ nfft)%Z → k < spec_bins nfft →
  csd_row
    (sqrt (weight_norm2 tapers.2) * sqrt (weight_norm2 tapers.2) / 2)
    (Z.rem nfft 2 =? 0)%Z
    (mkMatrix (spec_bins nfft) (tap_rows fft_kernel (demeaned rowi) tapers nfft))
    (mkMatrix (spec_bins nfft) (tap_rows fft_kernel (demeaned rowj) tapers nfft))
    !! k
  = Some (spec_csd fft_kernel d tapers nfft i j k).
Proof.
  intros Hi Hj Hlen Htap Hn Hk.
  set (Si := mkMatrix (spec_bins nfft)
               (tap_rows fft_kernel (demeaned rowi) tapers nfft)).
  set (Sj := mkMatrix (spec_bins nfft)
               (tap_rows fft_kernel (demeaned rowj) tapers nfft)).
  assert (length (demeaned rowi) = length rowi) as Hli.
  { unfold demeaned. by rewrite length_fmap. }
  assert (length (demeaned rowj) = length rowi) as Hlj.
  { unfold demeaned. rewrite length_fmap. done. }
  assert (mat_wf Si) as HSi by (apply tap_rows_wf; by rewrite Hli).
  assert (mat_wf Sj) as HSj by (apply tap_rows_wf; by rewrite Hlj).
  set (P := mkMatrix (m_cols Si)
              (zip_with (zip_with Cplx.mul) (m_coeffs Si)
                 (m_coeffs (mat_map Cplx.conj Sj)))).
  assert (mat_wf P) as HP by (apply mat_wf_zip; [done|by apply mat_wf_map|done]).
  unfold csd_row. fold P.
  erewrite halve_bins_lookup; last first.
  { rewrite list_lookup_fmap, colwise_sum_lookup; [done|done|done]. }
  rewrite length_fmap, colwise_sum_length by done.
  f_equal. unfold spec_csd, spec_halving, chalve, spec_denominator.
  rewrite rem2_even by lia.
  change (cols P) with (spec_bins nfft). cbn zeta.
  fold (weight_norm2 tapers.2). rewrite denomCSD_eq.
  replace (foldr Cplx.add Cplx.zero _) with
    (Csum ((λ t, Cplx.mul (spec_spectrum fft_kernel d tapers nfft i t k)
                   (Cplx.conj (spec_spectrum fft_kernel d tapers nfft j t k)))
             <$> seq 0 (rows tapers.1))); [done|].
  unfold Csum. f_equal.
  assert (length (m_coeffs P) = rows tapers.1) as HlP.
  { unfold P, Si, Sj, mat_map. simpl.
    rewrite length_zip_with, length_fmap, !tap_rows_length by apply Htap. lia. }
  rewrite <- HlP. symmetry. apply fmap_as_seq. intros t r Hr.
  unfold P, mat_map in Hr. simpl in Hr.
  rewrite lookup_zip_with, list_lookup_fmap in Hr.
  destruct (tap_rows fft_kernel (demeaned rowi) tapers nfft !! t) as [a|] eqn:Ha; [|done].
  destruct (tap_rows fft_kernel (demeaned rowj) tapers nfft !! t) as [b|] eqn:Hb; [|done].
  simpl in Hr. injection Hr as <-.
  rewrite <- (spectrum_lookup d tapers nfft i t k rowi a Hi Ha).
  rewrite <- (spectrum_lookup d tapers nfft j t k rowj b Hj Hb).
  pose proof (Forall_lookup_1 _ _ _ _ HSi Ha) as Hla.
  pose proof (Forall_lookup_1 _ _ _ _ HSj Hb) as Hlb.
  unfold cols in Hla, Hlb. simpl in Hla, Hlb.
  rewrite lookup_zip_with, list_lookup_fmap.
  destruct (lookup_lt_is_Some_2 a k) as [za ->]; [lia|].
  destruct (lookup_lt_is_Some_2 b k) as [zb ->]; [lia|]. done.
Qed.


End Pointwise.
(** ** The critical section and the run over the trials *)

Lemma merge_first (t : ConnectivityTrialData) :
  merge t mat_empty [] = Some (matPsd t, vecPairCsd t).
Proof. reflexivity. Qed.

Lemma csd_sum_loop (acc pairs : list (Z * MatrixXcd)) C F :
  pairs_shape C F acc → pairs_shape C F pairs →
  for_range 0 (length acc) (csd_sum_step pairs) acc = Some (pairs_plus acc pairs).
Proof.
  intros [Hla Ha] [Hlp Hp].
  destruct (for_range_inv
    (λ j (cur : list (Z * MatrixXcd)),
       length cur = C ∧ take j cur = take j (pairs_plus acc pairs)
       ∧ drop j cur = drop j acc)
    (csd_sum_step pairs) 0 (length acc) acc) as (cur & -> & H1 & H2 & _);
    [lia|done| |].
  - intros j cur Hj (H1 & H2 & H3).
    destruct (lookup_lt_is_Some_2 acc j) as [a Haj]; [lia|].
    destruct (lookup_lt_is_Some_2 pairs j) as [p Hpj]; [lia|].
    assert (cur !! j = Some a) as Hcj.
    { rewrite <- (take_drop j cur), H3, lookup_app_r by (rewrite length_take; lia).
      rewrite length_take, lookup_drop. replace (j + (j - j `min` length cur)) with j by lia.
      done. }
    pose proof (Forall_lookup_1 _ _ _ _ Ha Haj) as (Hra & Hca & _).
    pose proof (Forall_lookup_1 _ _ _ _ Hp Hpj) as (Hrp & Hcp & _).
    unfold csd_sum_step. rewrite Hcj, Hpj. cbn [mbind option_bind].
    rewrite mat_zip_Some by congruence. cbn [mbind option_bind].
    eexists; split; [done|]. rewrite length_insert. split_and!; [done| |].
    + rewrite take_S_insert by lia. rewrite H2. symmetry. apply take_S_r.
      unfold pairs_plus. by rewrite lookup_zip_with, Haj, Hpj.
    + rewrite drop_insert_lt by lia. replace (S j) with (j + 1) by lia.
      by rewrite <- !drop_drop, H3.
  - f_equal. rewrite <- (take_ge cur (length acc)), H2 by lia.
    apply take_ge. unfold pairs_plus. rewrite length_zip_with. lia.
Qed.

Lemma merge_next (t : ConnectivityTrialData) psdSum csdSum C F :
  0 < F → psd_shape C F psdSum → psd_shape C F (matPsd t) →
  pairs_shape C F csdSum → pairs_shape C F (vecPairCsd t) →
  merge t psdSum csdSum
  = Some (mat_plus psdSum (matPsd t), pairs_plus csdSum (vecPairCsd t)).
Proof.
  intros HF (Hr & Hc & _) (Hrt & Hct & _) Hs Ht. unfold merge.
  assert ((if (rows psdSum =? 0) || (cols psdSum =? 0)
           then Some (matPsd t) else mat_zip Rplus psdSum (matPsd t))
          = Some (mat_plus psdSum (matPsd t))) as ->.
  { destruct (rows psdSum =? 0) eqn:E0.
    - apply Nat.eqb_eq in E0. simpl. f_equal. unfold mat_plus.
      destruct psdSum as [c l], (matPsd t) as [c' l']. unfold rows, cols in *.
      simpl in *. destruct l; [|simpl in *; lia]. destruct l'; [|simpl in *; lia].
      simpl. congruence.
    - replace (cols psdSum =? 0) with false by (symmetry; apply Nat.eqb_neq; lia).
      simpl. apply mat_zip_Some; congruence. }
  cbn [mbind option_bind].
  destruct csdSum as [|a l] eqn:E.
  - simpl. destruct Hs as [Hl _], Ht as [Hlt _]. simpl in Hl. subst C.
    destruct (vecPairCsd t); [done|simpl in *; lia].
  - rewrite bool_decide_eq_false_2 by done. rewrite <- E in *.
    erewrite csd_sum_loop by done. done.
Qed.

Lemma mat_plus_shape C F M N :
  psd_shape C F M → psd_shape C F N → psd_shape C F (mat_plus M N).
Proof.
  intros (HrM & HcM & HwM) (HrN & HcN & HwN). split_and!.
  - unfold rows, mat_plus in *. simpl. rewrite length_zip_with. lia.
  - done.
  - apply mat_wf_zip; [done..|congruence].
Qed.

Lemma pairs_plus_shape C F acc pairs :
  pairs_shape C F acc → pairs_shape C F pairs →
  pairs_shape C F (pairs_plus acc pairs).
Proof.
  intros [Hla Ha] [Hlp Hp]. unfold pairs_plus. split.
  - rewrite length_zip_with. lia.
  - apply Forall_lookup_2. intros i e. rewrite lookup_zip_with. intros He.
    destruct (acc !! i) as [a|] eqn:Hai; [|done]. simpl in He.
    destruct (pairs !! i) as [p|] eqn:Hpi; [|done]. simpl in He.
    injection He as <-.
    pose proof (Forall_lookup_1 _ _ _ _ Ha Hai) as (? & ? & ?).
    pose proof (Forall_lookup_1 _ _ _ _ Hp Hpi) as (? & ? & ?).
    split_and!.
    + unfold rows, cols in *. simpl. rewrite length_zip_with. lia.
    + done.
    + apply mat_wf_zip; [done..|congruence].
Qed.

Lemma psd_row_length den even (S : MatrixXcd) :
  mat_wf S → length (psd_row den even S) = cols S.
Proof.
  intros HS. unfold psd_row.
  rewrite halve_bins_length, length_fmap, colwise_sum_length by by apply mat_wf_map.
  done.
Qed.

Section Trials.
Context (fft_kernel : list R → nat → complex).

Lemma new_trial_not_computed d iNRows nfft :
  (0 ≤ nfft)%Z → already_computed (new_trial d) iNRows (nfft / 2 + 1) = false.
Proof.
  intros H. unfold already_computed, new_trial.
  assert (0 ≤ nfft / 2)%Z by (apply Z.div_pos; lia).
  apply andb_false_iff. right. apply Z.eqb_neq. simpl. lia.
Qed.

(** [compute] on a trial that holds data only. *)
Lemma compute_new_trial d C L nfft tapers :
  data_shape C L d → tapers_wf tapers L → (Z.of_nat L ≤ nfft)%Z →
  ∃ r,
    compute_trial fft_kernel (new_trial d) (Z.of_nat C) (nfft / 2 + 1) nfft tapers
    = Some r
    ∧ matData r = d
    ∧ psd_shape C (spec_bins nfft) (matPsd r)
    ∧ pairs_shape C (spec_bins nfft) (vecPairCsd r)
    ∧ (∀ i e, vecPairCsd r !! i = Some e → e.1 = Z.of_nat i)
    ∧ ∀ psdSum csdSum,
        compute fft_kernel (new_trial d) psdSum csdSum (Z.of_nat C)
          (nfft / 2 + 1) nfft tapers
        = ('(p, c) ← merge r psdSum csdSum; Some (r, p, c)).
Proof.
  intros (Hwf & HC & HL) Htap Hn. subst C L.
  destruct (compute_trial_Some fft_kernel (new_trial d) (Z.of_nat (rows d))
              (nfft / 2 + 1) nfft tapers) as (new & Hrun & Hlen & Hnew);
    [done..|].
  simpl in Hrun, Hlen, Hnew.
  assert (length (trial_spectra fft_kernel d tapers nfft) = rows d) as HTS.
  { unfold trial_spectra. by rewrite length_fmap. }
  eexists. split; [exact Hrun|]. simpl. split_and!.
  - done.
  - split_and!; [unfold rows; simpl; by rewrite length_fmap|done|].
    unfold mat_wf, cols. simpl. apply Forall_fmap.
    eapply Forall_impl; [by apply trial_spectra_wf|].
    intros S (HS & HcS & _). simpl. by rewrite psd_row_length.
  - split; [done|]. apply Forall_lookup_2. intros i e He.
    destruct (Hnew i e He) as (_ & ? & ? & ? & _). split_and!; [congruence|done..].
  - intros i e He. by destruct (Hnew i e He) as (? & _).
  - intros psdSum csdSum. unfold compute.
    rewrite new_trial_not_computed by lia. by rewrite Hrun.
Qed.

Lemma compute_all_sum datas C L nfft tapers psdSum csdSum :
  Forall (data_shape C L) datas → tapers_wf tapers L → (Z.of_nat L ≤ nfft)%Z →
  psd_shape C (spec_bins nfft) psdSum → pairs_shape C (spec_bins nfft) csdSum →
  ∃ results,
    Forall2 (λ d r,
      compute_trial fft_kernel (new_trial d) (Z.of_nat C) (nfft / 2 + 1) nfft
        tapers = Some r
      ∧ psd_shape C (spec_bins nfft) (matPsd r)
      ∧ pairs_shape C (spec_bins nfft) (vecPairCsd r)) datas results
    ∧ compute_all fft_kernel (new_trial <$> datas) psdSum csdSum (Z.of_nat C)
        (nfft / 2 + 1) nfft tapers
      = Some (results, foldl mat_plus psdSum (matPsd <$> results),
              foldl pairs_plus csdSum (vecPairCsd <$> results)).
Proof.
  intros Hd Htap Hn. revert psdSum csdSum.
  induction Hd as [|d datas Hd _ IH]; intros psdSum csdSum Hp Hc.
  - exists []. split; [constructor|done].
  - destruct (compute_new_trial d C L nfft tapers) as (r & Hr & _ & Hpr & Hcr & _ & Hcomp);
      [done..|].
    destruct (IH (mat_plus psdSum (matPsd r)) (pairs_plus csdSum (vecPairCsd r)))
      as (rs & Hrs & Hall).
    { by apply mat_plus_shape. }
    { by apply pairs_plus_shape. }
    exists (r :: rs). split; [by constructor|].
    rewrite fmap_cons. cbn [compute_all]. rewrite Hcomp.
    rewrite (merge_next _ _ _ C (spec_bins nfft)); [|unfold spec_bins; lia|done..].
    cbn [mbind option_bind]. rewrite Hall. done.
Qed.

Lemma compute_all_new d datas C L nfft tapers :
  Forall (data_shape C L) (d :: datas) → tapers_wf tapers L →
  (Z.of_nat L ≤ nfft)%Z →
  ∃ r rs,
    Forall2 (λ d r,
      compute_trial fft_kernel (new_trial d) (Z.of_nat C) (nfft / 2 + 1) nfft
        tapers = Some r
      ∧ psd_shape C (spec_bins nfft) (matPsd r)
      ∧ pairs_shape C (spec_bins nfft) (vecPairCsd r)) (d :: datas) (r :: rs)
    ∧ compute_all fft_kernel (new_trial <$> d :: datas) mat_empty []
        (Z.of_nat C) (nfft / 2 + 1) nfft tapers
      = Some (r :: rs, foldl mat_plus (matPsd r) (matPsd <$> rs),
              foldl pairs_plus (vecPairCsd r) (vecPairCsd <$> rs)).
Proof.
  intros Hd Htap Hn. apply Forall_cons in Hd as [Hd Hds].
  destruct (compute_new_trial d C L nfft tapers) as (r & Hr & _ & Hpr & Hcr & _ & Hcomp);
    [done..|].
  destruct (compute_all_sum datas C L nfft tapers (matPsd r) (vecPairCsd r))
    as (rs & Hrs & Hall); [done..|].
  exists r, rs. split; [by constructor|].
  rewrite fmap_cons. cbn [compute_all]. rewrite Hcomp, merge_first.
  cbn [mbind option_bind]. rewrite Hall. done.
Qed.

End Trials.
(** ** Normalisation and the construction of the edges *)

Lemma psd_product_Some (i : Z) (psd : MatrixXd) ri :
  (0 ≤ i)%Z → row psd (Z.to_nat i) = Some ri → mat_wf psd →
  psd_product i psd
  = Some (mkMatrix (m_cols psd) (zip_with Rmult ri <$> m_coeffs psd)).
Proof.
  intros Hi Hri Hwf. unfold psd_product.
  replace (i <? 0)%Z with false by (symmetry; apply Z.ltb_ge; lia).
  rewrite Hri. cbn [mbind option_bind].
  assert (length ri = cols psd) as Hlri by by eapply mat_wf_row.
  set (T := zip_with Rmult ri <$> m_coeffs psd).
  assert (length T = rows psd) as HT by (unfold T; by rewrite length_fmap).
  assert (rows (mat_alloc (rows psd) (cols psd) 0%R) = rows psd) as ->.
  { unfold rows at 1. simpl. by rewrite length_replicate. }
  destruct (for_range_inv
    (λ j (tmp : MatrixXd), m_cols tmp = m_cols psd
       ∧ length (m_coeffs tmp) = rows psd ∧ take j (m_coeffs tmp) = take j T)
    (λ j tmp, r ← row psd j; p ← vec_zip Rmult ri r; set_row tmp j p)
    0 (rows psd) (mat_alloc (rows psd) (cols psd) 0%R))
    as (tmp & -> & H1 & H2 & H3); [lia| | |].
  - simpl. by rewrite length_replicate.
  - intros j tmp Hj (H1 & H2 & H3).
    destruct (lookup_lt_is_Some_2 (m_coeffs psd) j) as [r Hr]; [unfold rows in Hj; lia|].
    assert (length r = cols psd) as Hlr by by eapply mat_wf_row.
    unfold row at 1. rewrite Hr. cbn [mbind option_bind].
    unfold vec_zip. rewrite Hlri, Hlr, Nat.eqb_refl. cbn [mbind option_bind].
    rewrite set_row_Some;
      [|unfold rows; lia|rewrite length_zip_with; unfold cols in *; lia].
    eexists; split; [done|]. simpl. rewrite length_insert.
    split_and!; [done..|].
    rewrite take_S_insert by lia. rewrite H3. symmetry. apply take_S_r.
    unfold T. by rewrite list_lookup_fmap, Hr.
  - f_equal. destruct tmp as [c l]. simpl in *. subst c. f_equal.
    rewrite <- (take_ge l (rows psd)), <- (take_ge T (rows psd)) by lia. done.
Qed.

Lemma coherency_matrix_Some (pairInput : Z * MatrixXcd) (psd : MatrixXd) :
  (0 ≤ pairInput.1)%Z → Z.to_nat pairInput.1 < rows psd → mat_wf psd →
  rows pairInput.2 = rows psd → cols pairInput.2 = cols psd →
  (matPSDtmp ← psd_product pairInput.1 psd;
   mat_zip Cplx.divr pairInput.2 matPSDtmp)
  = Some (coherency_matrix pairInput psd).
Proof.
  intros Hi Hlt Hwf Hr Hc.
  destruct (lookup_lt_is_Some_2 (m_coeffs psd) (Z.to_nat pairInput.1)) as [ri Hri];
    [done|].
  rewrite (psd_product_Some _ _ ri) by done. cbn [mbind option_bind].
  rewrite mat_zip_Some.
  - unfold coherency_matrix, row. by rewrite Hri.
  - unfold rows in *. simpl. rewrite length_fmap. done.
  - done.
Qed.

Lemma computePSDCSD_Some (pairInput : Z * MatrixXcd) (psd : MatrixXd) :
  (0 ≤ pairInput.1)%Z → Z.to_nat pairInput.1 < rows psd → mat_wf psd →
  rows pairInput.2 = rows psd → cols pairInput.2 = cols psd →
  computePSDCSD pairInput psd
  = Some (pairInput.1, coherency_matrix pairInput psd).
Proof.
  intros Hi Hlt Hwf Hr Hc. unfold computePSDCSD.
  pose proof (coherency_matrix_Some pairInput psd Hi Hlt Hwf Hr Hc) as H'.
  destruct (psd_product pairInput.1 psd) as [tmp|]; [|done].
  cbn [mbind option_bind] in *. by rewrite H'.
Qed.

Lemma node_append_Some (net : Network) (i : Z) (p : nat) :
  (0 ≤ i)%Z → Z.to_nat i < length (net_nodes net) →
  node_append net i p
  = Some (mkNetwork (net_store net)
            (alter (λ adj, adj ++ [p]) (Z.to_nat i) (net_nodes net))
            (net_edges net)).
Proof.
  intros Hi Hlt. unfold node_append.
  replace (i <? 0)%Z with false by (symmetry; apply Z.ltb_ge; lia).
  destruct (lookup_lt_is_Some_2 (net_nodes net) (Z.to_nat i)) as [adj Hadj]; [done|].
  rewrite Hadj. cbn [mbind option_bind].
  by rewrite (insert_as_alter (λ adj, adj ++ [p]) _ _ adj Hadj).
Qed.

Lemma attach_nodes_length (net : Network) (e : NetworkEdge) :
  length (net_nodes (attach net e)) = length (net_nodes net).
Proof. unfold attach. simpl. by rewrite !length_alter. Qed.

Lemma foldl_attach_nodes_length (es : list NetworkEdge) (net : Network) :
  length (net_nodes (foldl attach net es)) = length (net_nodes net).
Proof.
  revert net. induction es as [|e es IH]; intros net; [done|].
  simpl. by rewrite IH, attach_nodes_length.
Qed.

Lemma edge_step_Some (weight : complex → R) (i : Z) (matCohy : MatrixXcd)
    (j : nat) (net : Network) r :
  row matCohy j = Some r → (0 ≤ i)%Z →
  Z.to_nat i < length (net_nodes net) → j < length (net_nodes net) →
  edge_step weight i matCohy j net
  = Some (attach net (mkEdge i (Z.of_nat j) (transpose_row (weight <$> r)))).
Proof.
  intros Hr Hi Hlt Hj. unfold edge_step, new_NetworkEdge. rewrite Hr.
  cbn [mbind option_bind].
  rewrite node_append_Some by done. cbn [mbind option_bind].
  rewrite node_append_Some; [|lia|simpl; rewrite length_alter, Nat2Z.id; lia].
  cbn [mbind option_bind]. done.
Qed.

Lemma edge_loop (weight : complex → R) (i : Z) (matCohy : MatrixXcd)
    (net : Network) :
  (0 ≤ i)%Z → rows matCohy ≤ length (net_nodes net) →
  for_range (Z.to_nat i) (rows matCohy) (edge_step weight i matCohy) net
  = Some (foldl attach net (pair_edges weight i matCohy)).
Proof.
  intros Hi Hn.
  destruct (decide (rows matCohy ≤ Z.to_nat i)) as [Hge|Hlt].
  { rewrite for_range_empty by done. unfold pair_edges.
    by replace (rows matCohy - Z.to_nat i) with 0 by lia. }
  set (E := pair_edges weight i matCohy).
  destruct (for_range_inv
    (λ j (net' : Network), net' = foldl attach net (take (j - Z.to_nat i) E))
    (edge_step weight i matCohy) (Z.to_nat i) (rows matCohy) net)
    as (net' & -> & H1); [lia| | |].
  - by rewrite Nat.sub_diag.
  - intros j net1 Hj ->.
    destruct (lookup_lt_is_Some_2 (m_coeffs matCohy) j) as [r Hr]; [unfold rows in Hj; lia|].
    rewrite (edge_step_Some _ _ _ _ _ r); [|done|done|..];
      [|rewrite foldl_attach_nodes_length; lia..].
    eexists; split; [done|].
    replace (S j - Z.to_nat i) with (S (j - Z.to_nat i)) by lia.
    rewrite (take_S_r _ _ (mkEdge i (Z.of_nat j) (transpose_row (weight <$> r)))).
    + by rewrite foldl_snoc.
    + unfold E, pair_edges. rewrite lookup_zip_with, lookup_seq_lt by lia.
      cbn [mbind option_bind]. rewrite lookup_drop.
      replace (Z.to_nat i + (j - Z.to_nat i)) with j by lia.
      rewrite Hr. cbn [mbind option_bind].
      by replace (Z.to_nat i + (j - Z.to_nat i)) with j by lia.
  - f_equal. subst net'. f_equal. apply take_ge. unfold E, pair_edges.
    rewrite length_zip_with, length_seq. lia.
Qed.

Lemma build_edges_Some (weight : complex → R) (net : Network)
    (pairInput : Z * MatrixXcd) (psd : MatrixXd) :
  (0 ≤ pairInput.1)%Z → Z.to_nat pairInput.1 < rows psd → mat_wf psd →
  rows pairInput.2 = rows psd → cols pairInput.2 = cols psd →
  rows psd ≤ length (net_nodes net) →
  build_edges weight net pairInput psd
  = Some (foldl attach net
            (pair_edges weight pairInput.1 (coherency_matrix pairInput psd))).
Proof.
  intros Hi Hlt Hwf Hr Hc Hn. unfold build_edges.
  pose proof (coherency_matrix_Some pairInput psd Hi Hlt Hwf Hr Hc) as H'.
  destruct (psd_product pairInput.1 psd) as [tmp|]; [|done].
  cbn [mbind option_bind] in *. rewrite H'. cbn [mbind option_bind].
  apply edge_loop; [done|].
  unfold coherency_matrix, rows in *. simpl.
  rewrite length_zip_with, length_fmap. lia.
Qed.

Lemma build_all_edges (weight : complex → R) (pairs : list (Z * MatrixXcd))
    (psd : MatrixXd) (net : Network) C F :
  psd_shape C F psd →
  Forall (λ e, (0 ≤ e.1)%Z ∧ Z.to_nat e.1 < C ∧ rows e.2 = C ∧ cols e.2 = F) pairs →
  C ≤ length (net_nodes net) →
  foldlM (λ pairInput net', build_edges weight net' pairInput psd) pairs net
  = Some (foldl attach net (run_edges weight pairs psd)).
Proof.
  intros (Hr & Hc & Hwf) Hp. revert net.
  induction Hp as [|e pairs (Hi & Hlt & Hre & Hce) _ IH]; intros net Hn; [done|].
  cbn [foldlM]. rewrite build_edges_Some by (try done; lia).
  cbn [mbind option_bind]. rewrite IH by (rewrite foldl_attach_nodes_length; lia).
  unfold run_edges. rewrite bind_cons, foldl_app. done.
Qed.

Lemma foldl_attach_store (es : list NetworkEdge) (net : Network) :
  net_store (foldl attach net es) = net_store net ++ es.
Proof.
  revert net. induction es as [|e es IH]; intros net; simpl.
  - by rewrite app_nil_r.
  - rewrite IH. simpl. by rewrite <- app_assoc.
Qed.

Lemma foldl_attach_edges (es : list NetworkEdge) (net : Network) :
  net_edges (foldl attach net es)
  = net_edges net ++ seq (length (net_store net)) (length es).
Proof.
  revert net. induction es as [|e es IH]; intros net; simpl.
  - by rewrite app_nil_r.
  - rewrite IH. simpl. rewrite length_app, <- app_assoc. simpl.
    by replace (length (net_store net) + 1) with (S (length (net_store net))) by lia.
Qed.

Lemma foldl_attach_nodes (es : list NetworkEdge) (net : Network) (v : nat) :
  net_nodes (foldl attach net es) !! v
  = (λ adj, adj ++ adj_of v (length (net_store net)) es) <$> net_nodes net !! v.
Proof.
  revert net. induction es as [|e es IH]; intros net; simpl.
  - destruct (net_nodes net !! v); simpl; [|done]. by rewrite app_nil_r.
  - rewrite IH. simpl. rewrite length_app. simpl.
    replace (length (net_store net) + 1) with (S (length (net_store net))) by lia.
    rewrite !list_lookup_alter.
    destruct (decide (Z.to_nat (iStartNode e) = v)) as [Hs|Hs];
      destruct (decide (Z.to_nat (iEndNode e) = v)) as [He|He];
      rewrite ?Hs, ?He; repeat case_decide; try congruence;
      destruct (net_nodes net !! v) as [adj|]; simpl; try done;
      by rewrite <- ?app_assoc.
Qed.

Lemma omap_lookup_seq {A : Type} (l k : list A) :
  omap (λ p, (k ++ l) !! p) (seq (length k) (length l)) = l.
Proof.
  revert k. induction l as [|x l IH]; intros k; [done|].
  simpl. rewrite lookup_app_r, Nat.sub_diag by lia. simpl. f_equal.
  specialize (IH (k ++ [x])). rewrite length_app, <- app_assoc in IH. simpl in IH.
  by replace (length k + 1) with (S (length k)) in IH by lia.
Qed.

Lemma network_edges_new (n : nat) (es : list NetworkEdge) :
  network_edges (foldl attach (new_network n) es) = es.
Proof.
  unfold network_edges. rewrite foldl_attach_store, foldl_attach_edges. simpl.
  apply (omap_lookup_seq es []).
Qed.

Lemma occurrences_app (p : nat) (l k : list nat) :
  occurrences p (l ++ k) = occurrences p l + occurrences p k.
Proof. unfold occurrences. by rewrite filter_app, length_app. Qed.

Lemma occurrences_adj_of_lt (v base p : nat) (es : list NetworkEdge) :
  p < base → occurrences p (adj_of v base es) = 0.
Proof.
  revert base. induction es as [|e es IH]; intros base Hp; [done|].
  simpl. rewrite !occurrences_app, IH by lia.
  unfold occurrences.
  repeat case_decide; rewrite ?filter_cons, ?filter_nil; repeat case_decide;
    simpl; lia.
Qed.

Lemma occurrences_adj_of (v base k : nat) (es : list NetworkEdge) e :
  es !! k = Some e →
  occurrences (base + k) (adj_of v base es)
  = (if decide (Z.to_nat (iStartNode e) = v) then 1 else 0)
    + (if decide (Z.to_nat (iEndNode e) = v) then 1 else 0).
Proof.
  revert base k. induction es as [|e' es IH]; intros base k He; [done|].
  destruct k as [|k]; simpl in He.
  - injection He as ->. simpl. rewrite !occurrences_app.
    rewrite Nat.add_0_r, occurrences_adj_of_lt by lia.
    unfold occurrences.
    repeat case_decide; rewrite ?filter_cons, ?filter_nil; repeat case_decide;
      simpl; lia.
  - simpl. rewrite !occurrences_app.
    replace (base + S k) with (S base + k) by lia.
    rewrite (IH (S base) k He).
    unfold occurrences.
    repeat case_decide; rewrite ?filter_cons, ?filter_nil; repeat case_decide;
      simpl; lia.
Qed.

Lemma fmap_bind_list {A B C : Type} (f : B → C) (g : A → list B) (l : list A) :
  f <$> (l ≫= g) = l ≫= (λ x, f <$> g x).
Proof.
  induction l as [|x l IH]; [done|].
  rewrite !bind_cons, fmap_app, IH. done.
Qed.

Lemma bind_as_seq {A B : Type} (f : A → list B) (g : nat → list B)
    (l : list A) (a : nat) :
  (∀ i x, l !! i = Some x → f x = g (a + i)) →
  l ≫= f = seq a (length l) ≫= g.
Proof.
  revert a. induction l as [|x l IH]; intros a H; [done|].
  simpl length. simpl seq. rewrite !bind_cons. f_equal.
  - rewrite (H 0 x eq_refl). by rewrite Nat.add_0_r.
  - apply IH. intros i y Hy. rewrite (H (S i) y Hy). f_equal. lia.
Qed.

Lemma coherency_matrix_rows (pairInput : Z * MatrixXcd) (psd : MatrixXd) :
  rows (coherency_matrix pairInput psd) = rows pairInput.2 `min` rows psd.
Proof.
  unfold coherency_matrix, rows. simpl. by rewrite length_zip_with, length_fmap.
Qed.

Lemma coherency_matrix_wf (pairInput : Z * MatrixXcd) (psd : MatrixXd) C F :
  psd_shape C F psd → Z.to_nat pairInput.1 < C →
  cols pairInput.2 = F → mat_wf pairInput.2 →
  Forall (λ r, length r = F) (m_coeffs (coherency_matrix pairInput psd)).
Proof.
  intros (Hr & Hc & Hwf) Hi HcM HwM.
  destruct (lookup_lt_is_Some_2 (m_coeffs psd) (Z.to_nat pairInput.1)) as [ri Hri];
    [unfold rows in Hr; lia|].
  unfold coherency_matrix, row. rewrite Hri. simpl.
  apply Forall_lookup_2. intros k r. rewrite lookup_zip_with, list_lookup_fmap.
  intros Hk.
  destruct (m_coeffs pairInput.2 !! k) as [m|] eqn:Hm; [|done]. simpl in Hk.
  destruct (m_coeffs psd !! k) as [q|] eqn:Hq; [|done]. simpl in Hk.
  injection Hk as <-. rewrite !length_zip_with.
  rewrite (mat_wf_row _ _ _ HwM Hm), (mat_wf_row _ _ _ Hwf Hri),
    (mat_wf_row _ _ _ Hwf Hq). lia.
Qed.

Lemma pair_edges_endpoints (weight : complex → R) (i : nat) (M : MatrixXcd) :
  endpoints <$> pair_edges weight (Z.of_nat i) M
  = (λ j, (Z.of_nat i, Z.of_nat j)) <$> seq i (rows M - i).
Proof.
  unfold pair_edges. rewrite Nat2Z.id. apply list_eq. intros k.
  rewrite !list_lookup_fmap, lookup_zip_with.
  destruct (decide (k < rows M - i)) as [Hk|Hk].
  - rewrite lookup_seq_lt by done. simpl.
    destruct (lookup_lt_is_Some_2 (drop i (m_coeffs M)) k) as [r ->]; [|done].
    rewrite length_drop. unfold rows in Hk. lia.
  - by rewrite lookup_seq_ge by lia.
Qed.

Lemma pair_edges_weights (weight : complex → R) (i : Z) (M : MatrixXcd) F :
  Forall (λ r, length r = F) (m_coeffs M) →
  Forall (λ e, rows (matWeight e) = F ∧ cols (matWeight e) = 1)
    (pair_edges weight i M).
Proof.
  intros HM. unfold pair_edges. apply Forall_lookup_2. intros k e.
  rewrite lookup_zip_with. intros He.
  destruct (seq _ _ !! k) as [j|]; [|done]. simpl in He.
  destruct (drop _ _ !! k) as [r|] eqn:Hr; [|done]. simpl in He.
  injection He as <-. simpl. split; [|done].
  unfold rows, transpose_row. simpl. rewrite !length_fmap.
  rewrite lookup_drop in Hr. by apply (Forall_lookup_1 _ _ _ _ HM Hr).
Qed.

Lemma run_edges_endpoints (weight : complex → R) (pairs : list (Z * MatrixXcd))
    (psd : MatrixXd) C F :
  pairs_shape C F pairs → pairs_indexed pairs → psd_shape C F psd →
  endpoints <$> run_edges weight pairs psd = upper_pairs C.
Proof.
  intros [Hl Hs] Hi (Hr & Hc & Hwf). unfold run_edges, upper_pairs.
  rewrite fmap_bind_list. rewrite <- Hl at 1. apply bind_as_seq.
  intros i e He. simpl.
  pose proof (Forall_lookup_1 _ _ _ _ Hs He) as (Hre & _).
  rewrite (Hi i e He), pair_edges_endpoints, coherency_matrix_rows. do 2 f_equal. lia.
Qed.

Lemma run_edges_weights (weight : complex → R) (pairs : list (Z * MatrixXcd))
    (psd : MatrixXd) C F :
  pairs_shape C F pairs → pairs_indexed pairs → psd_shape C F psd →
  Forall (λ e, rows (matWeight e) = F ∧ cols (matWeight e) = 1)
    (run_edges weight pairs psd).
Proof.
  intros [Hl Hs] Hi Hp. unfold run_edges. apply Forall_bind.
  apply Forall_lookup_2. intros i e He. simpl.
  pose proof (Forall_lookup_1 _ _ _ _ Hs He) as (Hre & Hce & Hwe).
  apply pair_edges_weights. eapply coherency_matrix_wf; [done| |done..].
  rewrite (Hi i e He), Nat2Z.id. apply lookup_lt_Some in He. lia.
Qed.

Lemma upper_pairs_from_length (C a n : nat) :
  a + n = C →
  2 * length (seq a n ≫= λ i, (λ j, (Z.of_nat i, Z.of_nat j)) <$> seq i (C - i))
  = n * (n + 1).
Proof.
  revert a. induction n as [|n IH]; intros a Ha; [done|].
  simpl seq. rewrite bind_cons, length_app, length_fmap, length_seq.
  specialize (IH (S a) ltac:(lia)). nia.
Qed.

Lemma upper_pairs_length (C : nat) : 2 * length (upper_pairs C) = C * (C + 1).
Proof. by apply upper_pairs_from_length. Qed.

Lemma upper_pairs_elem (C : nat) (x y : Z) :
  (x, y) ∈ upper_pairs C ↔ (0 ≤ x ≤ y)%Z ∧ (y < Z.of_nat C)%Z.
Proof.
  unfold upper_pairs. rewrite list_elem_of_bind. split.
  - intros (i & Hin & Hi). apply list_elem_of_fmap in Hin as (j & [= -> ->] & Hj).
    apply elem_of_seq in Hi, Hj. lia.
  - intros [Hxy Hy]. exists (Z.to_nat x). split.
    + apply list_elem_of_fmap. exists (Z.to_nat y). split; [f_equal; lia|].
      apply elem_of_seq. lia.
    + apply elem_of_seq. lia.
Qed.

Lemma upper_pairs_NoDup (C : nat) : NoDup (upper_pairs C).
Proof.
  unfold upper_pairs. apply NoDup_bind.
  - intros i1 i2 [x y] _ _ H1 H2.
    apply list_elem_of_fmap in H1 as (j1 & [= -> ->] & _).
    apply list_elem_of_fmap in H2 as (j2 & [= Hi _] & _). lia.
  - intros i _. apply NoDup_fmap_2_strong; [|apply NoDup_seq].
    intros j1 j2 _ _ [= H]. lia.
  - apply NoDup_seq.
Qed.
(** ** Runs on new settings *)

Lemma effective_nfft_ge (configured : Z) (first : ConnectivityTrialData) :
  (Z.of_nat (cols (matData first)) ≤ effective_nfft configured first)%Z.
Proof.
  unfold effective_nfft.
  destruct (configured <? Z.of_nat (cols (matData first)))%Z eqn:E; [lia|].
  apply Z.ltb_ge in E. lia.
Qed.

Lemma foldl_mat_plus_shape C F (P : MatrixXd) (Ps : list MatrixXd) :
  psd_shape C F P → Forall (psd_shape C F) Ps →
  psd_shape C F (foldl mat_plus P Ps).
Proof.
  intros HP HPs. revert P HP.
  induction HPs as [|Q Ps HQ _ IH]; intros P HP; [done|].
  simpl. apply IH. by apply mat_plus_shape.
Qed.

Lemma foldl_pairs_plus_shape C F (cs : list (Z * MatrixXcd))
    (css : list (list (Z * MatrixXcd))) :
  pairs_shape C F cs → Forall (pairs_shape C F) css →
  pairs_shape C F (foldl pairs_plus cs css).
Proof.
  intros Hc Hcs. revert cs Hc.
  induction Hcs as [|c css Hc' _ IH]; intros cs Hc; [done|].
  simpl. apply IH. by apply pairs_plus_shape.
Qed.

Lemma pairs_plus_indexed (acc pairs : list (Z * MatrixXcd)) :
  pairs_indexed acc → pairs_indexed (pairs_plus acc pairs).
Proof.
  intros Ha i e. unfold pairs_plus. rewrite lookup_zip_with. intros He.
  destruct (acc !! i) as [a|] eqn:Hai; [|done]. simpl in He.
  destruct (pairs !! i) as [p|]; [|done]. simpl in He.
  injection He as <-. simpl. by apply Ha.
Qed.

Lemma foldl_pairs_plus_indexed (cs : list (Z * MatrixXcd))
    (css : list (list (Z * MatrixXcd))) :
  pairs_indexed cs → pairs_indexed (foldl pairs_plus cs css).
Proof.
  revert cs. induction css as [|c css IH]; intros cs Hc; [done|].
  simpl. apply IH. by apply pairs_plus_indexed.
Qed.

Lemma mat_map_shape C F (f : R → R) (P : MatrixXd) :
  psd_shape C F P → psd_shape C F (mat_map f P).
Proof.
  intros (Hr & Hc & Hwf). split_and!.
  - unfold rows, mat_map in *. simpl. by rewrite length_fmap.
  - done.
  - by apply mat_wf_map.
Qed.

(** The entries of well-shaped, indexed CSD sums are fit for
    [build_edges] and [computePSDCSD]. *)
Lemma pairs_fit C F (pairs : list (Z * MatrixXcd)) :
  pairs_shape C F pairs → pairs_indexed pairs →
  Forall (λ e, (0 ≤ e.1)%Z ∧ Z.to_nat e.1 < C ∧ rows e.2 = C ∧ cols e.2 = F)
    pairs.
Proof.
  intros [Hl Hs] Hi. apply Forall_lookup_2. intros i e He.
  pose proof (Forall_lookup_1 _ _ _ _ Hs He) as (? & ? & _).
  pose proof (Hi i e He) as Hz. apply lookup_lt_Some in He.
  split_and!; [lia|lia|done..].
Qed.

Section Runs.
Context (fft_kernel : list R → nat → complex).
Context (generateTapers : Z → string → MatrixXd * list R).

Lemma result_of_shape C L nfft tapers d r :
  data_shape C L d → tapers_wf tapers L → (Z.of_nat L ≤ nfft)%Z →
  result_of fft_kernel C nfft tapers d r →
  matData r = d ∧ psd_shape C (spec_bins nfft) (matPsd r)
  ∧ pairs_shape C (spec_bins nfft) (vecPairCsd r)
  ∧ pairs_indexed (vecPairCsd r).
Proof.
  intros Hd Htap Hn Hr.
  destruct (compute_new_trial fft_kernel d C L nfft tapers)
    as (r' & Hr' & ? & ? & ? & ? & _); [done..|].
  unfold result_of in Hr. rewrite Hr' in Hr. injection Hr as <-. done.
Qed.

Lemma spectra_new d ds C L nfft0 win :
  Forall (data_shape C L) (d :: ds) →
  tapers_wf (generateTapers (Z.of_nat L) win) L →
  let nfft := effective_nfft nfft0 (new_trial d) in
  let tapers := generateTapers (Z.of_nat L) win in
  ∃ r rs,
    Forall2 (result_of fft_kernel C nfft tapers) (d :: ds) (r :: rs)
    ∧ spectra fft_kernel generateTapers
        (new_settings (new_trial <$> d :: ds) nfft0 win) (new_trial d)
      = Some (mkSettings (r :: rs) nfft0 win
                (mkSums (mat_map sqrt (foldl mat_plus (matPsd r) (matPsd <$> rs)))
                   (foldl pairs_plus (vecPairCsd r) (vecPairCsd <$> rs)))).
Proof.
  intros Hd Htap nfft tapers.
  pose proof (Forall_inv Hd) as (_ & HC & HL).
  assert (Z.of_nat L ≤ nfft)%Z as Hn.
  { unfold nfft. pose proof (effective_nfft_ge nfft0 (new_trial d)) as H.
    simpl in H. by rewrite HL in H. }
  destruct (compute_all_new fft_kernel d ds C L nfft tapers) as (r & rs & HF & Hall);
    [done..|].
  exists r, rs. split.
  - eapply Forall2_impl; [exact HF|]. by intros ? ? (? & _).
  - unfold spectra, new_settings. cbn [m_dataList m_iNfft m_sWindowType data
      matPsdSum vecPairCsdSum new_trial matData].
    rewrite HC, HL. fold nfft. fold tapers. rewrite Hall. done.
Qed.

(** Shapes of the sums of a run. *)
Lemma sums_shape C L nfft tapers (datas results : list _) r rs :
  results = r :: rs →
  Forall (data_shape C L) datas → tapers_wf tapers L → (Z.of_nat L ≤ nfft)%Z →
  Forall2 (result_of fft_kernel C nfft tapers) datas results →
  psd_shape C (spec_bins nfft)
    (mat_map sqrt (foldl mat_plus (matPsd r) (matPsd <$> rs)))
  ∧ pairs_shape C (spec_bins nfft)
      (foldl pairs_plus (vecPairCsd r) (vecPairCsd <$> rs))
  ∧ pairs_indexed (foldl pairs_plus (vecPairCsd r) (vecPairCsd <$> rs)).
Proof.
  intros -> Hd Htap Hn HF.
  assert (Forall (λ r, psd_shape C (spec_bins nfft) (matPsd r)
                     ∧ pairs_shape C (spec_bins nfft) (vecPairCsd r)
                     ∧ pairs_indexed (vecPairCsd r)) (r :: rs)) as Hall.
  { apply Forall_lookup_2. intros i x Hx.
    destruct (Forall2_lookup_r _ _ _ _ _ HF Hx) as (dx & Hdx & Hres).
    pose proof (Forall_lookup_1 _ _ _ _ Hd Hdx) as Hsh.
    by destruct (result_of_shape C L nfft tapers dx x) as (_ & ? & ? & ?). }
  apply Forall_cons in Hall as [(Hp & Hc & Hi) Hrs].
  split_and!.
  - apply mat_map_shape, foldl_mat_plus_shape; [done|].
    apply Forall_fmap. eapply Forall_impl; [exact Hrs|]. by intros ? (? & _).
  - apply foldl_pairs_plus_shape; [done|].
    apply Forall_fmap. eapply Forall_impl; [exact Hrs|]. by intros ? (_ & ? & _).
  - by apply foldl_pairs_plus_indexed.
Qed.

End Runs.

Lemma mapM_computePSDCSD (pairs : list (Z * MatrixXcd)) (psd : MatrixXd) C F :
  psd_shape C F psd →
  Forall (λ e, (0 ≤ e.1)%Z ∧ Z.to_nat e.1 < C ∧ rows e.2 = C ∧ cols e.2 = F) pairs →
  mapM (λ pairInput, computePSDCSD pairInput psd) pairs
  = Some (normalised pairs psd).
Proof.
  intros (Hr & Hc & Hwf) Hp. apply mapM_Some. unfold normalised.
  apply Forall2_fmap_r, Forall_Forall2_diag.
  eapply Forall_impl; [exact Hp|]. intros e (? & ? & ? & ?).
  apply computePSDCSD_Some; (done || lia).
Qed.

Section RunResults.
Context (fft_kernel : list R → nat → complex).
Context (generateTapers : Z → string → MatrixXd * list R).

Lemma run_new datas nfft0 win C L :
  valid_run generateTapers datas win C L →
  let nfft := run_nfft nfft0 L in
  let tapers := generateTapers (Z.of_nat L) win in
  let s := new_settings (new_trial <$> datas) nfft0 win in
  ∃ r rs,
    Forall2 (result_of fft_kernel C nfft tapers) datas (r :: rs)
    ∧ psd_shape C (spec_bins nfft) (mat_map sqrt (psd_total r rs))
    ∧ pairs_shape C (spec_bins nfft) (csd_total r rs)
    ∧ pairs_indexed (csd_total r rs)
    ∧ (∀ net,
         calculateReal fft_kernel generateTapers net s
         = (net' ← foldlM (λ pairInput net',
                             computePSDCSDReal net' pairInput
                               (mat_map sqrt (psd_total r rs)))
                      (csd_total r rs) net;
            Some (net', settings_after r rs nfft0 win)))
    ∧ (∀ net,
         calculateImag fft_kernel generateTapers net s
         = (net' ← foldlM (λ pairInput net',
                             computePSDCSDImag net' pairInput
                               (mat_map sqrt (psd_total r rs)))
                      (csd_total r rs) net;
            Some (net', settings_after r rs nfft0 win)))
    ∧ (∀ vecCoherency,
         calculate fft_kernel generateTapers vecCoherency s
         = (csd ← mapM (λ pairInput,
                          computePSDCSD pairInput
                            (mat_map sqrt (psd_total r rs)))
                     (csd_total r rs);
            Some (csd, mkSettings (r :: rs) nfft0 win
                         (mkSums (mat_map sqrt (psd_total r rs)) csd)))).
Proof.
  intros (Hne & Hd & Htap) nfft tapers s.
  destruct datas as [|d ds]; [done|].
  pose proof (Forall_inv Hd) as (_ & HC & HL).
  assert (nfft = effective_nfft nfft0 (new_trial d)) as Hnfft.
  { unfold nfft, run_nfft, effective_nfft. simpl. by rewrite HL. }
  assert (Z.of_nat L ≤ nfft)%Z as Hn.
  { rewrite Hnfft. pose proof (effective_nfft_ge nfft0 (new_trial d)) as H.
    simpl in H. by rewrite HL in H. }
  destruct (spectra_new fft_kernel generateTapers d ds C L nfft0 win Hd Htap)
    as (r & rs & HF & Hs).
  rewrite <- Hnfft in HF. fold tapers in HF.
  destruct (sums_shape fft_kernel C L nfft tapers (d :: ds) (r :: rs) r rs)
    as (Hp & Hc & Hi); [done..|].
  exists r, rs. split_and!; [done..| | |].
  - intros net. unfold calculateReal, s. simpl m_dataList.
    rewrite fmap_cons. cbn [m_dataList new_settings].
    change (new_trial d :: (new_trial <$> ds)) with (new_trial <$> d :: ds).
    change (mkSettings (new_trial <$> d :: ds) nfft0 win (mkSums mat_empty []))
      with (new_settings (new_trial <$> d :: ds) nfft0 win).
    rewrite Hs. done.
  - intros net. unfold calculateImag, s. simpl m_dataList.
    rewrite fmap_cons. cbn [m_dataList new_settings].
    change (new_trial d :: (new_trial <$> ds)) with (new_trial <$> d :: ds).
    change (mkSettings (new_trial <$> d :: ds) nfft0 win (mkSums mat_empty []))
      with (new_settings (new_trial <$> d :: ds) nfft0 win).
    rewrite Hs. done.
  - intros vec. unfold calculate, s. simpl m_dataList.
    rewrite fmap_cons. cbn [m_dataList new_settings].
    change (new_trial d :: (new_trial <$> ds)) with (new_trial <$> d :: ds).
    change (mkSettings (new_trial <$> d :: ds) nfft0 win (mkSums mat_empty []))
      with (new_settings (new_trial <$> d :: ds) nfft0 win).
    rewrite Hs. done.
Qed.

Lemma run_new_network datas nfft0 win C L :
  valid_run generateTapers datas win C L →
  let nfft := run_nfft nfft0 L in
  let tapers := generateTapers (Z.of_nat L) win in
  let s := new_settings (new_trial <$> datas) nfft0 win in
  ∃ r rs,
    Forall2 (result_of fft_kernel C nfft tapers) datas (r :: rs)
    ∧ psd_shape C (spec_bins nfft) (mat_map sqrt (psd_total r rs))
    ∧ pairs_shape C (spec_bins nfft) (csd_total r rs)
    ∧ pairs_indexed (csd_total r rs)
    ∧ (∀ net, C ≤ length (net_nodes net) →
         calculateReal fft_kernel generateTapers net s
         = Some (foldl attach net
                   (run_edges Cplx.abs (csd_total r rs)
                      (mat_map sqrt (psd_total r rs))),
                 settings_after r rs nfft0 win))
    ∧ (∀ net, C ≤ length (net_nodes net) →
         calculateImag fft_kernel generateTapers net s
         = Some (foldl attach net
                   (run_edges Cplx.im (csd_total r rs)
                      (mat_map sqrt (psd_total r rs))),
                 settings_after r rs nfft0 win))
    ∧ (∀ vecCoherency,
         calculate fft_kernel generateTapers vecCoherency s
         = Some (normalised (csd_total r rs) (mat_map sqrt (psd_total r rs)),
                 mkSettings (r :: rs) nfft0 win
                   (mkSums (mat_map sqrt (psd_total r rs))
                      (normalised (csd_total r rs)
                         (mat_map sqrt (psd_total r rs)))))).
Proof.
  intros Hv nfft tapers s.
  destruct (run_new datas nfft0 win C L Hv)
    as (r & rs & HF & Hp & Hc & Hi & HR & HI & HC).
  pose proof (pairs_fit _ _ _ Hc Hi) as Hfit.
  exists r, rs. split_and!; [done..| | |].
  - intros net Hn. rewrite HR.
    change (λ pairInput net', computePSDCSDReal net' pairInput ?p)
      with (λ pairInput net', build_edges Cplx.abs net' pairInput p).
    erewrite build_all_edges by done. done.
  - intros net Hn. rewrite HI.
    change (λ pairInput net', computePSDCSDImag net' pairInput ?p)
      with (λ pairInput net', build_edges Cplx.im net' pairInput p).
    erewrite build_all_edges by done. done.
  - intros vec. rewrite HC. erewrite mapM_computePSDCSD by done. done.
Qed.

End RunResults.

(** ** The PSD and the CSDs of a trial *)

(** The halving on concrete rows: the three bins of an FFT of length 4,
    the two bins of an FFT of length 3, and the same by the formula of the
    description. *)
Example halve_bins_nfft4 :
  halve_bins halve true [8; 6; 4]%R = [8 / 2; 6; 4 / 2]%R.
Proof. reflexivity. Qed.

Example halve_bins_nfft3 :
  halve_bins halve false [8; 6]%R = [8 / 2; 6]%R.
Proof. reflexivity. Qed.

Example spec_halving_nfft4 :
  (λ k, spec_halving halve 4 k 8%R) <$> [0; 1; 2] = [8 / 2; 8; 8 / 2]%R
  ∧ (λ k, spec_halving halve 3 k 8%R) <$> [0; 1] = [8 / 2; 8]%R.
Proof. split; reflexivity. Qed.

(** C1.  [compute] on a trial of C channels that holds no result of the
    expected size: every channel row is demeaned, multiplied by each taper,
    transformed by the half-spectrum FFT of length nfft and scaled by the
    taper weight; row i of the PSD is the sum over the tapers of the squared
    magnitudes divided by (sum of squared weights / 2), and row j of the CSD
    matrix stored for channel i, for i <= j, is the sum over the tapers of
    spectrum_i times the conjugate of spectrum_j divided by the same
    denominator; in both, bin 0 is divided by 2, the last bin is divided by
    2 when nfft is even, and no other bin is. *)
Theorem compute_psd_csd (fft_kernel : list R → nat → complex)
    (inputData : ConnectivityTrialData) (matPsdSum : MatrixXd)
    (vecPairCsdAvg : list (Z * MatrixXcd)) (iNRows iNFreqs iNfft : Z)
    (tapers : MatrixXd * list R) :
  mat_wf (matData inputData) →
  tapers_wf tapers (cols (matData inputData)) →
  iNRows = Z.of_nat (rows (matData inputData)) →
  (Z.of_nat (cols (matData inputData)) ≤ iNfft)%Z →
  iNFreqs = (iNfft / 2 + 1)%Z →
  already_computed inputData iNRows iNFreqs = false →
  ∃ result,
    compute_trial fft_kernel inputData iNRows iNFreqs iNfft tapers = Some result
    ∧ compute fft_kernel inputData matPsdSum vecPairCsdAvg iNRows iNFreqs iNfft
        tapers
      = ('(psd, csd) ← merge result matPsdSum vecPairCsdAvg;
         Some (result, psd, csd))
    ∧ matData result = matData inputData
    ∧ rows (matPsd result) = rows (matData inputData)
    ∧ cols (matPsd result) = spec_bins iNfft
    ∧ (∀ i k, i < rows (matData inputData) → k < spec_bins iNfft →
         coeff (matPsd result) i k
         = Some (spec_psd fft_kernel (matData inputData) tapers iNfft i k))
    ∧ (∀ i j k, i ≤ j → j < rows (matData inputData) → k < spec_bins iNfft →
         ∃ M, vecPairCsd result !! (length (vecPairCsd inputData) + i)
              = Some (Z.of_nat i, M)
            ∧ rows M = rows (matData inputData) ∧ cols M = spec_bins iNfft
            ∧ coeff M j k
              = Some (spec_csd fft_kernel (matData inputData) tapers iNfft i j k)).
Proof.
  intros Hwf Htap HC Hn HF Hmemo.
  destruct (compute_trial_Some fft_kernel inputData iNRows iNFreqs iNfft tapers)
    as (new & Hrun & Hlen & Hnew); [done..|].
  set (d := matData inputData) in *.
  set (TS := trial_spectra fft_kernel d tapers iNfft) in *.
  assert (length TS = rows d) as HTS.
  { unfold TS, trial_spectra. by rewrite length_fmap. }
  assert (∀ i, i < rows d → ∃ dataRow,
            row d i = Some dataRow ∧ length dataRow = cols d
            ∧ TS !! i = Some (mkMatrix (spec_bins iNfft)
                (tap_rows fft_kernel (demeaned dataRow) tapers iNfft))) as Hrows.
  { intros i Hi. destruct (lookup_lt_is_Some_2 (m_coeffs d) i) as [r Hr]; [done|].
    exists r. split_and!; [done|by eapply mat_wf_row|].
    unfold TS, trial_spectra. by rewrite list_lookup_fmap, Hr. }
  eexists. split; [exact Hrun|]. split_and!.
  - unfold compute. by rewrite Hmemo, Hrun.
  - done.
  - unfold rows. simpl. by rewrite length_fmap.
  - done.
  - intros i k Hi Hk. destruct (Hrows i Hi) as (dataRow & Hrow & Hl & HTSi).
    unfold coeff, row. simpl. rewrite list_lookup_fmap, HTSi. simpl.
    apply psd_row_lookup; [done|by rewrite Hl|lia|done].
  - intros i j k Hij Hj Hk.
    destruct (Hrows i ltac:(lia)) as (rowi & Hrowi & Hli & HTSi).
    destruct (Hrows j Hj) as (rowj & Hrowj & Hlj & HTSj).
    destruct (lookup_lt_is_Some_2 new i) as [[z M] He]; [lia|].
    destruct (Hnew i _ He) as (Hz & Hc & Hr & _ & Hcsd).
    simpl in Hz, Hc, Hr. subst z.
    exists M. split_and!.
    + simpl. rewrite lookup_app_r by lia.
      by replace (length (vecPairCsd inputData) + i - length (vecPairCsd inputData))
        with i by lia.
    + by rewrite Hr.
    + done.
    + pose proof (Hcsd j _ _ Hij HTSi HTSj) as Hrowj'. simpl in Hrowj'.
      unfold coeff. rewrite Hrowj'. simpl.
      apply csd_row_lookup; [done|done|congruence|by rewrite Hli|lia|done].
Qed.

(** ** The network of a run *)

Lemma one_edge_per_pair_new (weight : complex → R) (n C F : nat)
    (pairs : list (Z * MatrixXcd)) (psd : MatrixXd) :
  pairs_shape C F pairs → pairs_indexed pairs → psd_shape C F psd →
  one_edge_per_pair C F
    (foldl attach (new_network n) (run_edges weight pairs psd)).
Proof.
  intros Hc Hi Hp. unfold one_edge_per_pair.
  rewrite network_edges_new, foldl_attach_edges. simpl.
  rewrite (run_edges_endpoints weight pairs psd C F) by done.
  split_and!.
  - by rewrite length_seq.
  - apply upper_pairs_elem.
  - apply upper_pairs_NoDup.
  - rewrite <- upper_pairs_length,
      <- (run_edges_endpoints weight pairs psd C F) by done.
    by rewrite length_fmap.
  - by eapply run_edges_weights.
Qed.

(** C2.  A run over C channels that starts from new settings and a new
    network of at least C nodes ends with a network whose edge list holds
    exactly one edge for each pair (i, j) with i <= j < C, self-pairs
    included, and no other: C (C + 1) / 2 edges, no pair twice, none with
    j < i; every edge carries a weight vector whose length is the number
    of frequency bins of the run.  This holds for [calculateReal] and for
    [calculateImag]. *)
Theorem network_one_edge_per_pair (fft_kernel : list R → nat → complex)
    (generateTapers : Z → string → MatrixXd * list R)
    (datas : list MatrixXd) (nfft0 : Z) (win : string) (C L n : nat) :
  valid_run generateTapers datas win C L → C ≤ n →
  let s := new_settings (new_trial <$> datas) nfft0 win in
  let F := spec_bins (run_nfft nfft0 L) in
  (∃ net s', calculateReal fft_kernel generateTapers (new_network n) s
             = Some (net, s')
             ∧ one_edge_per_pair C F net)
  ∧ (∃ net s', calculateImag fft_kernel generateTapers (new_network n) s
               = Some (net, s')
               ∧ one_edge_per_pair C F net).
Proof.
  intros Hv Hn s F.
  destruct (run_new_network fft_kernel generateTapers datas nfft0 win C L Hv)
    as (r & rs & _ & Hp & Hc & Hi & HR & HI & _).
  split.
  - eexists _, _. split.
    + apply HR. simpl. by rewrite length_replicate.
    + by apply one_edge_per_pair_new.
  - eexists _, _. split.
    + apply HI. simpl. by rewrite length_replicate.
    + by apply one_edge_per_pair_new.
Qed.

Lemma occurrences_lt (p : nat) (l : list nat) :
  Forall (λ q, q < p) l → occurrences p l = 0.
Proof.
  unfold occurrences. induction 1 as [|q l Hq _ IH]; [done|].
  rewrite filter_cons. case_decide; [lia|done].
Qed.

Lemma occurrences_seq (p n : nat) : 0 < n → occurrences p (seq p n) = 1.
Proof.
  intros Hn. destruct n as [|n]; [lia|]. simpl. unfold occurrences.
  rewrite filter_cons, decide_True by done. simpl. f_equal.
  assert (∀ a, p < a → length (filter (λ q, q = p) (seq a n)) = 0) as H.
  { clear. induction n as [|n IH]; intros a Ha; [done|].
    simpl. rewrite filter_cons, decide_False by lia. apply IH. lia. }
  apply H. lia.
Qed.

(** C9.  For the self-pair (i, i) the builder creates one edge object and
    appends the pointer to it to the adjacency list of node i twice, once
    for each end node, and to the edge list of the network once: in the
    resulting network the pointer occurs twice in the adjacency list of
    node i and once in the edge list.  This holds for [computePSDCSDReal]
    and for [computePSDCSDImag]. *)
Theorem self_pair_twice_in_node (net : Network) (i : nat) (M : MatrixXcd)
    (matPsdSum : MatrixXd) (C F : nat) :
  psd_shape C F matPsdSum → i < C → rows M = C → cols M = F →
  C ≤ length (net_nodes net) → net_closed net →
  let p := length (net_store net) in
  let self_pair_ok (result : option Network) : Prop :=
    ∃ net' e adj,
      result = Some net'
      ∧ net_store net' !! p = Some e
      ∧ endpoints e = (Z.of_nat i, Z.of_nat i)
      ∧ occurrences p (net_edges net') = 1
      ∧ net_nodes net' !! i = Some adj
      ∧ occurrences p adj = 2 in
  self_pair_ok (computePSDCSDReal net (Z.of_nat i, M) matPsdSum)
  ∧ self_pair_ok (computePSDCSDImag net (Z.of_nat i, M) matPsdSum).
Proof.
  intros Hp Hi HrM HcM Hn [Hce Hcn] p self_pair_ok.
  assert (∀ weight, self_pair_ok (build_edges weight net (Z.of_nat i, M) matPsdSum))
    as H; [|split; apply H].
  intros weight. unfold self_pair_ok.
  pose proof Hp as (Hr & Hc & Hwf).
  rewrite build_edges_Some; simpl; [|lia|rewrite Nat2Z.id; lia|done|congruence..|lia].
  set (matCohy := coherency_matrix (Z.of_nat i, M) matPsdSum).
  set (es := pair_edges weight (Z.of_nat i) matCohy).
  assert (rows matCohy = C) as Hrows.
  { unfold matCohy. rewrite coherency_matrix_rows. simpl. lia. }
  destruct (lookup_lt_is_Some_2 (m_coeffs matCohy) i) as [ri Hri];
    [unfold rows in Hrows; lia|].
  assert (es !! 0 = Some (mkEdge (Z.of_nat i) (Z.of_nat i)
                            (transpose_row (weight <$> ri)))) as Hes.
  { unfold es, pair_edges. rewrite lookup_zip_with, Nat2Z.id.
    rewrite lookup_seq_lt by lia. cbn [mbind option_bind].
    rewrite lookup_drop. replace (i + 0) with i by lia. by rewrite Hri. }
  destruct (lookup_lt_is_Some_2 (net_nodes net) i) as [adj Hadj]; [lia|].
  eexists _, _, _. split; [done|]. split_and!.
  - rewrite foldl_attach_store, lookup_app_r by done.
    fold p. rewrite Nat.sub_diag. exact Hes.
  - done.
  - rewrite foldl_attach_edges, occurrences_app.
    rewrite occurrences_lt by done. fold p.
    rewrite occurrences_seq; [done|]. by eapply lookup_lt_Some.
  - rewrite foldl_attach_nodes, Hadj. done.
  - rewrite occurrences_app. rewrite occurrences_lt.
    + fold p. replace p with (p + 0) at 1 by lia.
      rewrite (occurrences_adj_of i p 0 es _ Hes). simpl.
      rewrite Nat2Z.id, !decide_True by done. done.
    + by apply (Forall_lookup_1 _ _ _ _ Hcn Hadj).
Qed.

(** ** Sums of replicated trials *)

Lemma mat_map_id_ext {A : Type} (f : A → A) (M : Matrix A) :
  (∀ x, f x = x) → mat_map f M = M.
Proof.
  intros Hf. destruct M as [c l]. unfold mat_map. simpl. f_equal.
  rewrite <- (list_fmap_id l) at 2. apply list_fmap_ext. intros _ r _.
  rewrite <- (list_fmap_id r) at 2. apply list_fmap_ext. intros _ x _. apply Hf.
Qed.

Lemma mat_plus_scale (k : R) (P : MatrixXd) :
  mat_plus (mat_scale k P) P = mat_scale (k + 1) P.
Proof.
  unfold mat_plus, mat_scale, mat_map. simpl. f_equal.
  rewrite zip_with_fmap_l, zip_with_diag. apply list_fmap_ext. intros _ r _.
  rewrite zip_with_fmap_l, zip_with_diag. apply list_fmap_ext. intros _ x _.
  simpl. ring.
Qed.

Lemma pairs_plus_scale (k : R) (pairs : list (Z * MatrixXcd)) :
  pairs_plus (pairs_scale k pairs) pairs = pairs_scale (k + 1) pairs.
Proof.
  unfold pairs_plus, pairs_scale.
  rewrite zip_with_fmap_l, zip_with_diag. apply list_fmap_ext. intros _ e _.
  simpl. f_equal. unfold cmat_plus, mat_map. simpl. f_equal.
  rewrite zip_with_fmap_l, zip_with_diag. apply list_fmap_ext. intros _ r _.
  rewrite zip_with_fmap_l, zip_with_diag. apply list_fmap_ext. intros _ z _.
  unfold Cplx.add, Cplx.scale. simpl. f_equal; ring.
Qed.

Lemma foldl_mat_plus_replicate (m : nat) (k : R) (P : MatrixXd) :
  foldl mat_plus (mat_scale k P) (replicate m P) = mat_scale (k + INR m) P.
Proof.
  revert k. induction m as [|m IH]; intros k.
  - simpl. by rewrite Rplus_0_r.
  - simpl replicate. simpl foldl. rewrite mat_plus_scale, IH, S_INR.
    f_equal. ring.
Qed.

Lemma foldl_pairs_plus_replicate (m : nat) (k : R) (pairs : list (Z * MatrixXcd)) :
  foldl pairs_plus (pairs_scale k pairs) (replicate m pairs)
  = pairs_scale (k + INR m) pairs.
Proof.
  revert k. induction m as [|m IH]; intros k.
  - simpl. by rewrite Rplus_0_r.
  - simpl replicate. simpl foldl. rewrite pairs_plus_scale, IH, S_INR.
    f_equal. ring.
Qed.

Lemma mat_scale_1 (P : MatrixXd) : mat_scale 1 P = P.
Proof. apply mat_map_id_ext. intros x. ring. Qed.

Lemma pairs_scale_1 (pairs : list (Z * MatrixXcd)) : pairs_scale 1 pairs = pairs.
Proof.
  unfold pairs_scale. rewrite <- (list_fmap_id pairs) at 2.
  apply list_fmap_ext. intros _ [z M] _. simpl. f_equal.
  apply mat_map_id_ext. intros [a b]. unfold Cplx.scale. simpl. f_equal; ring.
Qed.

(** The cancellation: k z / (sqrt (k a) sqrt (k b)) = z / (sqrt a sqrt b). *)
Lemma quotient_scale (k x a b : R) :
  (0 < k)%R →
  (x * k / (sqrt (k * a) * sqrt (k * b)) = x / (sqrt a * sqrt b))%R.
Proof.
  intros Hk. rewrite !sqrt_mult_alt by lra.
  replace (sqrt k * sqrt a * (sqrt k * sqrt b))%R
    with (sqrt k * sqrt k * (sqrt a * sqrt b))%R by ring.
  rewrite sqrt_sqrt by lra. unfold Rdiv. rewrite Rinv_mult.
  replace (x * k * (/ k * / (sqrt a * sqrt b)))%R
    with (k * / k * (x * / (sqrt a * sqrt b)))%R by ring.
  rewrite Rinv_r by lra. ring.
Qed.

Lemma coherency_matrix_scale (k : R) (i : Z) (M : MatrixXcd) (P : MatrixXd) :
  (0 < k)%R →
  coherency_matrix (i, mat_map (λ z, Cplx.scale z k) M)
    (mat_map sqrt (mat_scale k P))
  = coherency_matrix (i, M) (mat_map sqrt P).
Proof.
  intros Hk. unfold coherency_matrix, mat_scale, mat_map, row. simpl. f_equal.
  rewrite !list_lookup_fmap.
  rewrite <- !list_fmap_compose.
  rewrite zip_with_fmap_l, !zip_with_fmap_r.
  apply zip_with_ext; [|done..]. intros mrow prow.
  destruct (m_coeffs P !! Z.to_nat i) as [ri|]; simpl.
  - apply list_eq. intros n.
    rewrite !lookup_zip_with, !list_lookup_fmap.
    destruct (mrow !! n) as [z|]; [|done]. simpl.
    destruct (ri !! n) as [a|]; [|done]. simpl.
    destruct (prow !! n) as [b|]; [|done]. simpl.
    f_equal. unfold Cplx.divr, Cplx.scale. simpl.
    f_equal; by apply quotient_scale.
  - by destruct mrow.
Qed.

Lemma run_edges_scale (weight : complex → R) (k : R)
    (pairs : list (Z * MatrixXcd)) (P : MatrixXd) :
  (0 < k)%R →
  run_edges weight (pairs_scale k pairs) (mat_map sqrt (mat_scale k P))
  = run_edges weight pairs (mat_map sqrt P).
Proof.
  intros Hk. unfold run_edges, pairs_scale. rewrite list_fmap_bind.
  apply list_bind_ext; [|done]. intros [i M]. simpl.
  by rewrite coherency_matrix_scale.
Qed.

Lemma normalised_scale (k : R) (pairs : list (Z * MatrixXcd)) (P : MatrixXd) :
  (0 < k)%R →
  normalised (pairs_scale k pairs) (mat_map sqrt (mat_scale k P))
  = normalised pairs (mat_map sqrt P).
Proof.
  intros Hk. unfold normalised, pairs_scale. rewrite <- list_fmap_compose.
  apply list_fmap_ext. intros _ [i M] _. simpl.
  by rewrite coherency_matrix_scale.
Qed.

Lemma Forall2_replicate_functional {A B : Type} (Rel : A → B → Prop) (d : A)
    (m : nat) (r : B) (rs : list B) :
  (∀ x, Rel d x → x = r) → Forall2 Rel (replicate m d) rs → rs = replicate m r.
Proof.
  intros Hfun. revert rs. induction m as [|m IH]; intros rs H; simpl in *.
  - by apply Forall2_nil_inv_l in H.
  - apply Forall2_cons_inv_l in H as (x & rs' & Hx & Hrs & ->).
    f_equal; [by apply Hfun|by apply IH].
Qed.

(** ** Replicated trials *)

(** C4.  A run over N >= 1 copies of one trial gives the same network,
    hence the same weight for every pair of channels and every frequency
    bin, and the same coherency matrices, as the run over the trial alone:
    the sums are N times the result of the trial, and the factor N of the
    CSD sum cancels against the two square roots of N times the PSD. *)
Theorem trial_count_invariance (fft_kernel : list R → nat → complex)
    (generateTapers : Z → string → MatrixXd * list R)
    (d : MatrixXd) (nfft0 : Z) (win : string) (C L N : nat)
    (net : Network) (vecCoherency : list (Z * MatrixXcd)) :
  data_shape C L d → tapers_wf (generateTapers (Z.of_nat L) win) L →
  1 ≤ N → C ≤ length (net_nodes net) →
  let sN := new_settings (new_trial <$> replicate N d) nfft0 win in
  let s1 := new_settings (new_trial <$> [d]) nfft0 win in
  (∃ net', fst <$> calculateReal fft_kernel generateTapers net sN = Some net'
         ∧ fst <$> calculateReal fft_kernel generateTapers net s1 = Some net')
  ∧ (∃ net', fst <$> calculateImag fft_kernel generateTapers net sN = Some net'
           ∧ fst <$> calculateImag fft_kernel generateTapers net s1 = Some net')
  ∧ (∃ v, fst <$> calculate fft_kernel generateTapers vecCoherency sN = Some v
        ∧ fst <$> calculate fft_kernel generateTapers vecCoherency s1 = Some v).
Proof.
  intros Hd Htap HN Hn sN s1.
  destruct N as [|m]; [lia|].
  assert (valid_run generateTapers (replicate (S m) d) win C L) as HvN.
  { split_and!; [done| |done]. by apply Forall_replicate. }
  assert (valid_run generateTapers [d] win C L) as Hv1.
  { split_and!; [done| |done]. by constructor. }
  destruct (run_new_network fft_kernel generateTapers _ nfft0 win C L HvN)
    as (r & rs & HF & _ & _ & _ & HR & HI & HC).
  destruct (run_new_network fft_kernel generateTapers _ nfft0 win C L Hv1)
    as (r1 & rs1 & HF1 & _ & _ & _ & HR1 & HI1 & HC1).
  simpl replicate in HF.
  apply Forall2_cons_1 in HF as [Hr HF].
  apply Forall2_cons_1 in HF1 as [Hr1 HF1].
  apply Forall2_nil_inv_l in HF1 as ->.
  assert (r1 = r) as -> by (unfold result_of in *; congruence).
  apply (Forall2_replicate_functional _ d m r) in HF as ->;
    [|unfold result_of in *; congruence].
  assert (0 < 1 + INR m)%R as Hk by (pose proof (pos_INR m); lra).
  assert (psd_total r (replicate m r) = mat_scale (1 + INR m) (psd_total r []))
    as Hpsd.
  { unfold psd_total. rewrite fmap_replicate. simpl.
    rewrite <- (mat_scale_1 (matPsd r)) at 1.
    by rewrite foldl_mat_plus_replicate. }
  assert (csd_total r (replicate m r)
          = pairs_scale (1 + INR m) (csd_total r [])) as Hcsd.
  { unfold csd_total. rewrite fmap_replicate. simpl.
    rewrite <- (pairs_scale_1 (vecPairCsd r)) at 1.
    by rewrite foldl_pairs_plus_replicate. }
  fold sN in HR, HI, HC. fold s1 in HR1, HI1, HC1.
  split_and!.
  - eexists. rewrite HR, HR1 by done. simpl.
    by rewrite Hpsd, Hcsd, run_edges_scale.
  - eexists. rewrite HI, HI1 by done. simpl.
    by rewrite Hpsd, Hcsd, run_edges_scale.
  - eexists. rewrite HC, HC1. simpl.
    by rewrite Hpsd, Hcsd, normalised_scale.
Qed.

(** ** Shapes of the stored matrices *)

Lemma pairs_shape_bins C F (pairs : list (Z * MatrixXcd)) :
  pairs_shape C F pairs → Forall (λ e, cols e.2 = F ∧ mat_wf e.2) pairs.
Proof. intros [_ H]. eapply Forall_impl; [exact H|]. by intros e (_ & ? & ?). Qed.

Lemma normalised_bins C F (pairs : list (Z * MatrixXcd)) (psd : MatrixXd) :
  pairs_shape C F pairs → pairs_indexed pairs → psd_shape C F psd →
  Forall (λ e, cols e.2 = F ∧ mat_wf e.2) (normalised pairs psd).
Proof.
  intros Hc Hi Hp. unfold normalised. apply Forall_fmap.
  apply Forall_lookup_2. intros i e He. simpl.
  destruct Hc as [Hl Hs].
  pose proof (Forall_lookup_1 _ _ _ _ Hs He) as (Hre & Hce & Hwe).
  assert (Z.to_nat e.1 < C) as Hlt.
  { rewrite (Hi i e He), Nat2Z.id. apply lookup_lt_Some in He. lia. }
  split; [done|].
  unfold mat_wf. change (cols (coherency_matrix e psd)) with (cols e.2).
  rewrite Hce. by eapply coherency_matrix_wf.
Qed.

Section Bins.
Context (fft_kernel : list R → nat → complex).
Context (generateTapers : Z → string → MatrixXd * list R).

Lemma results_bins C L nfft tapers (datas results : list _) :
  Forall (data_shape C L) datas → tapers_wf tapers L → (Z.of_nat L ≤ nfft)%Z →
  Forall2 (result_of fft_kernel C nfft tapers) datas results →
  Forall (λ t, cols (matPsd t) = spec_bins nfft ∧ mat_wf (matPsd t)
               ∧ Forall (λ e, cols e.2 = spec_bins nfft ∧ mat_wf e.2)
                   (vecPairCsd t)) results.
Proof.
  intros Hd Htap Hn HF. apply Forall_lookup_2. intros i x Hx.
  destruct (Forall2_lookup_r _ _ _ _ _ HF Hx) as (dx & Hdx & Hres).
  pose proof (Forall_lookup_1 _ _ _ _ Hd Hdx) as Hsh.
  destruct (result_of_shape fft_kernel C L nfft tapers dx x)
    as (_ & (_ & ? & ?) & Hc & _); [done..|].
  split_and!; [done..|]. by eapply pairs_shape_bins.
Qed.

End Bins.

(** ** The number of frequency bins *)

(** C5.  The FFT length of a run is the configured length if that is at
    least the number of samples of the first trial, and that number of
    samples otherwise; the number of bins floor (nfft / 2) + 1 of this
    length is the number of columns of every PSD matrix and of every CSD
    matrix stored by the run, in the trials and in the sums, and the length
    of the weight vector of every edge of the run. *)
Theorem bins_of_run (fft_kernel : list R → nat → complex)
    (generateTapers : Z → string → MatrixXd * list R)
    (datas : list MatrixXd) (nfft0 : Z) (win : string) (C L n : nat)
    (first : ConnectivityTrialData) (vecCoherency : list (Z * MatrixXcd)) :
  valid_run generateTapers datas win C L → C ≤ n →
  head (new_trial <$> datas) = Some first →
  let s := new_settings (new_trial <$> datas) nfft0 win in
  let nfft := effective_nfft (m_iNfft s) first in
  let F := Z.to_nat (nfft / 2) + 1 in
  nfft = (if (Z.of_nat (cols (matData first)) <=? nfft0)%Z
          then nfft0 else Z.of_nat (cols (matData first)))
  ∧ (∃ net s', calculateReal fft_kernel generateTapers (new_network n) s
               = Some (net, s')
        ∧ bins_everywhere F s'
        ∧ Forall (λ e, rows (matWeight e) = F) (network_edges net))
  ∧ (∃ net s', calculateImag fft_kernel generateTapers (new_network n) s
               = Some (net, s')
        ∧ bins_everywhere F s'
        ∧ Forall (λ e, rows (matWeight e) = F) (network_edges net))
  ∧ (∃ v s', calculate fft_kernel generateTapers vecCoherency s = Some (v, s')
        ∧ bins_everywhere F s'
        ∧ Forall (λ e, cols e.2 = F ∧ mat_wf e.2) v).
Proof.
  intros Hv Hn Hfirst s nfft F.
  pose proof Hv as (Hne & Hd & Htap).
  destruct datas as [|d ds]; [done|]. simpl in Hfirst. injection Hfirst as <-.
  pose proof (Forall_inv Hd) as (_ & HC & HL).
  assert (nfft = run_nfft nfft0 L) as Hnfft.
  { unfold nfft, run_nfft, effective_nfft. simpl. by rewrite HL. }
  assert (F = spec_bins (run_nfft nfft0 L)) as HF by by rewrite <- Hnfft.
  assert (Z.of_nat L ≤ run_nfft nfft0 L)%Z as HLn.
  { unfold run_nfft. destruct (nfft0 <? Z.of_nat L)%Z eqn:E; [lia|].
    apply Z.ltb_ge in E. lia. }
  destruct (run_new_network fft_kernel generateTapers (d :: ds) nfft0 win C L Hv)
    as (r & rs & HF2 & Hp & Hc & Hi & HR & HI & HC').
  pose proof (results_bins fft_kernel C L _ _ _ _ Hd Htap HLn HF2) as Hres.
  assert (bins_everywhere F (settings_after r rs nfft0 win)) as Hbins.
  { rewrite HF. unfold bins_everywhere, settings_after. simpl.
    destruct Hp as (_ & ? & ?). split_and!; [done..|]. by eapply pairs_shape_bins. }
  split_and!.
  - rewrite Hnfft. unfold run_nfft. simpl. rewrite HL.
    destruct (nfft0 <? Z.of_nat L)%Z eqn:E.
    + apply Z.ltb_lt in E. by rewrite (proj2 (Z.leb_gt _ _)) by lia.
    + apply Z.ltb_ge in E. by rewrite (proj2 (Z.leb_le _ _)) by lia.
  - eexists _, _. split; [apply HR; simpl; by rewrite length_replicate|].
    split; [done|]. rewrite network_edges_new, HF.
    eapply Forall_impl; [by eapply run_edges_weights|]. by intros e [? _].
  - eexists _, _. split; [apply HI; simpl; by rewrite length_replicate|].
    split; [done|]. rewrite network_edges_new, HF.
    eapply Forall_impl; [by eapply run_edges_weights|]. by intros e [? _].
  - eexists _, _. split; [apply HC'|].
    assert (Forall (λ e, cols e.2 = F ∧ mat_wf e.2)
              (normalised (csd_total r rs) (mat_map sqrt (psd_total r rs))))
      as Hnorm by (rewrite HF; by eapply normalised_bins).
    split; [|done].
    destruct Hbins as (? & ? & ? & _). unfold bins_everywhere. simpl. done.
Qed.

(** ** Trials that hold a result *)

(** C8.  [compute] on a trial whose stored result has the expected shape
    (as many CSD entries as channels, a PSD matrix with as many rows as
    channels and as many columns as frequency bins) returns at once: the
    trial, with its stored PSD and CSD, and the two sums are unchanged.
    The result that [compute] stores in a new trial has this shape, so a
    further call on it changes nothing. *)
Theorem compute_memoized (fft_kernel : list R → nat → complex)
    (inputData : ConnectivityTrialData) (matPsdSum : MatrixXd)
    (vecPairCsdAvg : list (Z * MatrixXcd)) (iNRows iNFreqs iNfft : Z)
    (tapers : MatrixXd * list R) :
  Z.of_nat (length (vecPairCsd inputData)) = iNRows →
  Z.of_nat (rows (matPsd inputData)) = iNRows →
  Z.of_nat (cols (matPsd inputData)) = iNFreqs →
  compute fft_kernel inputData matPsdSum vecPairCsdAvg iNRows iNFreqs iNfft tapers
  = Some (inputData, matPsdSum, vecPairCsdAvg)
  ∧ ∀ d C L r psdSum' csdSum',
      data_shape C L d → tapers_wf tapers L → (Z.of_nat L ≤ iNfft)%Z →
      result_of fft_kernel C iNfft tapers d r →
      compute fft_kernel r psdSum' csdSum' (Z.of_nat C) (iNfft / 2 + 1) iNfft
        tapers
      = Some (r, psdSum', csdSum').
Proof.
  intros H1 H2 H3.
  assert (∀ t P Cs r c n,
            Z.of_nat (length (vecPairCsd t)) = r →
            Z.of_nat (rows (matPsd t)) = r → Z.of_nat (cols (matPsd t)) = c →
            compute fft_kernel t P Cs r c n tapers = Some (t, P, Cs)) as Hmemo.
  { intros t P Cs r c n E1 E2 E3. unfold compute, already_computed.
    by rewrite E1, E2, E3, !Z.eqb_refl. }
  split; [by apply Hmemo|].
  intros d C L r psdSum' csdSum' Hd Htap Hn Hr.
  destruct (result_of_shape fft_kernel C L iNfft tapers d r)
    as (_ & (Hrp & Hcp & _) & (Hlc & _) & _); [done..|].
  apply Hmemo; [lia|lia|].
  rewrite Hcp. unfold spec_bins.
  assert (0 ≤ iNfft / 2)%Z by (apply Z.div_pos; lia). lia.
Qed.

(** ** Runs without trials *)

(** C7.  With an empty list of trials [calculateReal], [calculateImag]
    and [calculate] return at once and without error, whatever the taper
    routine is: the network gains no edge, the output vector is not
    assigned, and the settings, with their sums, are unchanged. *)
Theorem empty_trials_return (fft_kernel : list R → nat → complex)
    (generateTapers : Z → string → MatrixXd * list R)
    (finalNetwork : Network) (vecCoherency : list (Z * MatrixXcd))
    (s : ConnectivitySettings) :
  m_dataList s = [] →
  calculateReal fft_kernel generateTapers finalNetwork s = Some (finalNetwork, s)
  ∧ calculateImag fft_kernel generateTapers finalNetwork s
    = Some (finalNetwork, s)
  ∧ calculate fft_kernel generateTapers vecCoherency s = Some (vecCoherency, s).
Proof.
  intros H. unfold calculateReal, calculateImag, calculate. by rewrite H.
Qed.

(** ** Repeated calls *)

Lemma normalised_shape C F (pairs : list (Z * MatrixXcd)) (psd : MatrixXd) :
  pairs_shape C F pairs → pairs_indexed pairs → psd_shape C F psd →
  pairs_shape C F (normalised pairs psd) ∧ pairs_indexed (normalised pairs psd).
Proof.
  intros Hc Hi Hp. split.
  - split; [unfold normalised; rewrite length_fmap; apply Hc|].
    pose proof (normalised_bins C F pairs psd Hc Hi Hp) as Hb.
    apply Forall_lookup_2. intros i e He.
    pose proof (Forall_lookup_1 _ _ _ _ Hb He) as [? ?].
    split_and!; [|done..].
    unfold normalised in He. rewrite list_lookup_fmap in He.
    destruct (pairs !! i) as [e0|] eqn:He0; [|done]. injection He as <-. simpl.
    destruct Hc as [_ Hs]. pose proof (Forall_lookup_1 _ _ _ _ Hs He0) as (? & _).
    destruct Hp as (? & _). rewrite coherency_matrix_rows. lia.
  - intros i e He. unfold normalised in He. rewrite list_lookup_fmap in He.
    destruct (pairs !! i) as [e0|] eqn:He0; [|done]. injection He as <-. simpl.
    by apply Hi.
Qed.

Section Memo.
Context (fft_kernel : list R → nat → complex).
Context (generateTapers : Z → string → MatrixXd * list R).

Lemma compute_all_memo trials P Cs r c n tapers :
  Forall (λ t, already_computed t r c = true) trials →
  compute_all fft_kernel trials P Cs r c n tapers = Some (trials, P, Cs).
Proof.
  induction 1 as [|t trials Ht _ IH]; [done|].
  cbn [compute_all]. unfold compute at 1. rewrite Ht.
  cbn [mbind option_bind]. rewrite IH. done.
Qed.

Lemma spectra_memo s first :
  all_computed s first →
  spectra fft_kernel generateTapers s first = Some (with_sqrt_psd s).
Proof.
  intros [_ Hall]. unfold spectra.
  unfold run_rows, run_freqs in Hall. by rewrite compute_all_memo.
Qed.

Lemma calls_memo s first :
  all_computed s first →
  (∀ net,
     calculateReal fft_kernel generateTapers net s
     = (net' ← foldlM (λ pairInput net',
                         computePSDCSDReal net' pairInput
                           (mat_map sqrt (matPsdSum (data s))))
                  (vecPairCsdSum (data s)) net;
        Some (net', with_sqrt_psd s)))
  ∧ (∀ net,
       calculateImag fft_kernel generateTapers net s
       = (net' ← foldlM (λ pairInput net',
                           computePSDCSDImag net' pairInput
                             (mat_map sqrt (matPsdSum (data s))))
                    (vecPairCsdSum (data s)) net;
          Some (net', with_sqrt_psd s)))
  ∧ (∀ vecCoherency,
       calculate fft_kernel generateTapers vecCoherency s
       = (csd ← mapM (λ pairInput,
                        computePSDCSD pairInput
                          (mat_map sqrt (matPsdSum (data s))))
                   (vecPairCsdSum (data s));
          Some (csd, with_csd csd (with_sqrt_psd s)))).
Proof.
  intros Hall. pose proof (spectra_memo s first Hall) as Hs.
  destruct Hall as [Hhead _].
  destruct (m_dataList s) as [|t ts] eqn:E; [done|].
  simpl in Hhead. injection Hhead as ->.
  unfold calculateReal, calculateImag, calculate. rewrite E, Hs. done.
Qed.

Lemma calls_memo_shaped s first C F :
  all_computed s first →
  psd_shape C F (matPsdSum (data s)) →
  pairs_shape C F (vecPairCsdSum (data s)) →
  pairs_indexed (vecPairCsdSum (data s)) →
  let psd := mat_map sqrt (matPsdSum (data s)) in
  let csd := vecPairCsdSum (data s) in
  (∀ net, C ≤ length (net_nodes net) →
     calculateReal fft_kernel generateTapers net s
     = Some (foldl attach net (run_edges Cplx.abs csd psd), with_sqrt_psd s))
  ∧ (∀ net, C ≤ length (net_nodes net) →
       calculateImag fft_kernel generateTapers net s
       = Some (foldl attach net (run_edges Cplx.im csd psd), with_sqrt_psd s))
  ∧ (∀ vecCoherency,
       calculate fft_kernel generateTapers vecCoherency s
       = Some (normalised csd psd,
               with_csd (normalised csd psd) (with_sqrt_psd s))).
Proof.
  intros Hall Hp Hc Hi psd csd.
  destruct (calls_memo s first Hall) as (HR & HI & HC).
  pose proof (pairs_fit _ _ _ Hc Hi) as Hfit.
  pose proof (mat_map_shape C F sqrt _ Hp) as Hp'.
  split_and!.
  - intros net Hn. rewrite HR.
    change (λ pairInput net', computePSDCSDReal net' pairInput ?p)
      with (λ pairInput net', build_edges Cplx.abs net' pairInput p).
    erewrite build_all_edges by done. done.
  - intros net Hn. rewrite HI.
    change (λ pairInput net', computePSDCSDImag net' pairInput ?p)
      with (λ pairInput net', build_edges Cplx.im net' pairInput p).
    erewrite build_all_edges by done. done.
  - intros vec. rewrite HC. erewrite mapM_computePSDCSD by done. done.
Qed.

(** After a run over new trials every trial passes the test that opens
    [compute]. *)
Lemma all_computed_after datas nfft0 win C L r rs sums :
  valid_run generateTapers datas win C L →
  Forall2 (result_of fft_kernel C (run_nfft nfft0 L)
             (generateTapers (Z.of_nat L) win)) datas (r :: rs) →
  all_computed (mkSettings (r :: rs) nfft0 win sums) r.
Proof.
  intros (Hne & Hd & Htap) HF.
  assert (Z.of_nat L ≤ run_nfft nfft0 L)%Z as HLn.
  { unfold run_nfft. destruct (nfft0 <? Z.of_nat L)%Z eqn:E; [lia|].
    apply Z.ltb_ge in E. lia. }
  assert (∀ t, t ∈ r :: rs →
            matData t ∈ datas
            ∧ psd_shape C (spec_bins (run_nfft nfft0 L)) (matPsd t)
            ∧ pairs_shape C (spec_bins (run_nfft nfft0 L)) (vecPairCsd t)) as Hres.
  { intros t Ht. apply list_elem_of_lookup in Ht as [i Hi].
    destruct (Forall2_lookup_r _ _ _ _ _ HF Hi) as (dx & Hdx & Hr).
    pose proof (Forall_lookup_1 _ _ _ _ Hd Hdx) as Hsh.
    destruct (result_of_shape fft_kernel C L _ _ dx t Hsh Htap HLn Hr)
      as (-> & ? & ? & _).
    split_and!; [|done..]. by eapply list_elem_of_lookup_2. }
  destruct (Hres r) as (Hin & _); [by left|].
  pose proof (proj1 (Forall_forall _ _) Hd _ Hin) as (_ & HCr & HLr).
  split; [done|]. apply Forall_forall. intros t Ht.
  destruct (Hres t Ht) as (_ & (Hrp & Hcp & _) & (Hlc & _)).
  unfold already_computed, run_rows, run_freqs, effective_nfft. simpl.
  rewrite HCr, HLr, Hlc, Hrp, Hcp. fold (run_nfft nfft0 L).
  rewrite !Z.eqb_refl. simpl. apply Z.eqb_eq. unfold spec_bins.
  assert (0 ≤ run_nfft nfft0 L / 2)%Z by (apply Z.div_pos; lia). lia.
Qed.

End Memo.

Lemma memo_settings_computed : all_computed memo_settings memo_trial.
Proof. split; [done|]. by repeat constructor. Qed.

(** *** A run of two calls on concrete data *)

Lemma ramp_tapers_wf (L : nat) : tapers_wf (ramp_tapers (Z.of_nat L) "ramp") L.
Proof.
  unfold tapers_wf, ramp_tapers, mat_wf, cols, rows. simpl.
  rewrite Nat2Z.id. split_and!; [|done..].
  repeat constructor. by rewrite length_fmap, length_seq.
Qed.

Lemma swing_valid : valid_run ramp_tapers [swing] "ramp" 1 2.
Proof.
  split_and!; [done| |apply (ramp_tapers_wf 2)].
  apply Forall_singleton. split_and!; [|reflexivity..]. by repeat constructor.
Qed.

(** The angles of the DFT of length 2. *)
Lemma angle_0 (k n : nat) :
  k = 0 ∨ n = 0 → (2 * PI * INR k * INR n / INR 2 = 0)%R.
Proof. intros [-> | ->]; simpl; lra. Qed.

Lemma angle_PI : (2 * PI * INR 1 * INR 1 / INR 2 = PI)%R.
Proof. simpl. lra. Qed.

Ltac dft2_values :=
  rewrite ?(angle_0 0 0), ?(angle_0 0 1), ?(angle_0 1 0)
    by (left + right; reflexivity);
  rewrite ?angle_PI, ?cos_0, ?sin_0, ?cos_PI, ?sin_PI;
  simpl INR.

(** [compute] on the new trial [swing], with the DFT as the FFT and the
    taper (1, 2): the tapered row is (2, -4), its spectrum (-2, 6), the
    PSD (4, 36) after the division by 1/2 and the halving of both bins. *)
Lemma swing_result :
  compute_trial dft_kernel (new_trial swing) 1 2 2 (ramp_tapers 2 "ramp")
  = Some memo_trial.
Proof.
  cbv -[Rplus Rminus Rmult Rdiv Rinv Ropp sqrt cos sin PI IZR INR].
  dft2_values.
  replace (1 * 1 + 0)%R with 1%R by lra. rewrite sqrt_1.
  repeat f_equal; lra.
Qed.

(** The first call of [calculate] on the trial [swing] leaves
    [memo_settings]: the PSD sum (2, 6) and the coherency (1, 1). *)
Lemma first_call_state :
  calculate dft_kernel ramp_tapers []
    (new_settings (new_trial <$> [swing]) 2 "ramp")
  = Some (vecPairCsdSum (data memo_settings), memo_settings).
Proof.
  destruct (run_new_network dft_kernel ramp_tapers [swing] 2 "ramp" 1 2 swing_valid)
    as (r & rs & HF & _ & _ & _ & _ & _ & HC).
  apply Forall2_cons_1 in HF as [Hr HF]. apply Forall2_nil_inv_l in HF as ->.
  assert (r = memo_trial) as ->.
  { cut (Some r = Some memo_trial); [congruence|]. rewrite <- Hr. exact swing_result. }
  rewrite HC.
  cbv -[Rplus Rminus Rmult Rdiv Rinv Ropp sqrt cos sin PI IZR INR].
  replace 4%R with (2 * 2)%R by lra. replace 36%R with (6 * 6)%R by lra.
  rewrite !sqrt_square by lra.
  replace (2 * 2 / (2 * 2))%R with 1%R by lra.
  replace (6 * 6 / (6 * 6))%R with 1%R by lra.
  replace (0 / (2 * 2))%R with 0%R by lra.
  replace (0 / (6 * 6))%R with 0%R by lra.
  reflexivity.
Qed.

(** C10, as stated, fails for [calculate]: the first call on the new trial
    [swing] leaves the coherency (1, 1) in the CSD sums, and a second call
    on the settings it leaves takes the early return of [compute] for the
    trial, returns, and has changed the CSD sums (bin 1 of the entry of
    channel 0 is 1 before the second call and 1 / (sqrt 6 * sqrt 6) after
    it). *)
Lemma calculate_rewrites_csd :
  ∃ v1 s1 v2 s2,
    calculate dft_kernel ramp_tapers []
      (new_settings (new_trial <$> [swing]) 2 "ramp") = Some (v1, s1)
    ∧ calculate dft_kernel ramp_tapers v1 s1 = Some (v2, s2)
    ∧ Forall (λ t, already_computed t 1 2 = true) (m_dataList s1)
    ∧ csd_re (vecPairCsdSum (data s1)) 0 0 1 = Some 1%R
    ∧ csd_re (vecPairCsdSum (data s2)) 0 0 1 = Some (1 / (sqrt 6 * sqrt 6))%R
    ∧ vecPairCsdSum (data s2) ≠ vecPairCsdSum (data s1).
Proof.
  destruct (calls_memo_shaped dft_kernel ramp_tapers memo_settings memo_trial 1 2)
    as (_ & _ & HC).
  - apply memo_settings_computed.
  - split_and!; [done..|]. by repeat constructor.
  - split; [done|]. by repeat constructor.
  - intros [|i] e He; [by injection He as <-|done].
  - eexists _, memo_settings, _, _. split; [apply first_call_state|].
    split; [apply HC|]. split; [by repeat constructor|].
    split_and!; [done..|].
    intros Heq. apply (f_equal (λ l, csd_re l 0 0 1)) in Heq.
    cbv [csd_re coeff row] in Heq. simpl in Heq. injection Heq as Heq.
    rewrite sqrt_sqrt in Heq by lra. lra.
Qed.

(** C10, amended.  On settings all of whose trials take the early return
    of [compute], a call of [calculateReal] or [calculateImag] leaves the
    trials and the CSD sums as they are and replaces the PSD sum by its
    coefficient-wise square root; a call of [calculate] does the same to
    the PSD sum and replaces every entry of the CSD sums by its quotient by
    the products of the rows of the square-rooted PSD sum.  Hence, after a
    run over new trials, a second call on the same settings returns, takes
    the square root of the PSD sum again, and leaves the CSD sums unchanged
    in [calculateReal] and [calculateImag], but not in [calculate]. *)
Theorem sqrt_on_every_call (fft_kernel : list R → nat → complex)
    (generateTapers : Z → string → MatrixXd * list R)
    (s : ConnectivitySettings) (first : ConnectivityTrialData)
    (datas : list MatrixXd) (nfft0 : Z) (win : string) (C L n1 n2 : nat)
    (vec1 vec2 : list (Z * MatrixXcd)) :
  all_computed s first → valid_run generateTapers datas win C L →
  C ≤ n1 → C ≤ n2 →
  let s0 := new_settings (new_trial <$> datas) nfft0 win in
  ((∀ net,
      calculateReal fft_kernel generateTapers net s
      = (net' ← foldlM (λ pairInput net',
                          computePSDCSDReal net' pairInput
                            (mat_map sqrt (matPsdSum (data s))))
                   (vecPairCsdSum (data s)) net;
         Some (net', with_sqrt_psd s)))
   ∧ (∀ net,
        calculateImag fft_kernel generateTapers net s
        = (net' ← foldlM (λ pairInput net',
                            computePSDCSDImag net' pairInput
                              (mat_map sqrt (matPsdSum (data s))))
                     (vecPairCsdSum (data s)) net;
           Some (net', with_sqrt_psd s)))
   ∧ (∀ vecCoherency,
        calculate fft_kernel generateTapers vecCoherency s
        = (csd ← mapM (λ pairInput,
                         computePSDCSD pairInput
                           (mat_map sqrt (matPsdSum (data s))))
                    (vecPairCsdSum (data s));
           Some (csd, with_csd csd (with_sqrt_psd s)))))
  ∧ (∃ net1 s1 net2,
       calculateReal fft_kernel generateTapers (new_network n1) s0
       = Some (net1, s1)
       ∧ calculateReal fft_kernel generateTapers (new_network n2) s1
         = Some (net2, with_sqrt_psd s1))
  ∧ (∃ net1 s1 net2,
       calculateImag fft_kernel generateTapers (new_network n1) s0
       = Some (net1, s1)
       ∧ calculateImag fft_kernel generateTapers (new_network n2) s1
         = Some (net2, with_sqrt_psd s1))
  ∧ (∃ v1 s1 v2,
       calculate fft_kernel generateTapers vec1 s0 = Some (v1, s1)
       ∧ calculate fft_kernel generateTapers vec2 s1
         = Some (v2, with_csd v2 (with_sqrt_psd s1))
       ∧ v2 = normalised (vecPairCsdSum (data s1))
                (mat_map sqrt (matPsdSum (data s1)))).
Proof.
  intros Hall Hv Hn1 Hn2 s0.
  split; [by apply (calls_memo fft_kernel generateTapers s first)|].
  destruct (run_new_network fft_kernel generateTapers datas nfft0 win C L Hv)
    as (r & rs & HF & Hp & Hc & Hi & HR & HI & HC).
  fold s0 in HR, HI, HC.
  assert (∀ sums, all_computed (mkSettings (r :: rs) nfft0 win sums) r) as Hmemo.
  { intros sums. by eapply all_computed_after. }
  split_and!.
  - eexists _, _, _. split; [apply HR; simpl; by rewrite length_replicate|].
    destruct (calls_memo_shaped fft_kernel generateTapers
                (settings_after r rs nfft0 win) r C _ (Hmemo _) Hp Hc Hi)
      as (H2 & _ & _).
    apply H2. simpl. by rewrite length_replicate.
  - eexists _, _, _. split; [apply HI; simpl; by rewrite length_replicate|].
    destruct (calls_memo_shaped fft_kernel generateTapers
                (settings_after r rs nfft0 win) r C _ (Hmemo _) Hp Hc Hi)
      as (_ & H2 & _).
    apply H2. simpl. by rewrite length_replicate.
  - destruct (normalised_shape C _ _ _ Hc Hi Hp) as [Hc' Hi'].
    eexists _, _, _. split; [apply HC|].
    destruct (calls_memo_shaped fft_kernel generateTapers
                (mkSettings (r :: rs) nfft0 win
                   (mkSums (mat_map sqrt (psd_total r rs))
                      (normalised (csd_total r rs)
                         (mat_map sqrt (psd_total r rs)))))
                r C _ (Hmemo _) Hp Hc' Hi') as (_ & _ & H2).
    split; [apply H2|done].
Qed.

(** ** Input that is not checked *)

(** C6, as stated, fails: with the configured FFT length 0 the run over
    one trial of one channel returns a network with an edge; a run over
    trials without channels returns without error; a second trial with
    more channels than the first is accepted and the run returns a
    network with an edge. *)
Lemma invalid_input_accepted :
  (∃ net s',
     calculateReal dft_kernel ones_tapers (new_network 1)
       (new_settings [new_trial one_channel] 0 "ones") = Some (net, s')
     ∧ length (net_edges net) = 1)
  ∧ (∃ s',
       calculateReal dft_kernel ones_tapers (new_network 0)
         (new_settings [new_trial no_channel] 4 "ones")
       = Some (new_network 0, s'))
  ∧ (∃ net s',
       calculateReal dft_kernel ones_tapers (new_network 1)
         (new_settings [new_trial one_channel; new_trial two_channels] 4 "ones")
       = Some (net, s')
       ∧ length (net_edges net) = 1).
Proof.
  split_and!.
  - eexists _, _. split; reflexivity.
  - eexists. reflexivity.
  - eexists _, _. split; reflexivity.
Qed.

Lemma effective_nfft_clamp (configured : Z) (first : ConnectivityTrialData) :
  (configured ≤ Z.of_nat (cols (matData first)))%Z →
  effective_nfft configured first = Z.of_nat (cols (matData first)).
Proof.
  intros H. unfold effective_nfft.
  destruct (configured <? Z.of_nat (cols (matData first)))%Z eqn:E; [done|].
  apply Z.ltb_ge in E. lia.
Qed.

Section Unchecked.
Context (fft_kernel : list R → nat → complex).
Context (generateTapers : Z → string → MatrixXd * list R).

Lemma spectra_clamp s first :
  (m_iNfft s ≤ Z.of_nat (cols (matData first)))%Z →
  spectra fft_kernel generateTapers s first
  = set_nfft (m_iNfft s)
      <$> spectra fft_kernel generateTapers
            (set_nfft (Z.of_nat (cols (matData first))) s) first.
Proof.
  intros H. unfold spectra. cbn [set_nfft m_iNfft m_dataList m_sWindowType data].
  rewrite (effective_nfft_clamp (m_iNfft s)) by done.
  rewrite (effective_nfft_clamp (Z.of_nat (cols (matData first)))) by lia.
  destruct (compute_all _ _ _ _ _ _ _ _) as [[[trials psd] csd]|]; done.
Qed.

End Unchecked.

(** C6, amended.  The entry points reject no input: the list of trials is
    only tested for being empty.  A configured FFT length that is not above
    the number of samples of the first trial, so every length that is not
    positive, is replaced by that number of samples: the run gives what it
    gives with that number configured, up to the configured length kept in
    the settings.  A run over trials without channels returns and leaves
    the network as it is. *)
Theorem no_input_validation (fft_kernel : list R → nat → complex)
    (generateTapers : Z → string → MatrixXd * list R)
    (s : ConnectivitySettings) (first : ConnectivityTrialData)
    (rest : list ConnectivityTrialData) (net : Network)
    (vecCoherency : list (Z * MatrixXcd))
    (datas : list MatrixXd) (nfft0 : Z) (win : string) (L : nat) :
  m_dataList s = first :: rest →
  (m_iNfft s ≤ Z.of_nat (cols (matData first)))%Z →
  valid_run generateTapers datas win 0 L →
  let samples := Z.of_nat (cols (matData first)) in
  let s0 := new_settings (new_trial <$> datas) nfft0 win in
  calculateReal fft_kernel generateTapers net s
  = keep_nfft (m_iNfft s)
      <$> calculateReal fft_kernel generateTapers net (set_nfft samples s)
  ∧ calculateImag fft_kernel generateTapers net s
    = keep_nfft (m_iNfft s)
        <$> calculateImag fft_kernel generateTapers net (set_nfft samples s)
  ∧ calculate fft_kernel generateTapers vecCoherency s
    = keep_nfft (m_iNfft s)
        <$> calculate fft_kernel generateTapers vecCoherency (set_nfft samples s)
  ∧ (∃ s', calculateReal fft_kernel generateTapers net s0 = Some (net, s'))
  ∧ (∃ s', calculateImag fft_kernel generateTapers net s0 = Some (net, s'))
  ∧ (∃ s', calculate fft_kernel generateTapers vecCoherency s0 = Some ([], s')).
Proof.
  intros Hs Hle Hv samples s0.
  pose proof (spectra_clamp fft_kernel generateTapers s first Hle) as Hsp.
  fold samples in Hsp.
  assert (∀ pairs : list (Z * MatrixXcd), pairs_shape 0 (spec_bins (run_nfft nfft0 L)) pairs
            → pairs = []) as Hnil.
  { intros pairs [Hl _]. by destruct pairs. }
  destruct (run_new_network fft_kernel generateTapers datas nfft0 win 0 L Hv)
    as (r & rs & _ & _ & Hc & _ & HR & HI & HC).
  fold s0 in HR, HI, HC. rewrite (Hnil _ Hc) in HR, HI, HC.
  split_and!.
  - unfold calculateReal. change (m_dataList (set_nfft samples s)) with (m_dataList s).
    rewrite Hs. cbv beta iota. rewrite Hsp.
    destruct (spectra fft_kernel generateTapers (set_nfft samples s) first)
      as [s1|]; cbn; [|done].
    destruct (foldlM _ _ _) as [net'|]; done.
  - unfold calculateImag. change (m_dataList (set_nfft samples s)) with (m_dataList s).
    rewrite Hs. cbv beta iota. rewrite Hsp.
    destruct (spectra fft_kernel generateTapers (set_nfft samples s) first)
      as [s1|]; cbn; [|done].
    destruct (foldlM _ _ _) as [net'|]; done.
  - unfold calculate. change (m_dataList (set_nfft samples s)) with (m_dataList s).
    rewrite Hs. cbv beta iota. rewrite Hsp.
    destruct (spectra fft_kernel generateTapers (set_nfft samples s) first)
      as [s1|]; cbn; [|done].
    destruct (mapM _ _) as [csd|]; done.
  - eexists. apply (HR net). lia.
  - eexists. apply (HI net). lia.
  - eexists. apply HC.
Qed.
(** ** What [compute] reads of a trial, and where it stops *)

Lemma foldlM_ext {I St : Type} (f g : I → St → option St) (idx : list I) (s : St) :
  (∀ i st, i ∈ idx → f i st = g i st) → foldlM f idx s = foldlM g idx s.
Proof.
  revert s. induction idx as [|i idx IH]; intros s H; [done|].
  simpl. rewrite (H i s) by left. destruct (g i s) as [s'|]; [|done]. simpl.
  apply IH. intros j st Hj. apply H. by right.
Qed.

Lemma for_range_ext {St : Type} (f g : nat → St → option St) (lo hi : nat) (s : St) :
  (∀ i st, lo ≤ i < hi → f i st = g i st) →
  for_range lo hi f s = for_range lo hi g s.
Proof.
  intros H. apply foldlM_ext. intros i st Hi. apply H.
  apply elem_of_seq in Hi. lia.
Qed.

Lemma foldlM_None {I St : Type} (f : I → St → option St) (idx : list I) (s : St) i :
  i ∈ idx → (∀ st, f i st = None) → foldlM f idx s = None.
Proof.
  revert s. induction idx as [|j idx IH]; intros s Hi Hf; [by apply elem_of_nil in Hi|].
  simpl. apply elem_of_cons in Hi as [<-|Hi].
  - by rewrite Hf.
  - destruct (f j s) as [s'|]; [|done]. simpl. by apply IH.
Qed.

Lemma for_range_None {St : Type} (f : nat → St → option St) (lo hi i : nat) (s : St) :
  lo ≤ i < hi → (∀ st, f i st = None) → for_range lo hi f s = None.
Proof.
  intros Hi Hf. apply (foldlM_None _ _ _ i); [|done]. apply elem_of_seq. lia.
Qed.

Lemma Rsum_shift (c : R) (l : list R) :
  Rsum ((λ x, x + c)%R <$> l) = (Rsum l + INR (length l) * c)%R.
Proof.
  induction l as [|x l IH]; [simpl; lra|].
  rewrite fmap_cons. cbn [Rsum foldr length]. fold (Rsum ((λ x, x + c)%R <$> l)).
  fold (Rsum l). rewrite IH, S_INR. lra.
Qed.

Lemma mean_shift (c : R) (l : list R) :
  l ≠ [] → mean ((λ x, x + c)%R <$> l) = (mean l + c)%R.
Proof.
  intros Hl. unfold mean. rewrite Rsum_shift, length_fmap.
  assert (INR (length l) ≠ 0)%R.
  { apply not_0_INR. by destruct l. }
  by field.
Qed.

Lemma demeaned_shift (c : R) (l : list R) :
  demeaned ((λ x, x + c)%R <$> l) = demeaned l.
Proof.
  destruct (decide (l = [])) as [->|Hl]; [done|].
  unfold demeaned. rewrite mean_shift by done.
  rewrite <- list_fmap_compose. apply list_fmap_ext. intros _ x _. simpl. lra.
Qed.

Section DataRead.
Context (fft_kernel : list R → nat → complex).

Lemma psd_step_data (d d' : MatrixXd) tapers nfft even den i st :
  demeaned <$> row d' i = demeaned <$> row d i →
  psd_step fft_kernel d' tapers nfft even den i st
  = psd_step fft_kernel d tapers nfft even den i st.
Proof.
  intros H. unfold psd_step. destruct st as [[vts M] psd].
  destruct (row d' i) as [r'|], (row d i) as [r|]; simpl in H; try done.
  injection H as H. cbn [mbind option_bind].
  change ((λ x, x - mean r')%R <$> r') with (demeaned r').
  change ((λ x, x - mean r)%R <$> r) with (demeaned r).
  by rewrite H.
Qed.

(** [compute] reads the data of a trial through the rows of the channels
    below [iNRows], each with its mean removed. *)
Lemma compute_trial_data (d' : MatrixXd) inputData iNRows iNFreqs iNfft tapers :
  (∀ i, i < Z.to_nat iNRows →
        demeaned <$> row d' i = demeaned <$> row (matData inputData) i) →
  compute_trial fft_kernel (with_data d' inputData) iNRows iNFreqs iNfft tapers
  = with_data d'
      <$> compute_trial fft_kernel inputData iNRows iNFreqs iNfft tapers.
Proof.
  intros H. unfold compute_trial.
  destruct (mat_alloc_int (Z.of_nat (rows tapers.1)) iNFreqs Cplx.zero)
    as [M0|]; [|done].
  destruct (mat_alloc_int iNRows iNFreqs 0%R) as [P0|]; [|done].
  cbn [mbind option_bind].
  change (matData (with_data d' inputData)) with d'.
  change (vecPairCsd (with_data d' inputData)) with (vecPairCsd inputData).
  rewrite (for_range_ext
             (psd_step fft_kernel d' tapers iNfft (Z.rem iNfft 2 =? 0)%Z
                (weight_norm2 tapers.2 / 2))
             (psd_step fft_kernel (matData inputData) tapers iNfft
                (Z.rem iNfft 2 =? 0)%Z (weight_norm2 tapers.2 / 2))).
  2:{ intros i st Hi. apply psd_step_data. apply H. lia. }
  destruct (for_range 0 (Z.to_nat iNRows) _ _) as [[[vts M] psd]|]; [|done].
  cbn [mbind option_bind].
  destruct (mat_alloc_int iNRows iNFreqs Cplx.zero) as [C0|]; [|done].
  cbn [mbind option_bind].
  destruct (for_range 0 (Z.to_nat iNRows) _ _) as [[M' pairs]|]; done.
Qed.

Lemma compute_data (d' : MatrixXd) inputData psdSum csdSum iNRows iNFreqs iNfft
    tapers :
  (∀ i, i < Z.to_nat iNRows →
        demeaned <$> row d' i = demeaned <$> row (matData inputData) i) →
  compute fft_kernel (with_data d' inputData) psdSum csdSum iNRows iNFreqs iNfft
    tapers
  = (λ res, (with_data d' res.1.1, res.1.2, res.2))
      <$> compute fft_kernel inputData psdSum csdSum iNRows iNFreqs iNfft tapers.
Proof.
  intros H. unfold compute.
  change (already_computed (with_data d' inputData) iNRows iNFreqs)
    with (already_computed inputData iNRows iNFreqs).
  destruct (already_computed inputData iNRows iNFreqs); [done|].
  rewrite compute_trial_data by done.
  destruct (compute_trial fft_kernel inputData iNRows iNFreqs iNfft tapers)
    as [r|]; [|done].
  cbn [fmap option_fmap option_map mbind option_bind].
  change (merge (with_data d' r) psdSum csdSum) with (merge r psdSum csdSum).
  destruct (merge r psdSum csdSum) as [[p c]|]; done.
Qed.

End DataRead.

(** X1.  In exact arithmetic (the samples are real numbers here),
    [compute] is blind to a constant added to all the samples of a channel:
    it removes the mean of every channel before anything else is computed
    from it (line 392), so such a trial gets the same PSD and the same
    CSDs and changes the two sums in the same way, or fails in the same
    way.  In floating point the mean is rounded, and the two results agree
    up to rounding only, the worse the larger the offset is against the
    signal. *)
Theorem compute_offset_invariant (fft_kernel : list R → nat → complex)
    (offs : list R) (inputData : ConnectivityTrialData) (matPsdSum : MatrixXd)
    (vecPairCsdAvg : list (Z * MatrixXcd)) (iNRows iNFreqs iNfft : Z)
    (tapers : MatrixXd * list R) :
  length offs = rows (matData inputData) →
  compute fft_kernel
    (with_data (shift_channels offs (matData inputData)) inputData)
    matPsdSum vecPairCsdAvg iNRows iNFreqs iNfft tapers
  = (λ res, (with_data (shift_channels offs (matData inputData)) res.1.1,
             res.1.2, res.2))
      <$> compute fft_kernel inputData matPsdSum vecPairCsdAvg iNRows iNFreqs
            iNfft tapers.
Proof.
  intros Hlen. apply compute_data. intros i _.
  unfold row, shift_channels. cbn [m_coeffs].
  rewrite lookup_zip_with.
  destruct (m_coeffs (matData inputData) !! i) as [r|] eqn:Hr.
  - destruct (offs !! i) as [c|] eqn:Hc.
    + simpl. by rewrite demeaned_shift.
    + apply lookup_ge_None in Hc. apply lookup_lt_Some in Hr.
      unfold rows in Hlen. lia.
  - by destruct (offs !! i).
Qed.

(** X2.  [compute] reads the channels below [iNRows] only (the loops of
    lines 390 and 423): on a trial with more channels than the first trial
    of the run it does what it does on the trial cut to the first [iNRows]
    channels; the other channels are never read and nothing reports
    them. *)
Theorem compute_ignores_extra_channels (fft_kernel : list R → nat → complex)
    (inputData : ConnectivityTrialData) (matPsdSum : MatrixXd)
    (vecPairCsdAvg : list (Z * MatrixXcd)) (iNRows iNFreqs iNfft : Z)
    (tapers : MatrixXd * list R) :
  compute fft_kernel inputData matPsdSum vecPairCsdAvg iNRows iNFreqs iNfft tapers
  = (λ res, (with_data (matData inputData) res.1.1, res.1.2, res.2))
      <$> compute fft_kernel
            (with_data (first_channels (Z.to_nat iNRows) (matData inputData))
               inputData)
            matPsdSum vecPairCsdAvg iNRows iNFreqs iNfft tapers.
Proof.
  rewrite <- (compute_data fft_kernel (matData inputData)).
  - by destruct inputData.
  - intros i Hi. unfold row, first_channels. cbn [with_data matData m_coeffs].
    by rewrite lookup_take_lt.
Qed.

Section Failures.
Context (fft_kernel : list R → nat → complex).

Lemma compute_trial_step_None inputData iNRows iNFreqs iNfft tapers i :
  i < Z.to_nat iNRows →
  (∀ st, psd_step fft_kernel (matData inputData) tapers iNfft
           (Z.rem iNfft 2 =? 0)%Z (weight_norm2 tapers.2 / 2) i st = None) →
  compute_trial fft_kernel inputData iNRows iNFreqs iNfft tapers = None.
Proof.
  intros Hi Hstep. unfold compute_trial.
  destruct (mat_alloc_int (Z.of_nat (rows tapers.1)) iNFreqs Cplx.zero)
    as [M0|]; [|done].
  destruct (mat_alloc_int iNRows iNFreqs 0%R) as [P0|]; [|done].
  cbn [mbind option_bind].
  rewrite (for_range_None _ 0 (Z.to_nat iNRows) i); [done|lia|done].
Qed.

End Failures.

(** X3.  A trial that has to be computed and has fewer channels than
    [iNRows] stops [compute] at [inputData.matData.row(i)] (line 392),
    inside the loop over the channels and before the sums are touched. *)
Theorem compute_missing_channel (fft_kernel : list R → nat → complex)
    (inputData : ConnectivityTrialData) (matPsdSum : MatrixXd)
    (vecPairCsdAvg : list (Z * MatrixXcd)) (iNRows iNFreqs iNfft : Z)
    (tapers : MatrixXd * list R) :
  already_computed inputData iNRows iNFreqs = false →
  (Z.of_nat (rows (matData inputData)) < iNRows)%Z →
  compute fft_kernel inputData matPsdSum vecPairCsdAvg iNRows iNFreqs iNfft tapers
  = None.
Proof.
  intros Hm Hr. unfold compute. rewrite Hm.
  rewrite (compute_trial_step_None fft_kernel _ _ _ _ _ (rows (matData inputData)));
    [done|lia|].
  intros [[vts M] psd]. unfold psd_step.
  assert (row (matData inputData) (rows (matData inputData)) = None) as ->; [|done].
  by apply lookup_ge_None.
Qed.

(** X4.  A trial that has to be computed and has a channel whose sample
    count differs from the length of a taper stops [compute] at the
    coefficient-wise product of line 396, before the sums are touched. *)
Theorem compute_sample_mismatch (fft_kernel : list R → nat → complex)
    (inputData : ConnectivityTrialData) (matPsdSum : MatrixXd)
    (vecPairCsdAvg : list (Z * MatrixXcd)) (iNRows iNFreqs iNfft : Z)
    (tapers : MatrixXd * list R) (i j : nat) (dataRow taper : list R) :
  already_computed inputData iNRows iNFreqs = false →
  (Z.of_nat i < iNRows)%Z →
  row (matData inputData) i = Some dataRow →
  row tapers.1 j = Some taper →
  length dataRow ≠ length taper →
  compute fft_kernel inputData matPsdSum vecPairCsdAvg iNRows iNFreqs iNfft tapers
  = None.
Proof.
  intros Hm Hi Hd Ht Hlen. unfold compute. rewrite Hm.
  rewrite (compute_trial_step_None fft_kernel _ _ _ _ _ i); [done|lia|].
  intros [[vts M] psd]. unfold psd_step. rewrite Hd. cbn [mbind option_bind].
  rewrite (for_range_None _ 0 (rows tapers.1) j); [done| |].
  - apply lookup_lt_Some in Ht. unfold rows. lia.
  - intros st. unfold taper_step. rewrite Ht. cbn [mbind option_bind].
    unfold vec_zip. rewrite length_fmap.
    destruct (length dataRow =? length taper) eqn:E; [|done].
    apply Nat.eqb_eq in E. done.
Qed.

(** ** The result of [compute] in closed form *)

Lemma run_nfft_ge nfft0 L : (Z.of_nat L ≤ run_nfft nfft0 L)%Z.
Proof.
  unfold run_nfft. destruct (nfft0 <? Z.of_nat L)%Z eqn:E; [lia|].
  apply Z.ltb_ge in E. lia.
Qed.

Lemma csd_matrix_turn den even F (vts : list MatrixXcd) i Si (rows0 : list (list complex)) :
  vts !! i = Some Si → length rows0 = length vts →
  take i rows0 = (λ Sj, csd_row den even Sj Sj) <$> take i vts →
  mkMatrix F (take i rows0 ++ (csd_row den even Si <$> drop i vts))
  = csd_matrix den even F vts i.
Proof.
  intros HSi Hlen Htake. unfold csd_matrix. f_equal.
  assert (i < length vts) as Hi by by eapply lookup_lt_Some.
  apply list_eq. intros j. rewrite list_lookup_imap, Htake.
  destruct (decide (j < i)) as [Hj|Hj].
  - rewrite lookup_app_l by (rewrite length_fmap, length_take; lia).
    rewrite list_lookup_fmap, lookup_take_lt by done.
    destruct (vts !! j) as [Sj|]; [|done]. simpl.
    by destruct (Nat.ltb_spec j i); [|lia].
  - rewrite lookup_app_r by (rewrite length_fmap, length_take; lia).
    rewrite length_fmap, length_take, list_lookup_fmap, lookup_drop.
    replace (i + (j - i `min` length vts)) with j by lia.
    destruct (vts !! j) as [Sj|]; [|done]. simpl.
    destruct (Nat.ltb_spec j i); [lia|]. by rewrite HSi.
Qed.

Lemma csd_loop_closed vts even den K F iNRows old :
  spectra_wf vts K F → 0 < F → Z.to_nat iNRows = length vts →
  ∃ M',
    for_range 0 (length vts) (csd_step vts even den iNRows)
      (mat_alloc (length vts) F Cplx.zero, old)
    = Some (M', old ++ csd_entries den even F vts).
Proof.
  intros Hvts HF HC.
  destruct (for_range_inv
    (λ i (st : MatrixXcd * list (Z * MatrixXcd)),
       m_cols st.1 = F ∧ length (m_coeffs st.1) = length vts
       ∧ take i (m_coeffs st.1) = (λ Sj, csd_row den even Sj Sj) <$> take i vts
       ∧ st.2 = old ++ ((λ i, (Z.of_nat i, csd_matrix den even F vts i))
                           <$> seq 0 i))
    (csd_step vts even den iNRows) 0 (length vts)
    (mat_alloc (length vts) F Cplx.zero, old))
    as ([M' pairs] & -> & _ & _ & _ & Hp); [lia| | |].
  - cbn [fst snd]. split_and!; [done| |done|].
    + simpl. by rewrite length_replicate.
    + simpl. by rewrite app_nil_r.
  - intros i [M pairs] Hi (H1 & H2 & H3 & Hp).
    cbn [fst snd] in *. subst pairs.
    destruct (lookup_lt_is_Some_2 vts i) as [Si HSi]; [lia|].
    unfold csd_step. rewrite HC.
    rewrite (csd_inner_loop vts even den i K F M Si) by done.
    cbn [mbind option_bind].
    rewrite (csd_matrix_turn den even F vts i Si (m_coeffs M)) by done.
    eexists; split; [done|]. cbn [fst snd].
    split_and!.
    + done.
    + unfold csd_matrix. simpl. by rewrite length_imap.
    + unfold csd_matrix. cbn [m_coeffs].
      rewrite (take_S_r vts i Si) by done. rewrite fmap_app. simpl.
      apply list_eq. intros j.
      destruct (decide (j < S i)) as [Hj|Hj].
      * rewrite lookup_take_lt by done. rewrite list_lookup_imap.
        destruct (decide (j < i)) as [Hji|Hji].
        -- rewrite lookup_app_l by (rewrite length_fmap, length_take; lia).
           rewrite list_lookup_fmap, lookup_take_lt by done.
           destruct (vts !! j) as [Sj|]; [|done]. simpl.
           by destruct (Nat.ltb_spec j i); [|lia].
        -- assert (j = i) as -> by lia.
           rewrite lookup_app_r by (rewrite length_fmap, length_take; lia).
           rewrite length_fmap, length_take.
           replace (i - i `min` length vts) with 0 by lia. simpl.
           rewrite HSi. simpl. by destruct (Nat.ltb_spec i i); [lia|].
      * rewrite lookup_take_ge by lia. symmetry. apply lookup_ge_None.
        rewrite length_app, length_fmap, length_take. simpl. lia.
    + rewrite seq_S, fmap_app, app_assoc. done.
  - exists M'. cbn [snd] in Hp. by rewrite Hp.
Qed.

Section TrialClosed.
Context (fft_kernel : list R → nat → complex).

(** The trial that [compute] leaves, in closed form. *)
Lemma compute_trial_closed inputData iNRows iNFreqs iNfft tapers :
  mat_wf (matData inputData) →
  tapers_wf tapers (cols (matData inputData)) →
  iNRows = Z.of_nat (rows (matData inputData)) →
  (Z.of_nat (cols (matData inputData)) ≤ iNfft)%Z →
  iNFreqs = (iNfft / 2 + 1)%Z →
  let even := (Z.rem iNfft 2 =? 0)%Z in
  let TS := trial_spectra fft_kernel (matData inputData) tapers iNfft in
  compute_trial fft_kernel inputData iNRows iNFreqs iNfft tapers
  = Some (mkTrial (matData inputData)
            (mkMatrix (spec_bins iNfft)
               (psd_row (weight_norm2 tapers.2 / 2) even <$> TS))
            (vecPairCsd inputData
               ++ csd_entries
                    (sqrt (weight_norm2 tapers.2) * sqrt (weight_norm2 tapers.2) / 2)
                    even (spec_bins iNfft) TS)).
Proof.
  intros Hwf Htap -> Hn -> even TS. subst even.
  assert (0 ≤ iNfft)%Z as Hpos by lia.
  assert (length TS = rows (matData inputData)) as HTS.
  { unfold TS, trial_spectra. by rewrite length_fmap. }
  unfold compute_trial.
  assert (0 ≤ iNfft / 2)%Z as Hdiv by (apply Z.div_pos; lia).
  rewrite !mat_alloc_int_Some by lia.
  cbn [mbind option_bind]. rewrite !Nat2Z.id, !to_nat_bins by done.
  destruct (psd_loop fft_kernel (matData inputData) tapers iNfft
              (Z.rem iNfft 2 =? 0)%Z
              (weight_norm2 tapers.2 / 2)
              (mat_alloc (rows tapers.1) (spec_bins iNfft) Cplx.zero))
    as (M' & ->); [done..| |done|].
  { unfold rows, mat_alloc. simpl. by rewrite length_replicate. }
  cbn [mbind option_bind]. fold TS. rewrite <- HTS.
  destruct (csd_loop_closed TS (Z.rem iNfft 2 =? 0)%Z
              (sqrt (weight_norm2 tapers.2) * sqrt (weight_norm2 tapers.2) / 2)
              (rows tapers.1) (spec_bins iNfft)
              (Z.of_nat (length TS)) (vecPairCsd inputData))
    as (M'' & Hloop).
  - by apply trial_spectra_wf.
  - unfold spec_bins. lia.
  - lia.
  - rewrite Hloop. done.
Qed.

End TrialClosed.

(** ** Relations between the CSD and the PSD coefficients *)

Section Arithmetic.
Local Open Scope R_scope.

Lemma dominated_zero : dominated Cplx.zero 0 0.
Proof. unfold dominated, Cplx.abs2. simpl. lra. Qed.

Lemma dominated_base (a b : complex) :
  dominated (Cplx.mul a (Cplx.conj b)) (Cplx.abs2 a) (Cplx.abs2 b).
Proof.
  destruct a as [x y], b as [u v]. unfold dominated, Cplx.abs2. simpl.
  split_and!; [nra..|]. apply Req_le. ring.
Qed.

Lemma dominated_add z1 p1 q1 z2 p2 q2 :
  dominated z1 p1 q1 → dominated z2 p2 q2 →
  dominated (Cplx.add z1 z2) (p1 + p2) (q1 + q2).
Proof.
  destruct z1 as [x1 y1], z2 as [x2 y2]. unfold dominated, Cplx.abs2. simpl.
  intros (Hp1 & Hq1 & H1) (Hp2 & Hq2 & H2). split_and!; [lra..|].
  set (u := x1 * x2 + y1 * y2). set (T := p1 * q2 + p2 * q1).
  assert (0 <= T) as HT by (unfold T; nra).
  assert (u * u <= (x1 * x1 + y1 * y1) * (x2 * x2 + y2 * y2)) as Hu.
  { unfold u. pose proof (Rle_0_sqr (x1 * y2 - y1 * x2)) as Hs.
    unfold Rsqr in Hs. nra. }
  assert ((x1 * x1 + y1 * y1) * (x2 * x2 + y2 * y2) <= (p1 * q1) * (p2 * q2)) as Hm.
  { apply Rmult_le_compat; nra. }
  assert (4 * ((p1 * q1) * (p2 * q2)) <= T * T) as HT2.
  { unfold T. pose proof (Rle_0_sqr (p1 * q2 - p2 * q1)) as Hs.
    unfold Rsqr in Hs. nra. }
  assert (2 * u <= T) as H2u.
  { destruct (Rle_or_lt (2 * u) T) as [?|Hlt]; [done|]. exfalso.
    assert (T * T < (2 * u) * (2 * u)) by nra. nra. }
  unfold u, T in H2u. nra.
Qed.

Lemma dominated_divr z p q c :
  0 <= c → dominated z p q → dominated (Cplx.divr z c) (p / c) (q / c).
Proof.
  destruct z as [x y]. unfold dominated, Cplx.abs2. simpl.
  intros Hc (Hp & Hq & H).
  assert (0 <= / c) as Hi.
  { destruct (Req_dec c 0) as [->|Hne]; [rewrite Rinv_0; lra|].
    left. apply Rinv_0_lt_compat. lra. }
  unfold Rdiv. split_and!; [nra..|].
  replace (x * / c * (x * / c) + y * / c * (y * / c))
    with ((x * x + y * y) * (/ c * / c)) by ring.
  replace (p * / c * (q * / c)) with (p * q * (/ c * / c)) by ring.
  apply Rmult_le_compat_r; nra.
Qed.

Lemma dominated_abs_le_1 z p q :
  dominated z p q → 0 < sqrt p → 0 < sqrt q →
  Cplx.abs (Cplx.divr z (sqrt p * sqrt q)) <= 1.
Proof.
  intros (Hp & Hq & H) Hsp Hsq. unfold Cplx.abs.
  rewrite <- sqrt_1. apply sqrt_le_1_alt.
  destruct z as [x y]. unfold Cplx.abs2 in *. simpl in *.
  set (s := sqrt p * sqrt q).
  assert (0 < s) as Hs by (unfold s; nra).
  assert (s * s = p * q) as Hss.
  { unfold s. replace (sqrt p * sqrt q * (sqrt p * sqrt q))
      with ((sqrt p * sqrt p) * (sqrt q * sqrt q)) by ring.
    by rewrite !sqrt_sqrt. }
  replace (x / s * (x / s) + y / s * (y / s))
    with ((x * x + y * y) / (s * s)) by (field; lra).
  apply Rmult_le_reg_r with (s * s); [nra|].
  unfold Rdiv. rewrite Rmult_assoc, Rinv_l by nra. lra.
Qed.

Lemma auto_term_zero : auto_term Cplx.zero 0 0.
Proof. unfold auto_term. split_and!; [done|done|lra]. Qed.

Lemma auto_term_base (a : complex) :
  auto_term (Cplx.mul a (Cplx.conj a)) (Cplx.abs2 a) (Cplx.abs2 a).
Proof.
  destruct a as [x y]. unfold auto_term, Cplx.mul, Cplx.abs2. simpl.
  split_and!; [f_equal; ring|done|nra].
Qed.

Lemma auto_term_add z1 p1 q1 z2 p2 q2 :
  auto_term z1 p1 q1 → auto_term z2 p2 q2 →
  auto_term (Cplx.add z1 z2) (p1 + p2) (q1 + q2).
Proof.
  intros (-> & -> & ?) (-> & -> & ?). unfold auto_term, Cplx.add. simpl.
  split_and!; [f_equal; lra|done|lra].
Qed.

Lemma auto_term_divr z p q c :
  0 <= c → auto_term z p q → auto_term (Cplx.divr z c) (p / c) (q / c).
Proof.
  intros Hc (-> & -> & Hp). unfold auto_term, Cplx.divr. simpl.
  assert (0 <= / c) as Hi.
  { destruct (Req_dec c 0) as [->|Hne]; [rewrite Rinv_0; lra|].
    left. apply Rinv_0_lt_compat. lra. }
  split_and!; [f_equal; unfold Rdiv; ring|done|unfold Rdiv; nra].
Qed.

Lemma auto_term_one z p q :
  auto_term z p q → 0 < sqrt p →
  Cplx.divr z (sqrt p * sqrt q) = Cplx.mk 1 0.
Proof.
  intros (-> & -> & Hp) Hs. unfold Cplx.divr. simpl. rewrite sqrt_sqrt by done.
  assert (p ≠ 0).
  { intros ->. rewrite sqrt_0 in Hs. lra. }
  f_equal; field; done.
Qed.

End Arithmetic.

Lemma dominated_closed : sum_closed dominated.
Proof.
  split_and!; [apply dominated_zero|apply dominated_add|].
  intros. by apply dominated_divr.
Qed.

Lemma auto_term_closed : sum_closed auto_term.
Proof.
  split_and!; [apply auto_term_zero|apply auto_term_add|].
  intros. by apply auto_term_divr.
Qed.

Section Closed.
Context (Rel : complex → R → R → Prop) (HRel : sum_closed Rel).

Lemma rel_sums {T : Type} (f : T → complex) (g h : T → R) (l : list T) :
  (∀ t, t ∈ l → Rel (f t) (g t) (h t)) →
  Rel (Csum (f <$> l)) (Rsum (g <$> l)) (Rsum (h <$> l)).
Proof.
  destruct HRel as (H0 & Hadd & _).
  induction l as [|t l IH]; intros H; [done|].
  rewrite !fmap_cons. cbn [Csum Rsum foldr]. apply Hadd.
  - apply H. by left.
  - apply IH. intros t' Ht'. apply H. by right.
Qed.

Lemma rel_halving nfft k z p q :
  (∀ z p q c, (0 <= c)%R → Rel z p q →
     Rel (Cplx.divr z c) (p / c)%R (q / c)%R) →
  Rel z p q →
  Rel (spec_halving (λ z, Cplx.divr z 2) nfft k z)
    (spec_halving (λ x, x / 2)%R nfft k p)
    (spec_halving (λ x, x / 2)%R nfft k q).
Proof.
  intros Hdiv H. unfold spec_halving.
  destruct (k =? 0); destruct (Z.even nfft && (k =? spec_bins nfft - 1));
    repeat (apply Hdiv; [lra|]); done.
Qed.

Lemma rel_spec (fft_kernel : list R → nat → complex) d tapers nfft i j k :
  (∀ t, Rel (Cplx.mul (spec_spectrum fft_kernel d tapers nfft i t k)
               (Cplx.conj (spec_spectrum fft_kernel d tapers nfft j t k)))
          (Cplx.abs2 (spec_spectrum fft_kernel d tapers nfft i t k))
          (Cplx.abs2 (spec_spectrum fft_kernel d tapers nfft j t k))) →
  Rel (spec_csd fft_kernel d tapers nfft i j k)
    (spec_psd fft_kernel d tapers nfft i k)
    (spec_psd fft_kernel d tapers nfft j k).
Proof.
  intros Hbase. unfold spec_csd, spec_psd.
  destruct HRel as (_ & _ & Hdiv). apply rel_halving; [done|]. apply Hdiv.
  - unfold spec_denominator. pose proof (weight_norm2_nonneg tapers.2) as H.
    unfold weight_norm2 in H. lra.
  - apply rel_sums. intros t _. apply Hbase.
Qed.

Lemma holds_at_plus Idx c1 p1 c2 p2 :
  holds_at Rel Idx c1 p1 → holds_at Rel Idx c2 p2 →
  holds_at Rel Idx (pairs_plus c1 c2) (mat_plus p1 p2).
Proof.
  destruct HRel as (_ & Hadd & _).
  intros H1 H2 i j k e z p q Hij He Hz Hp Hq.
  unfold pairs_plus in He. apply lookup_zip_with_Some in He
    as (e1 & e2 & -> & He1 & He2).
  unfold coeff, row in *. cbn [snd cmat_plus mat_plus m_coeffs] in *.
  destruct (zip_with (zip_with Cplx.add) (m_coeffs e1.2) (m_coeffs e2.2) !! j)
    as [rz|] eqn:Erz; [|done].
  apply lookup_zip_with_Some in Erz as (rz1 & rz2 & -> & Hrz1 & Hrz2).
  cbn [mbind option_bind] in Hz.
  apply lookup_zip_with_Some in Hz as (z1 & z2 & -> & Hz1 & Hz2).
  destruct (zip_with (zip_with Rplus) (m_coeffs p1) (m_coeffs p2) !! i)
    as [rp|] eqn:Erp; [|done].
  apply lookup_zip_with_Some in Erp as (rp1 & rp2 & -> & Hrp1 & Hrp2).
  cbn [mbind option_bind] in Hp.
  apply lookup_zip_with_Some in Hp as (a1 & a2 & -> & Ha1 & Ha2).
  destruct (zip_with (zip_with Rplus) (m_coeffs p1) (m_coeffs p2) !! j)
    as [rq|] eqn:Erq; [|done].
  apply lookup_zip_with_Some in Erq as (rq1 & rq2 & -> & Hrq1 & Hrq2).
  cbn [mbind option_bind] in Hq.
  apply lookup_zip_with_Some in Hq as (b1 & b2 & -> & Hb1 & Hb2).
  apply Hadd.
  - apply (H1 i j k e1); [done..| | |].
    + unfold coeff, row. by rewrite Hrz1.
    + unfold coeff, row. by rewrite Hrp1.
    + unfold coeff, row. by rewrite Hrq1.
  - apply (H2 i j k e2); [done..| | |].
    + unfold coeff, row. by rewrite Hrz2.
    + unfold coeff, row. by rewrite Hrp2.
    + unfold coeff, row. by rewrite Hrq2.
Qed.

Lemma holds_at_total Idx (rs : list ConnectivityTrialData) c p :
  holds_at Rel Idx c p →
  Forall (λ r, holds_at Rel Idx (vecPairCsd r) (matPsd r)) rs →
  holds_at Rel Idx (foldl pairs_plus c (vecPairCsd <$> rs))
    (foldl mat_plus p (matPsd <$> rs)).
Proof.
  intros H0 Hrs. revert c p H0.
  induction Hrs as [|r rs Hr _ IH]; intros c p H0; [done|].
  simpl. apply IH. by apply holds_at_plus.
Qed.

End Closed.

Section ResultCoeffs.
Context (fft_kernel : list R → nat → complex).

Lemma result_closed d C L nfft tapers r :
  data_shape C L d → tapers_wf tapers L → (Z.of_nat L ≤ nfft)%Z →
  result_of fft_kernel C nfft tapers d r →
  let TS := trial_spectra fft_kernel d tapers nfft in
  r = mkTrial d
        (mkMatrix (spec_bins nfft)
           (psd_row (weight_norm2 tapers.2 / 2) (Z.rem nfft 2 =? 0)%Z <$> TS))
        (csd_entries
           (sqrt (weight_norm2 tapers.2) * sqrt (weight_norm2 tapers.2) / 2)
           (Z.rem nfft 2 =? 0)%Z (spec_bins nfft) TS).
Proof.
  intros (Hwf & HC & HL) Htap Hn Hr TS. unfold result_of in Hr.
  rewrite (compute_trial_closed fft_kernel (new_trial d)) in Hr; cbn [matData new_trial];
    [|done|by rewrite HL|by rewrite HC|by rewrite HL|done].
  injection Hr as <-. done.
Qed.

Lemma spectra_lookup d tapers nfft i S :
  trial_spectra fft_kernel d tapers nfft !! i = Some S →
  ∃ dataRow, row d i = Some dataRow
    ∧ S = mkMatrix (spec_bins nfft)
            (tap_rows fft_kernel (demeaned dataRow) tapers nfft).
Proof.
  unfold trial_spectra, row. rewrite list_lookup_fmap.
  destruct (m_coeffs d !! i) as [dataRow|]; [|done]. simpl.
  intros [= <-]. by exists dataRow.
Qed.

Lemma result_coeffs d C L nfft tapers r :
  data_shape C L d → tapers_wf tapers L → (Z.of_nat L ≤ nfft)%Z →
  result_of fft_kernel C nfft tapers d r →
  (∀ i k p, coeff (matPsd r) i k = Some p →
            p = spec_psd fft_kernel d tapers nfft i k)
  ∧ (∀ i j k e z, i ≤ j → vecPairCsd r !! i = Some e →
       coeff e.2 j k = Some z → z = spec_csd fft_kernel d tapers nfft i j k)
  ∧ (∀ i j k e z, j < i → vecPairCsd r !! i = Some e →
       coeff e.2 j k = Some z → z = spec_csd fft_kernel d tapers nfft j j k).
Proof.
  intros Hd Htap Hn Hr.
  pose proof (result_closed d C L nfft tapers r Hd Htap Hn Hr) as Hcl.
  destruct Hd as (Hwf & HC & HL). simpl in Hcl.
  set (TS := trial_spectra fft_kernel d tapers nfft) in *.
  assert (spectra_wf TS (rows tapers.1) (spec_bins nfft)) as HTS.
  { apply trial_spectra_wf; [done|by rewrite HL|by rewrite HL]. }
  assert (∀ i dataRow, row d i = Some dataRow → length dataRow = L) as Hlen.
  { intros i dataRow Hrow. rewrite <- HL.
    exact (Forall_lookup_1 _ _ _ _ Hwf Hrow). }
  assert (∀ i j k e z Si, vecPairCsd r !! i = Some e →
            coeff e.2 j k = Some z → TS !! (if j <? i then j else i) = Some Si →
            ∃ Sj, TS !! j = Some Sj ∧ k < spec_bins nfft ∧
              csd_row (sqrt (weight_norm2 tapers.2) * sqrt (weight_norm2 tapers.2) / 2)
                (Z.rem nfft 2 =? 0)%Z Si Sj !! k = Some z) as Hcsd.
  { intros i j k e z Si He Hz HSi. rewrite Hcl in He. cbn [vecPairCsd] in He.
    unfold csd_entries in He. rewrite list_lookup_fmap in He.
    destruct (seq 0 (length TS) !! i) as [i'|] eqn:Ei; [|done].
    apply lookup_seq in Ei as [-> Hi]. simpl in He. injection He as <-.
    unfold coeff, row, csd_matrix in Hz. cbn [snd m_coeffs] in Hz.
    rewrite list_lookup_imap in Hz.
    destruct (TS !! j) as [Sj|] eqn:ESj; [|done]. simpl in Hz.
    exists Sj. split; [done|].
    assert (csd_row (sqrt (weight_norm2 tapers.2) * sqrt (weight_norm2 tapers.2) / 2)
              (Z.rem nfft 2 =? 0)%Z Si Sj !! k = Some z) as Hk.
    { destruct (j <? i) eqn:Eji.
      - rewrite ESj in HSi. by injection HSi as <-.
      - rewrite HSi in Hz. done. }
    split; [|done].
    apply lookup_lt_Some in Hk.
    pose proof (Forall_lookup_1 _ _ _ _ HTS ESj) as (? & ? & ?).
    pose proof (Forall_lookup_1 _ _ _ _ HTS HSi) as (? & ? & ?).
    by rewrite (csd_row_length _ _ Si Sj (rows tapers.1) (spec_bins nfft)) in Hk. }
  split_and!.
  - intros i k p Hp. rewrite Hcl in Hp. unfold coeff, row in Hp.
    cbn [matPsd m_coeffs] in Hp. rewrite list_lookup_fmap in Hp.
    destruct (TS !! i) as [S|] eqn:ES; [|done]. simpl in Hp.
    destruct (spectra_lookup _ _ _ _ _ ES) as (dataRow & Hrow & ->).
    pose proof (Forall_lookup_1 _ _ _ _ HTS ES) as (HwS & HcS & _).
    assert (k < spec_bins nfft) as Hk.
    { apply lookup_lt_Some in Hp. by rewrite psd_row_length in Hp. }
    rewrite (psd_row_lookup fft_kernel d tapers nfft i k dataRow) in Hp;
      [congruence|done| | |done]; by rewrite (Hlen i dataRow).
  - intros i j k e z Hij He Hz.
    assert (i < length TS) as Hi.
    { rewrite Hcl in He. cbn [vecPairCsd] in He. apply lookup_lt_Some in He.
      unfold csd_entries in He. by rewrite length_fmap, length_seq in He. }
    destruct (lookup_lt_is_Some_2 TS i Hi) as [Si HSi].
    destruct (Hcsd i j k e z Si He Hz) as (Sj & HSj & Hk & Hrow).
    { by destruct (Nat.ltb_spec j i); [lia|]. }
    destruct (spectra_lookup _ _ _ _ _ HSi) as (rowi & Hri & ->).
    destruct (spectra_lookup _ _ _ _ _ HSj) as (rowj & Hrj & ->).
    rewrite (csd_row_lookup fft_kernel d tapers nfft i j k rowi rowj) in Hrow;
      [congruence|done|done| | | |done].
    + by rewrite (Hlen i rowi), (Hlen j rowj).
    + by rewrite (Hlen i rowi).
    + by rewrite (Hlen i rowi).
  - intros i j k e z Hji He Hz.
    assert (j < length TS) as Hj.
    { rewrite Hcl in He. cbn [vecPairCsd] in He. apply lookup_lt_Some in He.
      unfold csd_entries in He. rewrite length_fmap, length_seq in He. lia. }
    destruct (lookup_lt_is_Some_2 TS j Hj) as [Sj0 HSj0].
    destruct (Hcsd i j k e z Sj0 He Hz) as (Sj & HSj & Hk & Hrow).
    { by destruct (Nat.ltb_spec j i); [|lia]. }
    assert (Sj = Sj0) as -> by congruence.
    destruct (spectra_lookup _ _ _ _ _ HSj) as (rowj & Hrj & ->).
    rewrite (csd_row_lookup fft_kernel d tapers nfft j j k rowj rowj) in Hrow;
      [congruence|done|done|done| | |done]; by rewrite (Hlen j rowj).
Qed.

Lemma result_holds_at (Rel : complex → R → R → Prop) (Idx : nat → nat → Prop)
    d C L nfft tapers r :
  sum_closed Rel →
  (∀ i j, Idx i j → i ≤ j) →
  (∀ i j t k, Idx i j →
     Rel (Cplx.mul (spec_spectrum fft_kernel d tapers nfft i t k)
            (Cplx.conj (spec_spectrum fft_kernel d tapers nfft j t k)))
       (Cplx.abs2 (spec_spectrum fft_kernel d tapers nfft i t k))
       (Cplx.abs2 (spec_spectrum fft_kernel d tapers nfft j t k))) →
  data_shape C L d → tapers_wf tapers L → (Z.of_nat L ≤ nfft)%Z →
  result_of fft_kernel C nfft tapers d r →
  holds_at Rel Idx (vecPairCsd r) (matPsd r).
Proof.
  intros HRel Hle Hbase Hd Htap Hn Hr.
  destruct (result_coeffs d C L nfft tapers r Hd Htap Hn Hr) as (Hp & Hc & _).
  intros i j k e z p q Hij He Hz Hpi Hqj.
  rewrite (Hp _ _ _ Hpi), (Hp _ _ _ Hqj), (Hc i j k e z (Hle _ _ Hij) He Hz).
  apply rel_spec; [done|]. intros t. by apply Hbase.
Qed.

End ResultCoeffs.

Lemma coherency_coeff (e : Z * MatrixXcd) (S : MatrixXd) j k c :
  coeff (coherency_matrix e S) j k = Some c →
  ∃ z si sj, coeff e.2 j k = Some z ∧ coeff S (Z.to_nat e.1) k = Some si
    ∧ coeff S j k = Some sj ∧ c = Cplx.divr z (si * sj)%R.
Proof.
  unfold coeff, row, coherency_matrix. cbn [m_coeffs]. intros H.
  destruct (zip_with _ _ _ !! j) as [rc|] eqn:E; [|done].
  cbn [mbind option_bind] in H.
  apply lookup_zip_with_Some in E as (rz & rp & -> & Hrz & Hrp).
  apply lookup_zip_with_Some in H as (z & x & -> & Hz & Hx).
  rewrite list_lookup_fmap in Hrp.
  destruct (m_coeffs S !! j) as [rj|] eqn:Erj; [|done].
  simpl in Hrp. injection Hrp as <-.
  apply lookup_zip_with_Some in Hx as (si & sj & -> & Hsi & Hsj).
  unfold row in Hsi.
  destruct (m_coeffs S !! Z.to_nat e.1) as [ri|] eqn:Eri; [|done].
  simpl in Hsi. exists z, si, sj. rewrite Hrz. simpl. done.
Qed.

Lemma mat_map_coeff {A B : Type} (f : A → B) (M : Matrix A) i k y :
  coeff (mat_map f M) i k = Some y →
  ∃ x, coeff M i k = Some x ∧ y = f x.
Proof.
  unfold coeff, row, mat_map. cbn [m_coeffs]. rewrite list_lookup_fmap.
  destruct (m_coeffs M !! i) as [r|]; [|done]. simpl.
  rewrite list_lookup_fmap. destruct (r !! k) as [x|]; [|done]. simpl.
  intros [= <-]. by exists x.
Qed.

Lemma normalised_lookup pairs psd i e :
  normalised pairs psd !! i = Some e →
  ∃ e0, pairs !! i = Some e0 ∧ e = (e0.1, coherency_matrix e0 psd).
Proof.
  unfold normalised. rewrite list_lookup_fmap.
  destruct (pairs !! i) as [e0|]; [|done]. simpl. intros [= <-]. by exists e0.
Qed.

Section RunCoeffs.
Context (fft_kernel : list R → nat → complex).
Context (generateTapers : Z → string → MatrixXd * list R).

Lemma run_holds_at (Rel : complex → R → R → Prop) (Idx : nat → nat → Prop)
    datas nfft0 win C L r rs :
  sum_closed Rel →
  (∀ i j, Idx i j → i ≤ j) →
  (∀ d i j t k, d ∈ datas → Idx i j →
     let s := spec_spectrum fft_kernel d (generateTapers (Z.of_nat L) win)
                (run_nfft nfft0 L) in
     Rel (Cplx.mul (s i t k) (Cplx.conj (s j t k)))
       (Cplx.abs2 (s i t k)) (Cplx.abs2 (s j t k))) →
  valid_run generateTapers datas win C L →
  Forall2 (result_of fft_kernel C (run_nfft nfft0 L)
             (generateTapers (Z.of_nat L) win)) datas (r :: rs) →
  holds_at Rel Idx (csd_total r rs) (psd_total r rs).
Proof.
  intros HRel Hle Hbase (_ & Hd & Htap) HF.
  assert (Z.of_nat L ≤ run_nfft nfft0 L)%Z as HLn.
  { unfold run_nfft. destruct (nfft0 <? Z.of_nat L)%Z eqn:E; [lia|].
    apply Z.ltb_ge in E. lia. }
  assert (Forall (λ r, holds_at Rel Idx (vecPairCsd r) (matPsd r)) (r :: rs)) as Hall.
  { apply Forall_forall. intros t Ht. apply list_elem_of_lookup in Ht as [n Hn].
    destruct (Forall2_lookup_r _ _ _ _ _ HF Hn) as (dx & Hdx & Hr).
    pose proof (Forall_lookup_1 _ _ _ _ Hd Hdx) as Hsh.
    eapply (result_holds_at fft_kernel); [done|done| |done..].
    intros i j t0 k Hij. apply Hbase; [|done]. by eapply list_elem_of_lookup_2. }
  apply Forall_cons in Hall as [H0 Hrs].
  by apply holds_at_total.
Qed.

End RunCoeffs.

(** X8.  After [calculate] on new trials, every coefficient of the
    returned matrices that belongs to a pair (i, j) of channels with
    i <= j has magnitude at most 1, wherever the square-rooted PSD sums of
    both channels are positive (Cauchy-Schwarz over the trials and the
    tapers). *)
Theorem coherency_bounded (fft_kernel : list R → nat → complex)
    (generateTapers : Z → string → MatrixXd * list R)
    (datas : list MatrixXd) (nfft0 : Z) (win : string) (C L : nat)
    (vecCoherency : list (Z * MatrixXcd)) :
  valid_run generateTapers datas win C L →
  ∃ v s',
    calculate fft_kernel generateTapers vecCoherency
      (new_settings (new_trial <$> datas) nfft0 win) = Some (v, s')
    ∧ ∀ i j k e c si sj,
        i ≤ j → v !! i = Some e → coeff e.2 j k = Some c →
        coeff (matPsdSum (data s')) i k = Some si →
        coeff (matPsdSum (data s')) j k = Some sj →
        (0 < si)%R → (0 < sj)%R → (Cplx.abs c <= 1)%R.
Proof.
  intros Hv.
  destruct (run_new_network fft_kernel generateTapers datas nfft0 win C L Hv)
    as (r & rs & HF & Hp & Hc & Hi & _ & _ & HC).
  eexists _, _. split; [apply HC|]. cbn [data matPsdSum].
  intros i j k e c si sj Hij He Hcf Hsi Hsj Hpi Hpj.
  apply normalised_lookup in He as (e0 & He0 & ->). cbn [snd] in Hcf.
  apply coherency_coeff in Hcf as (z & si' & sj' & Hz & Hsi' & Hsj' & ->).
  rewrite (Hi _ _ He0), Nat2Z.id in Hsi'.
  assert (si' = si) as -> by congruence. assert (sj' = sj) as -> by congruence.
  apply mat_map_coeff in Hsi as (p & Hp0 & ->).
  apply mat_map_coeff in Hsj as (q & Hq0 & ->).
  apply (dominated_abs_le_1 z p q); [|done..].
  apply (run_holds_at fft_kernel generateTapers dominated le
           datas nfft0 win C L r rs dominated_closed) in HF; [|done| |done].
  - by apply (HF i j k e0).
  - intros. apply dominated_base.
Qed.

(** X9.  In exact arithmetic, after [calculate] on new trials, row i of
    the matrix returned for channel i is 1 at every bin at which the
    square-rooted PSD sum of the channel is positive: the coefficient is
    the quotient p / (sqrt p * sqrt p) of the PSD sum p, without imaginary
    part.  In floating point this quotient is 1 up to rounding. *)
Theorem coherency_diagonal (fft_kernel : list R → nat → complex)
    (generateTapers : Z → string → MatrixXd * list R)
    (datas : list MatrixXd) (nfft0 : Z) (win : string) (C L : nat)
    (vecCoherency : list (Z * MatrixXcd)) :
  valid_run generateTapers datas win C L →
  ∃ v s',
    calculate fft_kernel generateTapers vecCoherency
      (new_settings (new_trial <$> datas) nfft0 win) = Some (v, s')
    ∧ ∀ i k e c si,
        v !! i = Some e → coeff e.2 i k = Some c →
        coeff (matPsdSum (data s')) i k = Some si →
        (0 < si)%R → c = Cplx.mk 1 0.
Proof.
  intros Hv.
  destruct (run_new_network fft_kernel generateTapers datas nfft0 win C L Hv)
    as (r & rs & HF & Hp & Hc & Hi & _ & _ & HC).
  eexists _, _. split; [apply HC|]. cbn [data matPsdSum].
  intros i k e c si He Hcf Hsi Hpi.
  apply normalised_lookup in He as (e0 & He0 & ->). cbn [snd] in Hcf.
  apply coherency_coeff in Hcf as (z & si' & sj' & Hz & Hsi' & Hsj' & ->).
  rewrite (Hi _ _ He0), Nat2Z.id in Hsi'.
  assert (si' = si) as -> by congruence. assert (sj' = si) as -> by congruence.
  apply mat_map_coeff in Hsi as (p & Hp0 & ->).
  apply (auto_term_one z p p); [|done].
  apply (run_holds_at fft_kernel generateTapers auto_term eq
           datas nfft0 win C L r rs auto_term_closed) in HF; [|lia| |done].
  - by apply (HF i i k e0).
  - intros d i0 j0 t k0 _ <-. apply auto_term_base.
Qed.

(** X7.  In the result that [compute] stores in a new trial every PSD
    coefficient is non-negative, and row i of the CSD matrix of channel i
    is the PSD row of channel i, with imaginary part zero.  (With all taper
    weights zero the C++ quotients are not numbers; such tapers are left
    out.) *)
Theorem compute_auto_spectrum (fft_kernel : list R → nat → complex)
    (d : MatrixXd) (C L : nat) (nfft : Z) (tapers : MatrixXd * list R) :
  data_shape C L d → tapers_wf tapers L → (Z.of_nat L ≤ nfft)%Z →
  (0 < weight_norm2 tapers.2)%R →
  ∃ r,
    compute_trial fft_kernel (new_trial d) (Z.of_nat C) (nfft / 2 + 1) nfft tapers
    = Some r
    ∧ (∀ i k p, coeff (matPsd r) i k = Some p → (0 <= p)%R)
    ∧ (∀ i k e z p,
         vecPairCsd r !! i = Some e → coeff e.2 i k = Some z →
         coeff (matPsd r) i k = Some p → z = Cplx.mk p 0).
Proof.
  intros Hd Htap Hn _.
  destruct (compute_new_trial fft_kernel d C L nfft tapers Hd Htap Hn)
    as (r & Hr & _).
  exists r. split; [done|].
  destruct (result_coeffs fft_kernel d C L nfft tapers r Hd Htap Hn Hr)
    as (Hp & Hc & _).
  assert (∀ i k, auto_term (spec_csd fft_kernel d tapers nfft i i k)
                   (spec_psd fft_kernel d tapers nfft i k)
                   (spec_psd fft_kernel d tapers nfft i k)) as Hauto.
  { intros i k. apply rel_spec; [apply auto_term_closed|].
    intros t. apply auto_term_base. }
  split.
  - intros i k p Hpk. rewrite (Hp _ _ _ Hpk). apply (Hauto i k).
  - intros i k e z p He Hz Hpk.
    rewrite (Hp _ _ _ Hpk), (Hc i i k e z (le_n i) He Hz). apply (Hauto i k).
Qed.

(** X6.  [matCsd] is allocated once and reused for every channel
    (lines 421 to 435), and the turn of channel i assigns its rows from i
    on only: in the matrix stored for channel i, a row j below i is not the
    CSD of the pair (i, j) but what the turn of channel j left there, the
    row j of the matrix stored for channel j. *)
Theorem compute_lower_rows (fft_kernel : list R → nat → complex)
    (d : MatrixXd) (C L : nat) (nfft : Z) (tapers : MatrixXd * list R) :
  data_shape C L d → tapers_wf tapers L → (Z.of_nat L ≤ nfft)%Z →
  ∃ r,
    compute_trial fft_kernel (new_trial d) (Z.of_nat C) (nfft / 2 + 1) nfft tapers
    = Some r
    ∧ ∀ i j, j < i < C →
        ∃ ei ej rw,
          vecPairCsd r !! i = Some ei ∧ vecPairCsd r !! j = Some ej
          ∧ row ei.2 j = Some rw ∧ row ej.2 j = Some rw.
Proof.
  intros Hd Htap Hn.
  destruct (compute_new_trial fft_kernel d C L nfft tapers Hd Htap Hn)
    as (r & Hr & _).
  exists r. split; [done|].
  rewrite (result_closed fft_kernel d C L nfft tapers r Hd Htap Hn Hr).
  cbn [vecPairCsd].
  set (TS := trial_spectra fft_kernel d tapers nfft).
  assert (length TS = C) as HTS.
  { unfold TS, trial_spectra. rewrite length_fmap. apply Hd. }
  intros i j Hij.
  destruct (lookup_lt_is_Some_2 TS j) as [Sj HSj]; [lia|].
  eexists _, _, _. unfold csd_entries. rewrite !list_lookup_fmap.
  rewrite !lookup_seq_lt by lia. cbn [Nat.add fmap option_fmap option_map].
  split_and!; [done|done| |].
  - unfold row, csd_matrix. cbn [snd m_coeffs]. rewrite list_lookup_imap, HSj.
    cbn [fmap option_fmap option_map].
    by destruct (Nat.ltb_spec j i); [|lia].
  - unfold row, csd_matrix. cbn [snd m_coeffs]. rewrite list_lookup_imap, HSj.
    cbn [fmap option_fmap option_map].
    destruct (Nat.ltb_spec j j); [lia|]. destruct (Nat.ltb_spec j i); [done|lia].
Qed.

(** X5.  [compute] appends to [inputData.vecPairCsd] (line 435) and never
    clears it: a trial that holds CSD entries and has to be computed keeps
    them in front of the new ones, and then fails the test of lines 358 to
    360 for the same sizes, so that it is computed again, and grows again,
    at every later call. *)
Theorem compute_appends_entries (fft_kernel : list R → nat → complex)
    (inputData : ConnectivityTrialData) (iNfft : Z)
    (tapers : MatrixXd * list R) :
  mat_wf (matData inputData) →
  tapers_wf tapers (cols (matData inputData)) →
  (Z.of_nat (cols (matData inputData)) ≤ iNfft)%Z →
  let iNRows := Z.of_nat (rows (matData inputData)) in
  let iNFreqs := (iNfft / 2 + 1)%Z in
  ∃ r,
    compute_trial fft_kernel inputData iNRows iNFreqs iNfft tapers = Some r
    ∧ take (length (vecPairCsd inputData)) (vecPairCsd r) = vecPairCsd inputData
    ∧ length (vecPairCsd r)
      = length (vecPairCsd inputData) + rows (matData inputData)
    ∧ (vecPairCsd inputData ≠ [] → already_computed r iNRows iNFreqs = false).
Proof.
  intros Hwf Htap Hn iNRows iNFreqs.
  eexists. split; [by apply compute_trial_closed|]. cbn [vecPairCsd].
  assert (length (csd_entries
            (sqrt (weight_norm2 tapers.2) * sqrt (weight_norm2 tapers.2) / 2)
            (Z.rem iNfft 2 =? 0)%Z (spec_bins iNfft)
            (trial_spectra fft_kernel (matData inputData) tapers iNfft))
          = rows (matData inputData)) as Hlen.
  { unfold csd_entries, trial_spectra. by rewrite length_fmap, length_seq, length_fmap. }
  split_and!.
  - by rewrite take_app_length.
  - by rewrite length_app, Hlen.
  - intros Hne. unfold already_computed. cbn [vecPairCsd].
    rewrite length_app, Hlen.
    destruct (Z.eqb_spec
                (Z.of_nat (length (vecPairCsd inputData) + rows (matData inputData)))
                iNRows) as [E|_]; [|done].
    exfalso. unfold iNRows in E. destruct (vecPairCsd inputData); [done|].
    simpl in E. lia.
Qed.

Section Tight.
Local Open Scope R_scope.

Lemma tight_base (a b : complex) :
  tight (Cplx.mul a (Cplx.conj b)) (Cplx.abs2 a) (Cplx.abs2 b).
Proof.
  destruct a as [x y], b as [u v]. unfold tight, Cplx.abs2. simpl.
  split_and!; [nra..|]. ring.
Qed.

Lemma tight_divr z p q c :
  0 <= c → tight z p q → tight (Cplx.divr z c) (p / c) (q / c).
Proof.
  destruct z as [x y]. unfold tight, Cplx.abs2. simpl.
  intros Hc (Hp & Hq & H).
  assert (0 <= / c) as Hi.
  { destruct (Req_dec c 0) as [->|Hne]; [rewrite Rinv_0; lra|].
    left. apply Rinv_0_lt_compat. lra. }
  unfold Rdiv. split_and!; [nra..|].
  replace (x * / c * (x * / c) + y * / c * (y * / c))
    with ((x * x + y * y) * (/ c * / c)) by ring.
  rewrite H. ring.
Qed.

Lemma tight_single z p q :
  tight z p q → tight (Cplx.add z Cplx.zero) (p + 0) (q + 0).
Proof.
  destruct z as [x y]. unfold tight, Cplx.abs2, Cplx.add. simpl.
  intros (Hp & Hq & H). rewrite !Rplus_0_r. done.
Qed.

Lemma tight_abs_1 z p q :
  tight z p q → 0 < sqrt p → 0 < sqrt q →
  Cplx.abs (Cplx.divr z (sqrt p * sqrt q)) = 1.
Proof.
  intros (Hp & Hq & H) Hsp Hsq. unfold Cplx.abs.
  rewrite <- sqrt_1. f_equal.
  destruct z as [x y]. unfold Cplx.abs2 in *. simpl in *.
  set (s := sqrt p * sqrt q).
  assert (0 < s) as Hs by (unfold s; nra).
  assert (s * s = p * q) as Hss.
  { unfold s. replace (sqrt p * sqrt q * (sqrt p * sqrt q))
      with ((sqrt p * sqrt p) * (sqrt q * sqrt q)) by ring.
    by rewrite !sqrt_sqrt. }
  replace (x / s * (x / s) + y / s * (y / s))
    with ((x * x + y * y) / (s * s)) by (field; lra).
  rewrite H, Hss. field. nra.
Qed.

End Tight.

Lemma tight_spec (fft_kernel : list R → nat → complex) d tapers nfft i j k :
  rows tapers.1 = 1 →
  tight (spec_csd fft_kernel d tapers nfft i j k)
    (spec_psd fft_kernel d tapers nfft i k)
    (spec_psd fft_kernel d tapers nfft j k).
Proof.
  intros HK. unfold spec_csd, spec_psd. rewrite HK.
  apply rel_halving; [intros; by apply tight_divr|].
  apply tight_divr.
  - unfold spec_denominator. pose proof (weight_norm2_nonneg tapers.2) as H.
    unfold weight_norm2 in H. lra.
  - cbn [seq fmap list_fmap Csum Rsum foldr]. apply tight_single, tight_base.
Qed.

(** X11.  In exact arithmetic, with one trial and one taper nothing is
    averaged: [calculate] returns coefficients of magnitude 1 for every
    pair (i, j) with i <= j, wherever the square-rooted PSD sums of both
    channels are positive.  In floating point the magnitude is 1 up to
    rounding. *)
Theorem single_taper_trial_unit (fft_kernel : list R → nat → complex)
    (generateTapers : Z → string → MatrixXd * list R)
    (d : MatrixXd) (nfft0 : Z) (win : string) (C L : nat)
    (vecCoherency : list (Z * MatrixXcd)) :
  data_shape C L d → tapers_wf (generateTapers (Z.of_nat L) win) L →
  rows (generateTapers (Z.of_nat L) win).1 = 1 →
  ∃ v s',
    calculate fft_kernel generateTapers vecCoherency
      (new_settings (new_trial <$> [d]) nfft0 win) = Some (v, s')
    ∧ ∀ i j k e c si sj,
        i ≤ j → v !! i = Some e → coeff e.2 j k = Some c →
        coeff (matPsdSum (data s')) i k = Some si →
        coeff (matPsdSum (data s')) j k = Some sj →
        (0 < si)%R → (0 < sj)%R → Cplx.abs c = 1%R.
Proof.
  intros Hd Htap HK.
  assert (valid_run generateTapers [d] win C L) as Hv.
  { split_and!; [done|by apply Forall_singleton|done]. }
  destruct (run_new_network fft_kernel generateTapers [d] nfft0 win C L Hv)
    as (r & rs & HF & Hp & Hc & Hi & _ & _ & HC).
  apply Forall2_cons_inv_l in HF as (r' & rs' & Hr & Hnil & [= <- <-]).
  apply Forall2_nil_inv_l in Hnil as ->.
  eexists _, _. split; [apply HC|]. cbn [data matPsdSum].
  unfold csd_total, psd_total in *. cbn [fmap list_fmap foldl] in *.
  intros i j k e c si sj Hij He Hcf Hsi Hsj Hpi Hpj.
  apply normalised_lookup in He as (e0 & He0 & ->). cbn [snd] in Hcf.
  apply coherency_coeff in Hcf as (z & si' & sj' & Hz & Hsi' & Hsj' & ->).
  rewrite (Hi _ _ He0), Nat2Z.id in Hsi'.
  assert (si' = si) as -> by congruence. assert (sj' = sj) as -> by congruence.
  apply mat_map_coeff in Hsi as (p & Hp0 & ->).
  apply mat_map_coeff in Hsj as (q & Hq0 & ->).
  apply (tight_abs_1 z p q); [|done..].
  destruct (result_coeffs fft_kernel d C L _ _ r Hd Htap (run_nfft_ge nfft0 L) Hr)
    as (Hpc & Hcc & _).
  rewrite (Hpc _ _ _ Hp0), (Hpc _ _ _ Hq0), (Hcc i j k e0 z Hij He0 Hz).
  by apply tight_spec.
Qed.

(** X10.  In exact arithmetic, when in every trial channel b is channel a
    plus a constant, [calculate] on new trials returns 1 for the pair
    (a, b) at every bin at which the square-rooted PSD sum of channel a is
    positive.  In floating point the two means and the quotient are
    rounded, and the coefficient is 1 up to rounding. *)
Theorem offset_copy_unit_coherency (fft_kernel : list R → nat → complex)
    (generateTapers : Z → string → MatrixXd * list R)
    (datas : list MatrixXd) (nfft0 : Z) (win : string) (C L : nat)
    (vecCoherency : list (Z * MatrixXcd)) (a b : nat) :
  valid_run generateTapers datas win C L → a ≤ b →
  (∀ d, d ∈ datas →
     ∃ c ra, row d a = Some ra ∧ row d b = Some ((λ x, x + c)%R <$> ra)) →
  ∃ v s',
    calculate fft_kernel generateTapers vecCoherency
      (new_settings (new_trial <$> datas) nfft0 win) = Some (v, s')
    ∧ ∀ k e c si,
        v !! a = Some e → coeff e.2 b k = Some c →
        coeff (matPsdSum (data s')) a k = Some si →
        (0 < si)%R → c = Cplx.mk 1 0.
Proof.
  intros Hv Hab Hcopy.
  destruct (run_new_network fft_kernel generateTapers datas nfft0 win C L Hv)
    as (r & rs & HF & Hp & Hc & Hi & _ & _ & HC).
  eexists _, _. split; [apply HC|]. cbn [data matPsdSum].
  intros k e c si He Hcf Hsi Hpi.
  apply normalised_lookup in He as (e0 & He0 & ->). cbn [snd] in Hcf.
  apply coherency_coeff in Hcf as (z & si' & sj & Hz & Hsi' & Hsj & ->).
  rewrite (Hi _ _ He0), Nat2Z.id in Hsi'.
  assert (si' = si) as -> by congruence.
  apply mat_map_coeff in Hsi as (p & Hp0 & ->).
  apply mat_map_coeff in Hsj as (q & Hq0 & ->).
  apply (auto_term_one z p q); [|done].
  apply (run_holds_at fft_kernel generateTapers auto_term (λ i j, i = a ∧ j = b)
           datas nfft0 win C L r rs auto_term_closed) in HF; [|lia| |done].
  - by apply (HF a b k e0).
  - intros d i j t k0 Hd [-> ->]. cbv zeta.
    destruct (Hcopy d Hd) as (c & ra & Ha & Hb).
    assert (spec_spectrum fft_kernel d (generateTapers (Z.of_nat L) win)
              (run_nfft nfft0 L) b t k0
            = spec_spectrum fft_kernel d (generateTapers (Z.of_nat L) win)
                (run_nfft nfft0 L) a t k0) as ->.
    { unfold spec_spectrum. rewrite Ha, Hb. cbn [mbind option_bind].
      by rewrite demeaned_shift. }
    apply auto_term_base.
Qed.

Lemma transpose_row_coeff {A : Type} (l : list A) k :
  coeff (transpose_row l) k 0 = l !! k.
Proof.
  unfold coeff, row, transpose_row. cbn [m_coeffs]. rewrite list_lookup_fmap.
  by destruct (l !! k).
Qed.

Lemma run_edges_elem (weight : complex → R) (pairs : list (Z * MatrixXcd))
    (psd : MatrixXd) (e : NetworkEdge) :
  pairs_indexed pairs → e ∈ run_edges weight pairs psd →
  ∃ ent, normalised pairs psd !! Z.to_nat (iStartNode e) = Some ent
    ∧ ∀ k, coeff (matWeight e) k 0
           = weight <$> coeff ent.2 (Z.to_nat (iEndNode e)) k.
Proof.
  intros Hi He. unfold run_edges in He.
  apply list_elem_of_bind in He as (pair & He & Hpair).
  apply list_elem_of_lookup in Hpair as [i Hpair].
  pose proof (Hi _ _ Hpair) as Hidx.
  unfold pair_edges in He. apply elem_of_lookup_zip_with_1 in He
    as (n & j & rw & -> & Hj & Hrw).
  apply lookup_seq in Hj as [-> _]. rewrite lookup_drop in Hrw.
  cbn [iStartNode iEndNode matWeight]. rewrite Hidx, !Nat2Z.id in *.
  exists (pair.1, coherency_matrix pair psd). split.
  - unfold normalised. by rewrite list_lookup_fmap, Hpair.
  - intros k. rewrite transpose_row_coeff, list_lookup_fmap.
    unfold coeff, row. cbn [snd]. rewrite Hrw. done.
Qed.

(** X16.  The three entry points agree: on the same new trials, the
    weight vector of every edge (i, j) that [calculateReal] creates holds
    the magnitudes, and that of every edge that [calculateImag] creates the
    imaginary parts, of row j of the matrix that [calculate] returns for
    channel i. *)
Theorem edge_weights_from_coherency (fft_kernel : list R → nat → complex)
    (generateTapers : Z → string → MatrixXd * list R)
    (datas : list MatrixXd) (nfft0 : Z) (win : string) (C L n : nat)
    (vecCoherency : list (Z * MatrixXcd)) :
  valid_run generateTapers datas win C L → C ≤ n →
  let s0 := new_settings (new_trial <$> datas) nfft0 win in
  ∃ v s netR sR netI sI,
    calculate fft_kernel generateTapers vecCoherency s0 = Some (v, s)
    ∧ calculateReal fft_kernel generateTapers (new_network n) s0
      = Some (netR, sR)
    ∧ calculateImag fft_kernel generateTapers (new_network n) s0
      = Some (netI, sI)
    ∧ (∀ e, e ∈ network_edges netR →
         ∃ ent, v !! Z.to_nat (iStartNode e) = Some ent
           ∧ ∀ k, coeff (matWeight e) k 0
                  = Cplx.abs <$> coeff ent.2 (Z.to_nat (iEndNode e)) k)
    ∧ (∀ e, e ∈ network_edges netI →
         ∃ ent, v !! Z.to_nat (iStartNode e) = Some ent
           ∧ ∀ k, coeff (matWeight e) k 0
                  = Cplx.im <$> coeff ent.2 (Z.to_nat (iEndNode e)) k).
Proof.
  intros Hv Hn s0.
  destruct (run_new_network fft_kernel generateTapers datas nfft0 win C L Hv)
    as (r & rs & HF & Hp & Hc & Hi & HR & HI & HC).
  fold s0 in HR, HI, HC.
  eexists _, _, _, _, _, _. split_and!.
  - apply HC.
  - apply HR. simpl. by rewrite length_replicate.
  - apply HI. simpl. by rewrite length_replicate.
  - intros e He. rewrite network_edges_new in He. by eapply run_edges_elem.
  - intros e He. rewrite network_edges_new in He. by eapply run_edges_elem.
Qed.

(** ** Runs in another order, and runs on the settings of a run *)

Lemma zip_with_comm {A B : Type} (f : A → A → B) (l k : list A) :
  (∀ x y, f x y = f y x) → zip_with f l k = zip_with f k l.
Proof.
  intros Hf. apply list_eq. intros i. rewrite !lookup_zip_with.
  destruct (l !! i), (k !! i); simpl; [|done..]. by rewrite Hf.
Qed.

Lemma zip_with_assoc {A : Type} (f : A → A → A) (l k m : list A) :
  (∀ x y z, f (f x y) z = f x (f y z)) →
  zip_with f (zip_with f l k) m = zip_with f l (zip_with f k m).
Proof.
  intros Hf. apply list_eq. intros i. rewrite !lookup_zip_with.
  destruct (l !! i), (k !! i), (m !! i); simpl; [|done..]. by rewrite Hf.
Qed.

Lemma Cplx_add_comm (a b : complex) : Cplx.add a b = Cplx.add b a.
Proof. unfold Cplx.add. f_equal; lra. Qed.

Lemma Cplx_add_assoc (a b c : complex) :
  Cplx.add (Cplx.add a b) c = Cplx.add a (Cplx.add b c).
Proof. unfold Cplx.add. simpl. f_equal; lra. Qed.

Lemma mat_plus_comm C F (M N : MatrixXd) :
  psd_shape C F M → psd_shape C F N → mat_plus M N = mat_plus N M.
Proof.
  intros (_ & HM & _) (_ & HN & _). unfold mat_plus, cols in *. f_equal; [congruence|].
  apply zip_with_comm. intros x y. apply zip_with_comm. intros; lra.
Qed.

Lemma mat_plus_assoc (M N P : MatrixXd) :
  mat_plus (mat_plus M N) P = mat_plus M (mat_plus N P).
Proof.
  unfold mat_plus. cbn [m_cols m_coeffs]. f_equal.
  apply zip_with_assoc. intros x y z. apply zip_with_assoc. intros; lra.
Qed.

Lemma cmat_plus_assoc (M N P : MatrixXcd) :
  cmat_plus (cmat_plus M N) P = cmat_plus M (cmat_plus N P).
Proof.
  unfold cmat_plus. cbn [m_cols m_coeffs]. f_equal.
  apply zip_with_assoc. intros x y z. apply zip_with_assoc.
  apply Cplx_add_assoc.
Qed.

Lemma pairs_plus_assoc (a b c : list (Z * MatrixXcd)) :
  pairs_plus (pairs_plus a b) c = pairs_plus a (pairs_plus b c).
Proof.
  unfold pairs_plus. apply list_eq. intros i. rewrite !lookup_zip_with.
  destruct (a !! i), (b !! i), (c !! i); simpl; [|done..].
  by rewrite cmat_plus_assoc.
Qed.

Lemma pairs_plus_comm C F (a b : list (Z * MatrixXcd)) :
  pairs_shape C F a → pairs_indexed a → pairs_shape C F b → pairs_indexed b →
  pairs_plus a b = pairs_plus b a.
Proof.
  intros [_ Ha] Hia [_ Hb] Hib. unfold pairs_plus. apply list_eq. intros i.
  rewrite !lookup_zip_with.
  destruct (a !! i) as [x|] eqn:Ex, (b !! i) as [y|] eqn:Ey; simpl; [|done..].
  rewrite (Hia _ _ Ex), (Hib _ _ Ey).
  pose proof (Forall_lookup_1 _ _ _ _ Ha Ex) as (_ & Hcx & _).
  pose proof (Forall_lookup_1 _ _ _ _ Hb Ey) as (_ & Hcy & _).
  do 2 f_equal. unfold cmat_plus, cols in *. f_equal; [congruence|].
  apply zip_with_comm. intros u v. apply zip_with_comm. apply Cplx_add_comm.
Qed.

(** Sums in another order: for an operation that is commutative and
    associative on a set that it keeps, the sum of a permuted list is the
    same. *)
Section Reorder.
Context {A : Type} (op : A → A → A) (P : A → Prop).
Context (Hclosed : ∀ x y, P x → P y → P (op x y)).
Context (Hcomm : ∀ x y, P x → P y → op x y = op y x).
Context (Hassoc : ∀ x y z, op (op x y) z = op x (op y z)).

Lemma foldl_reorder_tail (l l' : list A) (a : A) :
  l ≡ₚ l' → Forall P l → P a → foldl op a l = foldl op a l'.
Proof.
  intros Hperm. revert a.
  induction Hperm as [|x l l' _ IH|x y l|l l' l'' H1 IH1 H2 IH2];
    intros a Hl Ha.
  - done.
  - apply Forall_cons in Hl as [Hx Hl]. simpl. apply IH; [done|]. by apply Hclosed.
  - apply Forall_cons in Hl as [Hy Hl]. apply Forall_cons in Hl as [Hx Hl].
    simpl. f_equal. rewrite !Hassoc. f_equal. by apply Hcomm.
  - rewrite IH1 by done. apply IH2; [|done]. by rewrite <- H1.
Qed.

Lemma foldl_reorder (l l' : list A) (a a' : A) :
  a :: l ≡ₚ a' :: l' → Forall P (a :: l) →
  foldl op a l = foldl op a' l'.
Proof.
  intros Hperm Hall. pose proof Hall as Hall0.
  apply Forall_cons in Hall as [Ha Hl].
  assert (a' ∈ a :: l) as Hin by (rewrite Hperm; by left).
  apply elem_of_cons in Hin as [->|Hin].
  - apply Permutation_cons_inv in Hperm. by apply foldl_reorder_tail.
  - apply elem_of_Permutation in Hin as [k Hk].
    assert (P a' ∧ Forall P k) as [Ha' Hk'].
    { rewrite Hk in Hl. by apply Forall_cons in Hl. }
    assert (a :: k ≡ₚ l') as Hl'.
    { apply Permutation_cons_inv with a'. rewrite <- Hperm, Hk. apply Permutation_swap. }
    rewrite (foldl_reorder_tail l (a' :: k)) by done.
    rewrite <- (foldl_reorder_tail (a :: k) l' a') by (done || by constructor).
    simpl. f_equal. by apply Hcomm.
Qed.

End Reorder.

Section OrderOfTrials.
Context (fft_kernel : list R → nat → complex).
Context (generateTapers : Z → string → MatrixXd * list R).

Lemma results_as_map C nfft tapers (datas : list MatrixXd)
    (results : list ConnectivityTrialData) (r0 : ConnectivityTrialData) :
  Forall2 (result_of fft_kernel C nfft tapers) datas results →
  results
  = (λ d, default r0
            (compute_trial fft_kernel (new_trial d) (Z.of_nat C) (nfft / 2 + 1)
               nfft tapers)) <$> datas.
Proof.
  induction 1 as [|d r datas results Hr _ IH]; [done|].
  rewrite fmap_cons. f_equal; [|done]. unfold result_of in Hr. by rewrite Hr.
Qed.

Lemma totals_reorder datas datas' nfft0 win C L r rs r' rs' :
  valid_run generateTapers datas win C L → datas ≡ₚ datas' →
  Forall2 (result_of fft_kernel C (run_nfft nfft0 L)
             (generateTapers (Z.of_nat L) win)) datas (r :: rs) →
  Forall2 (result_of fft_kernel C (run_nfft nfft0 L)
             (generateTapers (Z.of_nat L) win)) datas' (r' :: rs') →
  psd_total r rs = psd_total r' rs' ∧ csd_total r rs = csd_total r' rs'.
Proof.
  intros (_ & Hd & Htap) Hperm HF HF'.
  assert (Z.of_nat L ≤ run_nfft nfft0 L)%Z as HLn.
  { unfold run_nfft. destruct (nfft0 <? Z.of_nat L)%Z eqn:E; [lia|].
    apply Z.ltb_ge in E. lia. }
  assert (r :: rs ≡ₚ r' :: rs') as Hres.
  { rewrite (results_as_map _ _ _ _ _ r HF), (results_as_map _ _ _ _ _ r HF').
    by apply fmap_Permutation. }
  set (F := spec_bins (run_nfft nfft0 L)).
  assert (Forall (λ t, psd_shape C F (matPsd t)
                       ∧ pairs_shape C F (vecPairCsd t)
                       ∧ pairs_indexed (vecPairCsd t)) (r :: rs)) as Hall.
  { apply Forall_forall. intros t Ht. apply list_elem_of_lookup in Ht as [n Hn].
    destruct (Forall2_lookup_r _ _ _ _ _ HF Hn) as (dx & Hdx & Hr).
    pose proof (Forall_lookup_1 _ _ _ _ Hd Hdx) as Hsh.
    by destruct (result_of_shape fft_kernel C L _ _ dx t Hsh Htap HLn Hr)
      as (_ & ? & ? & ?). }
  split.
  - unfold psd_total.
    apply (foldl_reorder mat_plus (psd_shape C F)).
    + apply mat_plus_shape.
    + apply mat_plus_comm.
    + apply mat_plus_assoc.
    + change (matPsd <$> r :: rs ≡ₚ matPsd <$> r' :: rs'). by apply fmap_Permutation.
    + change (Forall (psd_shape C F) (matPsd <$> r :: rs)). apply Forall_fmap.
      eapply Forall_impl; [exact Hall|]. by intros t (? & _).
  - unfold csd_total.
    apply (foldl_reorder pairs_plus
             (λ c, pairs_shape C F c ∧ pairs_indexed c)).
    + intros x y [? ?] [? ?]. split; [by apply pairs_plus_shape|by apply pairs_plus_indexed].
    + intros x y [? ?] [? ?]. by apply (pairs_plus_comm C F).
    + apply pairs_plus_assoc.
    + change (vecPairCsd <$> r :: rs ≡ₚ vecPairCsd <$> r' :: rs').
      by apply fmap_Permutation.
    + change (Forall (λ c, pairs_shape C F c ∧ pairs_indexed c)
                (vecPairCsd <$> r :: rs)).
      apply Forall_fmap. eapply Forall_impl; [exact Hall|]. by intros t (_ & ? & ?).
Qed.

End OrderOfTrials.

(** X13.  The sums do not depend on the order in which the trials are
    merged: a run over the same new trials in another order returns the
    same network or coherency matrices and leaves the same sums. *)
Theorem trial_order_invariance (fft_kernel : list R → nat → complex)
    (generateTapers : Z → string → MatrixXd * list R)
    (datas datas' : list MatrixXd) (nfft0 : Z) (win : string) (C L : nat)
    (net : Network) (vecCoherency : list (Z * MatrixXcd)) :
  valid_run generateTapers datas win C L → datas ≡ₚ datas' →
  C ≤ length (net_nodes net) →
  let s := new_settings (new_trial <$> datas) nfft0 win in
  let s' := new_settings (new_trial <$> datas') nfft0 win in
  (∃ net' t t',
     calculateReal fft_kernel generateTapers net s = Some (net', t)
     ∧ calculateReal fft_kernel generateTapers net s' = Some (net', t')
     ∧ data t = data t' ∧ m_dataList t ≡ₚ m_dataList t')
  ∧ (∃ net' t t',
       calculateImag fft_kernel generateTapers net s = Some (net', t)
       ∧ calculateImag fft_kernel generateTapers net s' = Some (net', t')
       ∧ data t = data t' ∧ m_dataList t ≡ₚ m_dataList t')
  ∧ (∃ v t t',
       calculate fft_kernel generateTapers vecCoherency s = Some (v, t)
       ∧ calculate fft_kernel generateTapers vecCoherency s' = Some (v, t')
       ∧ data t = data t' ∧ m_dataList t ≡ₚ m_dataList t').
Proof.
  intros Hv Hperm Hn s s'.
  assert (valid_run generateTapers datas' win C L) as Hv'.
  { destruct Hv as (Hne & Hd & Htap). split_and!; [|by rewrite <- Hperm|done].
    intros ->. by apply Permutation_nil_r in Hperm. }
  destruct (run_new_network fft_kernel generateTapers datas nfft0 win C L Hv)
    as (r & rs & HF & _ & _ & _ & HR & HI & HC).
  destruct (run_new_network fft_kernel generateTapers datas' nfft0 win C L Hv')
    as (r' & rs' & HF' & _ & _ & _ & HR' & HI' & HC').
  destruct (totals_reorder fft_kernel generateTapers datas datas' nfft0 win C L
              r rs r' rs' Hv Hperm HF HF') as [Hpsd Hcsd].
  assert (r :: rs ≡ₚ r' :: rs') as Hres.
  { rewrite (results_as_map fft_kernel _ _ _ _ _ r HF),
      (results_as_map fft_kernel _ _ _ _ _ r HF').
    by apply fmap_Permutation. }
  fold s in HR, HI, HC. fold s' in HR', HI', HC'.
  split_and!.
  - eexists _, _, _. split; [by apply HR|]. split; [rewrite HR' by done|].
    + by rewrite <- Hpsd, <- Hcsd.
    + unfold settings_after. cbn [data m_dataList]. by rewrite Hpsd, Hcsd.
  - eexists _, _, _. split; [by apply HI|]. split; [rewrite HI' by done|].
    + by rewrite <- Hpsd, <- Hcsd.
    + unfold settings_after. cbn [data m_dataList]. by rewrite Hpsd, Hcsd.
  - eexists _, _, _. split; [by apply HC|]. split; [rewrite HC'|].
    + by rewrite <- Hpsd, <- Hcsd.
    + cbn [data m_dataList]. by rewrite Hpsd, Hcsd.
Qed.

Section OtherLength.
Context (fft_kernel : list R → nat → complex).
Context (generateTapers : Z → string → MatrixXd * list R).

(** [compute] on a trial that has to be computed, with a PSD sum of
    another number of columns: the addition of line 445 has operands of
    different sizes. *)
Lemma compute_other_bins inputData psdSum csdSum nfft tapers C F :
  mat_wf (matData inputData) →
  tapers_wf tapers (cols (matData inputData)) →
  (Z.of_nat (cols (matData inputData)) ≤ nfft)%Z →
  already_computed inputData (Z.of_nat (rows (matData inputData)))
    (nfft / 2 + 1) = false →
  psd_shape C F psdSum → 0 < C → 0 < F → F ≠ spec_bins nfft →
  compute fft_kernel inputData psdSum csdSum
    (Z.of_nat (rows (matData inputData))) (nfft / 2 + 1) nfft tapers = None.
Proof.
  intros Hwf Htap Hn Hm (Hr & Hc & _) HC HF Hne. unfold compute. rewrite Hm.
  rewrite (compute_trial_closed fft_kernel inputData) by done.
  cbn [mbind option_bind]. unfold merge. cbn [matPsd].
  destruct (Nat.eqb_spec (rows psdSum) 0) as [E|_]; [lia|].
  destruct (Nat.eqb_spec (cols psdSum) 0) as [E|_]; [lia|].
  cbn [orb]. unfold mat_zip. cbn [m_cols].
  destruct (Nat.eqb_spec (cols psdSum) (spec_bins nfft)) as [E|_]; [congruence|].
  by rewrite andb_false_r.
Qed.

End OtherLength.

Section Again.
Context (fft_kernel : list R → nat → complex).
Context (generateTapers : Z → string → MatrixXd * list R).

Lemma compute_all_app l1 l2 P Cs r c n tapers :
  compute_all fft_kernel (l1 ++ l2) P Cs r c n tapers
  = ('(l1', P1, C1) ← compute_all fft_kernel l1 P Cs r c n tapers;
     '(l2', P2, C2) ← compute_all fft_kernel l2 P1 C1 r c n tapers;
     Some (l1' ++ l2', P2, C2)).
Proof.
  revert P Cs. induction l1 as [|t l1 IH]; intros P Cs.
  - simpl. by destruct (compute_all _ _ _ _ _ _ _ _) as [[[? ?] ?]|].
  - simpl. destruct (compute _ _ _ _ _ _ _ _) as [[[t' P1] C1]|]; [|done].
    simpl. rewrite IH.
    destruct (compute_all fft_kernel l1 P1 C1 r c n tapers) as [[[l1' P2] C2]|]; [|done].
    simpl.
    by destruct (compute_all fft_kernel l2 P2 C2 r c n tapers) as [[[? ?] ?]|].
Qed.


(** The sums that a call leaves when the settings of a finished run are
    given one more trial. *)
Lemma spectra_one_more datas d nfft0 win C L r rs :
  valid_run generateTapers datas win C L → data_shape C L d →
  Forall2 (result_of fft_kernel C (run_nfft nfft0 L)
             (generateTapers (Z.of_nat L) win)) datas (r :: rs) →
  ∃ rd,
    result_of fft_kernel C (run_nfft nfft0 L)
      (generateTapers (Z.of_nat L) win) d rd
    ∧ spectra fft_kernel generateTapers
        (add_trial (new_trial d) (settings_after r rs nfft0 win)) r
      = Some (mkSettings (r :: rs ++ [rd]) nfft0 win
                (mkSums
                   (mat_map sqrt
                      (mat_plus (mat_map sqrt (psd_total r rs)) (matPsd rd)))
                   (pairs_plus (csd_total r rs) (vecPairCsd rd)))).
Proof.
  intros Hv Hd HF. pose proof Hv as (Hne & Hds & Htap).
  pose proof (run_nfft_ge nfft0 L) as HLn.
  destruct (sums_shape fft_kernel C L _ _ datas (r :: rs) r rs eq_refl Hds Htap
              HLn HF) as (Hp & Hc & Hi).
  pose proof (all_computed_after fft_kernel generateTapers datas nfft0 win C L
                r rs (mkSums (mat_map sqrt (psd_total r rs)) (csd_total r rs))
                Hv HF) as [_ Hall].
  assert (matData r ∈ datas) as Hin.
  { apply Forall2_cons_inv_r in HF as (d0 & ds & Hr & _ & ->).
    pose proof Hds as Hd0. apply Forall_cons in Hd0 as [Hd0 _].
    destruct (result_of_shape fft_kernel C L _ _ d0 r Hd0 Htap HLn Hr) as (-> & _).
    by left. }
  pose proof (proj1 (Forall_forall _ _) Hds _ Hin) as (_ & HCr & HLr).
  destruct (compute_all_sum fft_kernel [d] C L (run_nfft nfft0 L)
              (generateTapers (Z.of_nat L) win)
              (mat_map sqrt (psd_total r rs)) (csd_total r rs))
    as (res & HFd & Hsum); [by constructor|done..|].
  apply Forall2_cons_inv_l in HFd as (rd & res' & (Hrd & _) & Hnil & ->).
  apply Forall2_nil_inv_l in Hnil as ->.
  exists rd. split; [done|].
  unfold spectra, add_trial, settings_after.
  cbn [m_dataList m_iNfft m_sWindowType data matPsdSum vecPairCsdSum].
  unfold run_rows, run_freqs, settings_after in Hall.
  cbn [m_dataList m_iNfft] in Hall.
  unfold effective_nfft in *. rewrite HCr, HLr in *. fold (run_nfft nfft0 L) in *.
  change (r :: rs ++ [new_trial d]) with ((r :: rs) ++ [new_trial d]).
  rewrite compute_all_app, (compute_all_memo fft_kernel (r :: rs)) by done.
  cbn [mbind option_bind].
  change [new_trial d] with (new_trial <$> [d]). rewrite Hsum. done.
Qed.

End Again.

(** X14.  [calculateReal] writes the square root back to the PSD sum
    (line 155), and a later call adds to what it finds: when a trial is
    added to the settings of a finished run, the next call computes the new
    trial only and leaves the square root of (the square root of the sum
    of the old PSDs, plus the new PSD), and the old CSD sums plus the new
    CSDs. *)
Theorem one_more_trial (fft_kernel : list R → nat → complex)
    (generateTapers : Z → string → MatrixXd * list R)
    (datas : list MatrixXd) (d : MatrixXd) (nfft0 : Z) (win : string)
    (C L n : nat) (net : Network) :
  valid_run generateTapers datas win C L → data_shape C L d →
  C ≤ n → C ≤ length (net_nodes net) →
  ∃ r rs rd net1 s1 net2 s2,
    Forall2 (result_of fft_kernel C (run_nfft nfft0 L)
               (generateTapers (Z.of_nat L) win)) (datas ++ [d]) (r :: rs ++ [rd])
    ∧ calculateReal fft_kernel generateTapers (new_network n)
        (new_settings (new_trial <$> datas) nfft0 win) = Some (net1, s1)
    ∧ matPsdSum (data s1) = mat_map sqrt (psd_total r rs)
    ∧ vecPairCsdSum (data s1) = csd_total r rs
    ∧ calculateReal fft_kernel generateTapers net (add_trial (new_trial d) s1)
      = Some (net2, s2)
    ∧ m_dataList s2 = r :: rs ++ [rd]
    ∧ matPsdSum (data s2)
      = mat_map sqrt (mat_plus (mat_map sqrt (psd_total r rs)) (matPsd rd))
    ∧ vecPairCsdSum (data s2) = pairs_plus (csd_total r rs) (vecPairCsd rd).
Proof.
  intros Hv Hd Hn Hnet. pose proof Hv as (Hne & Hds & Htap).
  pose proof (run_nfft_ge nfft0 L) as HLn.
  destruct (run_new_network fft_kernel generateTapers datas nfft0 win C L Hv)
    as (r & rs & HF & Hp & Hc & Hi & HR & _ & _).
  destruct (spectra_one_more fft_kernel generateTapers datas d nfft0 win C L r rs
              Hv Hd HF) as (rd & Hrd & Hsp).
  destruct (result_of_shape fft_kernel C L _ _ d rd Hd Htap HLn Hrd)
    as (_ & Hprd & Hcrd & Hird).
  exists r, rs, rd. eexists _, _, _, _. split_and!.
  - change (r :: rs ++ [rd]) with ((r :: rs) ++ [rd]).
    apply Forall2_app; [done|]. by constructor.
  - apply HR. simpl. by rewrite length_replicate.
  - done.
  - done.
  - unfold calculateReal.
    change (m_dataList (add_trial (new_trial d) (settings_after r rs nfft0 win)))
      with (r :: rs ++ [new_trial d]).
    cbv beta iota. rewrite Hsp. cbn [mbind option_bind data matPsdSum vecPairCsdSum].
    change (λ pairInput net', computePSDCSDReal net' pairInput ?p)
      with (λ pairInput net', build_edges Cplx.abs net' pairInput p).
    erewrite (build_all_edges Cplx.abs _ _ net C (spec_bins (run_nfft nfft0 L)));
      [done| | |done].
    + apply mat_map_shape. by apply mat_plus_shape.
    + apply pairs_fit; [by apply pairs_plus_shape|by apply pairs_plus_indexed].
  - done.
  - done.
  - done.
Qed.

Section OtherLengthRun.
Context (fft_kernel : list R → nat → complex).
Context (generateTapers : Z → string → MatrixXd * list R).

Lemma spectra_other_length datas nfft0 nfft1 win C L r rs :
  valid_run generateTapers datas win C L → 0 < C →
  spec_bins (run_nfft nfft1 L) ≠ spec_bins (run_nfft nfft0 L) →
  Forall2 (result_of fft_kernel C (run_nfft nfft0 L)
             (generateTapers (Z.of_nat L) win)) datas (r :: rs) →
  spectra fft_kernel generateTapers
    (set_nfft nfft1 (settings_after r rs nfft0 win)) r = None.
Proof.
  intros Hv HC Hne HF. pose proof Hv as (_ & Hds & Htap).
  pose proof (run_nfft_ge nfft0 L) as HLn0.
  pose proof (run_nfft_ge nfft1 L) as HLn1.
  destruct (sums_shape fft_kernel C L _ _ datas (r :: rs) r rs eq_refl Hds Htap
              HLn0 HF) as (Hp & _ & _).
  apply Forall2_cons_inv_r in HF as (d0 & ds & Hr & _ & ->).
  apply Forall_cons in Hds as [Hd0 _].
  destruct (result_of_shape fft_kernel C L _ _ d0 r Hd0 Htap HLn0 Hr)
    as (Hdata & (Hrp & Hcp & _) & (Hlc & _) & _).
  destruct Hd0 as (Hwf & HCr & HLr).
  assert (cols (matData r) = L) as HLr' by by rewrite Hdata.
  assert (mat_wf (matData r)) as Hwf' by by rewrite Hdata.
  unfold spectra, set_nfft, settings_after.
  cbn [m_dataList m_iNfft m_sWindowType data matPsdSum vecPairCsdSum compute_all].
  unfold effective_nfft. rewrite HLr'. fold (run_nfft nfft1 L).
  rewrite (compute_other_bins fft_kernel r _ _ (run_nfft nfft1 L) _ C
             (spec_bins (run_nfft nfft0 L))); [done|..].
  - done.
  - by rewrite HLr'.
  - by rewrite HLr'.
  - unfold already_computed. rewrite Hcp.
    destruct (Z.eqb_spec (Z.of_nat (spec_bins (run_nfft nfft0 L)))
                (run_nfft nfft1 L / 2 + 1)) as [E|_]; [|by rewrite andb_false_r].
    exfalso. apply Hne. unfold spec_bins in *.
    assert (0 ≤ run_nfft nfft1 L / 2)%Z by (apply Z.div_pos; lia). lia.
  - done.
  - done.
  - unfold spec_bins. lia.
  - congruence.
Qed.

End OtherLengthRun.

(** X15.  After a run, a call on the same settings with a configured FFT
    length that gives another number of bins stops in [compute] at the
    addition of line 447: the first trial is computed again with the new
    size, and the PSD sum still has the old one. *)
Theorem rerun_other_length_fails (fft_kernel : list R → nat → complex)
    (generateTapers : Z → string → MatrixXd * list R)
    (datas : list MatrixXd) (nfft0 nfft1 : Z) (win : string) (C L n : nat)
    (net : Network) (vecCoherency : list (Z * MatrixXcd)) :
  valid_run generateTapers datas win C L → 0 < C → C ≤ n →
  spec_bins (run_nfft nfft1 L) ≠ spec_bins (run_nfft nfft0 L) →
  ∃ net1 s1,
    calculateReal fft_kernel generateTapers (new_network n)
      (new_settings (new_trial <$> datas) nfft0 win) = Some (net1, s1)
    ∧ calculateReal fft_kernel generateTapers net (set_nfft nfft1 s1) = None
    ∧ calculateImag fft_kernel generateTapers net (set_nfft nfft1 s1) = None
    ∧ calculate fft_kernel generateTapers vecCoherency (set_nfft nfft1 s1)
      = None.
Proof.
  intros Hv HC Hn Hne.
  destruct (run_new_network fft_kernel generateTapers datas nfft0 win C L Hv)
    as (r & rs & HF & _ & _ & _ & HR & _ & _).
  pose proof (spectra_other_length fft_kernel generateTapers datas nfft0 nfft1 win
                C L r rs Hv HC Hne HF) as Hsp.
  eexists _, _. split; [apply HR; simpl; by rewrite length_replicate|].
  unfold calculateReal, calculateImag, calculate.
  change (m_dataList (set_nfft nfft1 (settings_after r rs nfft0 win)))
    with (r :: rs).
  cbv beta iota. by rewrite Hsp.
Qed.

(** ** A common gain *)

Section Gain.
Context (fft_kernel : list R → nat → complex) (g : R).
Context (Hhom : homogeneous fft_kernel g).

Lemma Rsum_gain (l : list R) : Rsum ((λ v, g * v)%R <$> l) = (g * Rsum l)%R.
Proof.
  induction l as [|x l IH]; [simpl; lra|].
  rewrite fmap_cons. cbn [Rsum foldr]. fold (Rsum ((λ v, g * v)%R <$> l)).
  fold (Rsum l). rewrite IH. lra.
Qed.

Lemma demeaned_gain (l : list R) :
  demeaned ((λ v, g * v)%R <$> l) = (λ v, g * v)%R <$> demeaned l.
Proof.
  unfold demeaned, mean. rewrite Rsum_gain, length_fmap, <- !list_fmap_compose.
  apply list_fmap_ext. intros _ x _. simpl. unfold Rdiv. ring.
Qed.

Lemma fft_fwd_gain (x : list R) (nfft : Z) :
  fft_fwd fft_kernel ((λ v, g * v)%R <$> x) nfft
  = (λ z, Cplx.scale z g) <$> fft_fwd fft_kernel x nfft.
Proof.
  unfold fft_fwd. rewrite length_fmap.
  set (n := if (nfft <? 1)%Z then length x else Z.to_nat nfft).
  rewrite <- list_fmap_compose. apply list_fmap_ext. intros _ k _. simpl.
  rewrite <- Hhom. f_equal.
  rewrite fmap_take, fmap_app, fmap_replicate. by rewrite Rmult_0_r.
Qed.

Lemma tap_rows_gain (rowData : list R) tapers nfft :
  tap_rows fft_kernel ((λ v, g * v)%R <$> rowData) tapers nfft
  = (λ r : list complex, (λ z, Cplx.scale z g) <$> r)
      <$> tap_rows fft_kernel rowData tapers nfft.
Proof.
  unfold tap_rows. apply list_eq. intros t.
  rewrite list_lookup_fmap, !lookup_zip_with.
  destruct (m_coeffs tapers.1 !! t) as [taper|]; [|done].
  destruct (tapers.2 !! t) as [w|]; [|done]. simpl. f_equal.
  assert (zip_with Rmult ((λ v, g * v)%R <$> rowData) taper
          = (λ v, g * v)%R <$> zip_with Rmult rowData taper) as ->.
  { rewrite zip_with_fmap_l. apply list_eq. intros i.
    rewrite list_lookup_fmap, !lookup_zip_with.
    destruct (rowData !! i), (taper !! i); simpl; [|done..]. f_equal. ring. }
  rewrite fft_fwd_gain, <- !list_fmap_compose.
  apply list_fmap_ext. intros _ z _. simpl. unfold Cplx.scale. simpl.
  f_equal; ring.
Qed.

Lemma trial_spectra_gain (d : MatrixXd) tapers nfft :
  trial_spectra fft_kernel (mat_scale g d) tapers nfft
  = mat_map (λ z, Cplx.scale z g) <$> trial_spectra fft_kernel d tapers nfft.
Proof.
  unfold trial_spectra, mat_scale, mat_map. cbn [m_coeffs].
  rewrite <- !list_fmap_compose. apply list_fmap_ext. intros _ dataRow _. simpl.
  by rewrite demeaned_gain, tap_rows_gain.
Qed.

End Gain.

Lemma halve_bins_fmap {A : Type} (half f : A → A) (even : bool) (l : list A) :
  (∀ x, f (half x) = half (f x)) →
  halve_bins half even (f <$> l) = f <$> halve_bins half even l.
Proof.
  intros Hc. unfold halve_bins. rewrite !length_alter, length_fmap.
  assert (∀ (i : nat) (k : list A),
            alter half i (f <$> k) = f <$> alter half i k) as Ha.
  { intros i k. symmetry. apply list_fmap_alter. apply Forall_forall.
    intros x _. apply Hc. }
  destruct even; by rewrite !Ha.
Qed.

Lemma colwise_sum_fmap {A : Type} (zero : A) (add : A → A → A) (f : A → A)
    (M : Matrix A) :
  f zero = zero → (∀ x y, f (add x y) = add (f x) (f y)) →
  colwise_sum zero add (mat_map f M) = f <$> colwise_sum zero add M.
Proof.
  intros H0 Hadd. unfold colwise_sum, mat_map, cols. cbn [m_cols m_coeffs].
  induction (m_coeffs M) as [|r rs IH].
  - simpl. by rewrite fmap_replicate, H0.
  - rewrite fmap_cons. cbn [foldr]. rewrite IH.
    apply list_eq. intros i.
    rewrite list_lookup_fmap, !lookup_zip_with, !list_lookup_fmap.
    destruct (r !! i); simpl; [|done].
    destruct (foldr _ _ _ !! i); simpl; [|done]. by rewrite Hadd.
Qed.

Section GainRows.
Context (g : R).
Local Open Scope R_scope.

Lemma psd_row_gain den even (S : MatrixXcd) :
  psd_row den even (mat_map (λ z, Cplx.scale z g) S)
  = (λ x, g * g * x) <$> psd_row den even S.
Proof.
  unfold psd_row.
  assert (mat_map Cplx.abs2 (mat_map (λ z, Cplx.scale z g) S)
          = mat_map (λ x, g * g * x) (mat_map Cplx.abs2 S)) as ->.
  { unfold mat_map. cbn [m_cols m_coeffs]. f_equal.
    rewrite <- !list_fmap_compose. apply list_fmap_ext. intros _ r _. simpl.
    rewrite <- !list_fmap_compose. apply list_fmap_ext. intros _ z _. simpl.
    unfold Cplx.abs2, Cplx.scale. simpl. ring. }
  rewrite colwise_sum_fmap by (intros; lra).
  rewrite <- halve_bins_fmap by (intros; unfold halve; lra).
  f_equal. rewrite <- !list_fmap_compose. apply list_fmap_ext. intros _ x _.
  simpl. unfold Rdiv. ring.
Qed.

Lemma csd_row_gain den even (Si Sj : MatrixXcd) :
  csd_row den even (mat_map (λ z, Cplx.scale z g) Si)
    (mat_map (λ z, Cplx.scale z g) Sj)
  = (λ z, Cplx.scale z (g * g)) <$> csd_row den even Si Sj.
Proof.
  unfold csd_row.
  set (P := mkMatrix (m_cols Si)
              (zip_with (zip_with Cplx.mul) (m_coeffs Si)
                 (m_coeffs (mat_map Cplx.conj Sj)))).
  assert (mkMatrix (m_cols (mat_map (λ z, Cplx.scale z g) Si))
            (zip_with (zip_with Cplx.mul)
               (m_coeffs (mat_map (λ z, Cplx.scale z g) Si))
               (m_coeffs (mat_map Cplx.conj (mat_map (λ z, Cplx.scale z g) Sj))))
          = mat_map (λ z, Cplx.scale z (g * g)) P) as ->.
  { unfold P, mat_map. cbn [m_cols m_coeffs]. f_equal.
    apply list_eq. intros i.
    rewrite list_lookup_fmap, !lookup_zip_with, !list_lookup_fmap.
    destruct (m_coeffs Si !! i) as [ri|]; simpl; [|done].
    destruct (m_coeffs Sj !! i) as [rj|]; simpl; [|done]. f_equal.
    apply list_eq. intros k.
    rewrite list_lookup_fmap, !lookup_zip_with, !list_lookup_fmap.
    destruct (ri !! k) as [a|]; simpl; [|done].
    destruct (rj !! k) as [b|]; simpl; [|done]. f_equal.
    unfold Cplx.mul, Cplx.scale, Cplx.conj. simpl. f_equal; ring. }
  rewrite colwise_sum_fmap.
  - rewrite <- halve_bins_fmap.
    + f_equal. rewrite <- !list_fmap_compose. apply list_fmap_ext.
      intros _ z _. simpl. unfold Cplx.divr, Cplx.scale. simpl.
      f_equal; unfold Rdiv; ring.
    + intros z. unfold chalve, Cplx.divr, Cplx.scale. simpl.
      f_equal; unfold Rdiv; ring.
  - unfold Cplx.scale, Cplx.zero. simpl. f_equal; ring.
  - intros x y. unfold Cplx.scale, Cplx.add. simpl. f_equal; ring.
Qed.

Lemma csd_matrix_row den even F (vts : list MatrixXcd) i j :
  m_coeffs (csd_matrix den even F vts i) !! j
  = (λ Sj, csd_row den even (if j <? i then Sj else default Sj (vts !! i)) Sj)
      <$> vts !! j.
Proof. unfold csd_matrix. cbn [m_coeffs]. by rewrite list_lookup_imap. Qed.

Lemma csd_entries_gain den even F (vts : list MatrixXcd) :
  csd_entries den even F (mat_map (λ z, Cplx.scale z g) <$> vts)
  = pairs_scale (g * g) (csd_entries den even F vts).
Proof.
  unfold csd_entries, pairs_scale. rewrite length_fmap, <- list_fmap_compose.
  apply list_fmap_ext. intros _ i _. simpl. f_equal.
  unfold mat_map at 2. change (m_cols (csd_matrix den even F vts i)) with F.
  change (csd_matrix den even F (mat_map (λ z, Cplx.scale z g) <$> vts) i)
    with (mkMatrix F
            (m_coeffs (csd_matrix den even F
                         (mat_map (λ z, Cplx.scale z g) <$> vts) i))).
  f_equal. apply list_eq. intros j.
  rewrite csd_matrix_row.
  rewrite (list_lookup_fmap _ (m_coeffs (csd_matrix den even F vts i))).
  rewrite csd_matrix_row.
  rewrite !(list_lookup_fmap _ vts).
  destruct (vts !! j) as [Sj|]; [|done]. cbn [fmap option_fmap option_map].
  f_equal.
  destruct (j <? i); [apply csd_row_gain|].
  destruct (vts !! i) as [Si|]; cbn [fmap option_fmap option_map default];
    apply csd_row_gain.
Qed.

Lemma mat_plus_gain (k : R) (M N : MatrixXd) :
  mat_plus (mat_scale k M) (mat_scale k N) = mat_scale k (mat_plus M N).
Proof.
  unfold mat_plus, mat_scale, mat_map. cbn [m_cols m_coeffs]. f_equal.
  apply list_eq. intros i.
  rewrite list_lookup_fmap, !lookup_zip_with, !list_lookup_fmap.
  destruct (m_coeffs M !! i) as [r|]; simpl; [|done].
  destruct (m_coeffs N !! i) as [r'|]; simpl; [|done]. f_equal.
  apply list_eq. intros j.
  rewrite list_lookup_fmap, !lookup_zip_with, !list_lookup_fmap.
  destruct (r !! j); simpl; [|done]. destruct (r' !! j); simpl; [|done].
  f_equal. ring.
Qed.

Lemma pairs_plus_gain (k : R) (a b : list (Z * MatrixXcd)) :
  pairs_plus (pairs_scale k a) (pairs_scale k b) = pairs_scale k (pairs_plus a b).
Proof.
  unfold pairs_plus, pairs_scale. apply list_eq. intros i.
  rewrite list_lookup_fmap, !lookup_zip_with, !list_lookup_fmap.
  destruct (a !! i) as [x|]; simpl; [|done].
  destruct (b !! i) as [y|]; simpl; [|done]. do 2 f_equal.
  unfold cmat_plus, mat_map. cbn [m_cols m_coeffs]. f_equal.
  apply list_eq. intros j.
  rewrite list_lookup_fmap, !lookup_zip_with, !list_lookup_fmap.
  destruct (m_coeffs x.2 !! j) as [r|]; simpl; [|done].
  destruct (m_coeffs y.2 !! j) as [r'|]; simpl; [|done]. f_equal.
  apply list_eq. intros n.
  rewrite list_lookup_fmap, !lookup_zip_with, !list_lookup_fmap.
  destruct (r !! n); simpl; [|done]. destruct (r' !! n); simpl; [|done].
  f_equal. unfold Cplx.scale, Cplx.add. simpl. f_equal; ring.
Qed.

Lemma foldl_mat_plus_gain (k : R) (M : MatrixXd) (Ms : list MatrixXd) :
  foldl mat_plus (mat_scale k M) (mat_scale k <$> Ms)
  = mat_scale k (foldl mat_plus M Ms).
Proof.
  revert M. induction Ms as [|N Ms IH]; intros M; [done|].
  simpl. by rewrite mat_plus_gain, IH.
Qed.

Lemma foldl_pairs_plus_gain (k : R) (a : list (Z * MatrixXcd))
    (l : list (list (Z * MatrixXcd))) :
  foldl pairs_plus (pairs_scale k a) (pairs_scale k <$> l)
  = pairs_scale k (foldl pairs_plus a l).
Proof.
  revert a. induction l as [|b l IH]; intros a; [done|].
  simpl. by rewrite pairs_plus_gain, IH.
Qed.

End GainRows.

Lemma Forall2_functional {A B : Type} (Rel : A → B → Prop) (l : list A)
    (k k' : list B) :
  (∀ x y y', Rel x y → Rel x y' → y = y') →
  Forall2 Rel l k → Forall2 Rel l k' → k = k'.
Proof.
  intros Hfun H. revert k'. induction H as [|x y l k Hxy _ IH]; intros k' H'.
  - by apply Forall2_nil_inv_l in H'.
  - apply Forall2_cons_inv_l in H' as (y' & k'' & Hxy' & Hk & ->).
    f_equal; [by eapply Hfun|by apply IH].
Qed.

Lemma mat_scale_rows (k : R) (F : nat) (l : list (list R)) :
  mat_scale k (mkMatrix F l)
  = mkMatrix F ((λ r : list R, (λ x, k * x)%R <$> r) <$> l).
Proof. done. Qed.

Section GainRun.
Context (fft_kernel : list R → nat → complex) (g : R).
Context (Hhom : homogeneous fft_kernel g).

Lemma result_gain d C L nfft tapers r :
  data_shape C L d → tapers_wf tapers L → (Z.of_nat L ≤ nfft)%Z →
  result_of fft_kernel C nfft tapers d r →
  result_of fft_kernel C nfft tapers (mat_scale g d) (gain_trial g r).
Proof.
  intros Hd Htap Hn Hr.
  rewrite (result_closed fft_kernel d C L nfft tapers r Hd Htap Hn Hr).
  destruct Hd as (Hwf & HC & HL).
  unfold result_of.
  rewrite (compute_trial_closed fft_kernel (new_trial (mat_scale g d)));
    cbn [matData new_trial vecPairCsd app].
  - rewrite (trial_spectra_gain fft_kernel g Hhom).
    unfold gain_trial. cbn [matData matPsd vecPairCsd]. do 2 f_equal.
    + rewrite mat_scale_rows. f_equal.
      rewrite <- !list_fmap_compose. apply list_fmap_ext. intros _ S _. simpl.
      apply psd_row_gain.
    + apply csd_entries_gain.
  - by apply mat_wf_map.
  - unfold mat_scale, mat_map, cols in *. simpl. by rewrite HL.
  - unfold mat_scale, mat_map, rows in *. simpl. by rewrite length_fmap, HC.
  - unfold mat_scale, mat_map, cols in *. simpl. by rewrite HL.
  - done.
Qed.

Lemma results_gain datas C L nfft tapers rs rsg :
  Forall (data_shape C L) datas → tapers_wf tapers L → (Z.of_nat L ≤ nfft)%Z →
  Forall2 (result_of fft_kernel C nfft tapers) datas rs →
  Forall2 (result_of fft_kernel C nfft tapers) (mat_scale g <$> datas) rsg →
  rsg = gain_trial g <$> rs.
Proof.
  intros Hd Htap Hn HF HFg.
  apply (Forall2_functional (result_of fft_kernel C nfft tapers)
           (mat_scale g <$> datas)); [|done|].
  - unfold result_of. congruence.
  - apply Forall2_fmap. clear HFg.
    induction HF as [|d r datas rs Hr _ IH]; [done|].
    apply Forall_cons in Hd as [Hd0 Hd]. constructor; [|by apply IH].
    by eapply result_gain.
Qed.

End GainRun.

(** X12.  In exact arithmetic, for an FFT routine that commutes with the
    multiplication of its input by g, and g not zero, a run over new trials
    gives the same network and the same coherency matrices when every
    sample of every trial is multiplied by g: the PSDs and the CSDs are
    multiplied by the square of g, which cancels in the quotient.  In
    floating point the results agree up to rounding, as long as no power
    overflows or underflows. *)
Theorem gain_invariance (fft_kernel : list R → nat → complex)
    (generateTapers : Z → string → MatrixXd * list R)
    (datas : list MatrixXd) (nfft0 : Z) (win : string) (C L : nat) (g : R)
    (net : Network) (vecCoherency : list (Z * MatrixXcd)) :
  homogeneous fft_kernel g → g ≠ 0%R →
  valid_run generateTapers datas win C L → C ≤ length (net_nodes net) →
  let sg := new_settings (new_trial <$> (mat_scale g <$> datas)) nfft0 win in
  let s := new_settings (new_trial <$> datas) nfft0 win in
  (∃ net', fst <$> calculateReal fft_kernel generateTapers net sg = Some net'
         ∧ fst <$> calculateReal fft_kernel generateTapers net s = Some net')
  ∧ (∃ net', fst <$> calculateImag fft_kernel generateTapers net sg = Some net'
           ∧ fst <$> calculateImag fft_kernel generateTapers net s = Some net')
  ∧ (∃ v, fst <$> calculate fft_kernel generateTapers vecCoherency sg = Some v
        ∧ fst <$> calculate fft_kernel generateTapers vecCoherency s = Some v).
Proof.
  intros Hhom Hg Hv Hn sg s. pose proof Hv as (Hne & Hd & Htap).
  assert (valid_run generateTapers (mat_scale g <$> datas) win C L) as Hvg.
  { split_and!; [by destruct datas| |done].
    apply Forall_fmap. eapply Forall_impl; [exact Hd|].
    intros d (Hwf & HC & HL). split_and!.
    - by apply mat_wf_map.
    - unfold mat_scale, mat_map, rows in *. simpl. by rewrite length_fmap.
    - done. }
  destruct (run_new_network fft_kernel generateTapers _ nfft0 win C L Hv)
    as (r & rs & HF & _ & _ & _ & HR & HI & HC).
  destruct (run_new_network fft_kernel generateTapers _ nfft0 win C L Hvg)
    as (rg & rsg & HFg & _ & _ & _ & HRg & HIg & HCg).
  pose proof (results_gain fft_kernel g Hhom datas C L _ _ (r :: rs) (rg :: rsg)
                Hd Htap (run_nfft_ge nfft0 L) HF HFg) as Heq.
  rewrite fmap_cons in Heq. injection Heq as -> ->.
  assert (0 < g * g)%R as Hk by nra.
  assert (psd_total (gain_trial g r) (gain_trial g <$> rs)
          = mat_scale (g * g) (psd_total r rs)) as Hpsd.
  { unfold psd_total. rewrite <- list_fmap_compose.
    rewrite (list_fmap_compose matPsd (mat_scale (g * g))).
    apply foldl_mat_plus_gain. }
  assert (csd_total (gain_trial g r) (gain_trial g <$> rs)
          = pairs_scale (g * g) (csd_total r rs)) as Hcsd.
  { unfold csd_total. rewrite <- list_fmap_compose.
    rewrite (list_fmap_compose vecPairCsd (pairs_scale (g * g))).
    apply foldl_pairs_plus_gain. }
  fold sg in HRg, HIg, HCg. fold s in HR, HI, HC.
  split_and!.
  - eexists. rewrite HRg, HR by done. simpl.
    by rewrite Hpsd, Hcsd, run_edges_scale.
  - eexists. rewrite HIg, HI by done. simpl.
    by rewrite Hpsd, Hcsd, run_edges_scale.
  - eexists. rewrite HCg, HC. simpl.
    by rewrite Hpsd, Hcsd, normalised_scale.
Qed.

(** The DFT commutes with every gain. *)
Lemma dft_kernel_homogeneous (g : R) : homogeneous dft_kernel g.
Proof.
  intros x k. unfold dft_kernel. rewrite length_fmap.
  set (N := INR (length x)). clearbody N.
  rewrite imap_fmap.
  assert (∀ (f : nat → R → complex) (l : list R),
            (∀ n v, f n (g * v)%R = Cplx.scale (f n v) g) →
            Csum (imap (λ n v, f n (g * v)%R) l) = Cplx.scale (Csum (imap f l)) g)
    as Hsum.
  { intros f l. revert f. induction l as [|v l IH]; intros f Hf.
    - simpl. unfold Cplx.scale, Cplx.zero. simpl. f_equal; lra.
    - cbn [imap Csum foldr].
      change (imap ((λ n v, f n (g * v)%R) ∘ S) l)
        with (imap (λ n v, (f ∘ S) n (g * v)%R) l).
      fold (Csum (imap (λ n v, (f ∘ S) n (g * v)%R) l)).
      fold (Csum (imap (f ∘ S) l)).
      rewrite (IH (f ∘ S)) by (intros; apply Hf).
      rewrite Hf. unfold Cplx.scale, Cplx.add. simpl. f_equal; lra. }
  apply (Hsum (λ n xn, Cplx.mk (xn * cos (2 * PI * INR k * INR n / N))
                         (- (xn * sin (2 * PI * INR k * INR n / N))))).
  intros n v. unfold Cplx.scale. simpl. f_equal; ring.
Qed.

(** ** The settings after a call, and the coefficients of a run *)

Section Frame.
Context (fft_kernel : list R → nat → complex).
Context (generateTapers : Z → string → MatrixXd * list R).

Lemma compute_trial_matData t r c n tapers t' :
  compute_trial fft_kernel t r c n tapers = Some t' → matData t' = matData t.
Proof.
  unfold compute_trial. intros H.
  destruct (mat_alloc_int (Z.of_nat (rows tapers.1)) c Cplx.zero) as [M0|];
    cbn [mbind option_bind] in H;
    [|done].
  destruct (mat_alloc_int r c 0%R) as [P0|]; cbn [mbind option_bind] in H;
    [|done].
  destruct (for_range 0 (Z.to_nat r) _ _) as [[[vts M] psd]|];
    cbn [mbind option_bind] in H; [|done].
  destruct (mat_alloc_int r c Cplx.zero) as [C0|]; cbn [mbind option_bind] in H;
    [|done].
  destruct (for_range 0 (Z.to_nat r) _ _) as [[M' pairs]|];
    cbn [mbind option_bind] in H; [|done].
  by injection H as <-.
Qed.

Lemma compute_matData t P Cs r c n tapers t' P' Cs' :
  compute fft_kernel t P Cs r c n tapers = Some (t', P', Cs') →
  matData t' = matData t.
Proof.
  unfold compute. destruct (already_computed t r c); [by intros [= <- _ _]|].
  destruct (compute_trial fft_kernel t r c n tapers) as [t1|] eqn:E;
    cbn [mbind option_bind]; [|done].
  destruct (merge t1 P Cs) as [[p cs]|]; cbn [mbind option_bind]; [|done].
  intros [= <- _ _]. by eapply compute_trial_matData.
Qed.

Lemma compute_all_matData trials P Cs r c n tapers trials' P' Cs' :
  compute_all fft_kernel trials P Cs r c n tapers = Some (trials', P', Cs') →
  matData <$> trials' = matData <$> trials.
Proof.
  revert P Cs trials' P' Cs'.
  induction trials as [|t trials IH]; intros P Cs trials' P' Cs' H.
  - by injection H as <- _ _.
  - cbn [compute_all] in H.
    destruct (compute fft_kernel t P Cs r c n tapers) as [[[t1 P1] C1]|] eqn:E1;
      cbn [mbind option_bind] in H; [|done].
    destruct (compute_all fft_kernel trials P1 C1 r c n tapers)
      as [[[ts P2] C2]|] eqn:E2; cbn [mbind option_bind] in H; [|done].
    injection H as <- _ _. rewrite !fmap_cons. f_equal.
    + by eapply compute_matData.
    + by eapply IH.
Qed.

Lemma spectra_same_configuration s first s' :
  spectra fft_kernel generateTapers s first = Some s' → same_configuration s s'.
Proof.
  unfold spectra. intros H.
  destruct (compute_all _ _ _ _ _ _ _ _) as [[[ts P] Cs]|] eqn:E;
    cbn [mbind option_bind] in H; [|done].
  injection H as <-. split_and!; [done..|]. by eapply compute_all_matData.
Qed.

End Frame.

(** X18.  A call that returns leaves the configuration as it found it:
    the configured FFT length (the length raised to the sample count in
    lines 116 to 120 is a local variable and is not written back), the
    window type, and the data of every trial, in the order of the list. *)
Theorem calls_keep_configuration (fft_kernel : list R → nat → complex)
    (generateTapers : Z → string → MatrixXd * list R)
    (net net' : Network) (vecCoherency : list (Z * MatrixXcd))
    (s s' : ConnectivitySettings) :
  calculateReal fft_kernel generateTapers net s = Some (net', s')
  ∨ calculateImag fft_kernel generateTapers net s = Some (net', s')
  ∨ (∃ v, calculate fft_kernel generateTapers vecCoherency s = Some (v, s')) →
  same_configuration s s'.
Proof.
  unfold calculateReal, calculateImag, calculate.
  assert (same_configuration s s) as Hrefl by by split_and!.
  intros [H|[H|[v H]]]; destruct (m_dataList s) as [|first rest] eqn:Hl.
  - by injection H as _ <-.
  - destruct (spectra fft_kernel generateTapers s first) as [s1|] eqn:Hs;
      cbn [mbind option_bind] in H; [|done].
    apply spectra_same_configuration in Hs.
    destruct (foldlM _ _ _) as [n1|]; cbn [mbind option_bind] in H; [|done].
    by injection H as _ <-.
  - by injection H as _ <-.
  - destruct (spectra fft_kernel generateTapers s first) as [s1|] eqn:Hs;
      cbn [mbind option_bind] in H; [|done].
    apply spectra_same_configuration in Hs.
    destruct (foldlM _ _ _) as [n1|]; cbn [mbind option_bind] in H; [|done].
    by injection H as _ <-.
  - by injection H as _ <-.
  - destruct (spectra fft_kernel generateTapers s first) as [s1|] eqn:Hs;
      cbn [mbind option_bind] in H; [|done].
    apply spectra_same_configuration in Hs.
    destruct (mapM _ _) as [csd|]; cbn [mbind option_bind] in H; [|done].
    injection H as _ <-. destruct Hs as (? & ? & ?). by split_and!.
Qed.

Lemma no_power_closed : sum_closed no_power.
Proof.
  unfold no_power. split_and!; [done| |].
  - intros ? ? ? ? ? ? -> ->. lra.
  - intros ? ? ? c _ ->. unfold Rdiv. lra.
Qed.

Lemma coeff_is_Some {A : Type} (M : Matrix A) i k :
  mat_wf M → i < rows M → k < cols M → is_Some (coeff M i k).
Proof.
  intros Hwf Hi Hk. unfold coeff, row.
  destruct (lookup_lt_is_Some_2 (m_coeffs M) i Hi) as [r Hr]. rewrite Hr. simpl.
  apply lookup_lt_is_Some_2. by rewrite (Forall_lookup_1 _ _ _ _ Hwf Hr).
Qed.

Lemma coeff_lt {A : Type} (M : Matrix A) i k x :
  mat_wf M → coeff M i k = Some x → i < rows M ∧ k < cols M.
Proof.
  intros Hwf H. unfold coeff, row in H.
  destruct (m_coeffs M !! i) as [r|] eqn:Hr; [|done]. simpl in H.
  split; [by eapply lookup_lt_Some|].
  rewrite <- (Forall_lookup_1 _ _ _ _ Hwf Hr). by eapply lookup_lt_Some.
Qed.

Section Flat.
Context (fft_kernel : list R → nat → complex).
Context (Hzero : homogeneous fft_kernel 0).

Lemma demeaned_flat (L : nat) (c : R) :
  demeaned (replicate L c) = replicate L 0%R.
Proof.
  destruct L as [|n]; [done|].
  unfold demeaned, mean. rewrite fmap_replicate. f_equal.
  rewrite length_replicate.
  assert (Rsum (replicate (S n) c) = (INR (S n) * c)%R) as ->.
  { induction (S n) as [|m IH]; [simpl; lra|].
    cbn [replicate Rsum foldr]. fold (Rsum (replicate m c)).
    rewrite IH, S_INR. lra. }
  assert (INR (S n) ≠ 0%R) by by apply not_0_INR.
  by field.
Qed.

Lemma spectrum_flat d tapers nfft i t k L c :
  row d i = Some (replicate L c) →
  spec_spectrum fft_kernel d tapers nfft i t k = Cplx.zero.
Proof.
  intros Hrow. unfold spec_spectrum. rewrite Hrow. cbn [mbind option_bind].
  destruct (row tapers.1 t) as [taper|]; [|done]. cbn [mbind option_bind].
  destruct (tapers.2 !! t) as [w|]; [|done]. cbn [mbind option_bind].
  rewrite demeaned_flat.
  assert (zip_with Rmult (replicate L 0%R) taper
          = (λ v, 0 * v)%R <$> take L taper) as ->.
  { apply list_eq. intros n. rewrite lookup_zip_with, list_lookup_fmap.
    destruct (decide (n < L)) as [Hn|Hn].
    - rewrite lookup_replicate_2, lookup_take_lt by done.
      by destruct (taper !! n).
    - rewrite lookup_take_ge by lia.
      assert (replicate L 0%R !! n = None) as ->; [|done].
      apply lookup_ge_None. rewrite length_replicate. lia. }
  rewrite (fft_fwd_gain fft_kernel 0 Hzero), list_lookup_fmap.
  destruct (fft_fwd fft_kernel (take L taper) nfft !! k) as [z|]; [|done].
  simpl. unfold Cplx.scale, Cplx.zero. simpl. f_equal; ring.
Qed.

End Flat.

(** X17.  In exact arithmetic, for an FFT routine that maps the zero
    signal to zero, a channel that is constant in every trial is left
    without power: the mean that line 392 removes is the constant, and
    every bin of its row of the square-rooted PSD sum is 0, which is the
    divisor of every pair with this channel in [computePSDCSD].  In
    floating point the mean of a constant row can differ from the constant
    in the last digit, which leaves a power of the size of the rounding
    error in place of 0. *)
Theorem flat_channel_zero_power (fft_kernel : list R → nat → complex)
    (generateTapers : Z → string → MatrixXd * list R)
    (datas : list MatrixXd) (nfft0 : Z) (win : string) (C L : nat)
    (vecCoherency : list (Z * MatrixXcd)) (i : nat) :
  homogeneous fft_kernel 0 →
  valid_run generateTapers datas win C L →
  (∀ d, d ∈ datas → ∃ c, row d i = Some (replicate L c)) →
  ∃ v s',
    calculate fft_kernel generateTapers vecCoherency
      (new_settings (new_trial <$> datas) nfft0 win) = Some (v, s')
    ∧ ∀ k si, coeff (matPsdSum (data s')) i k = Some si → si = 0%R.
Proof.
  intros Hzero Hv Hflat.
  destruct (run_new_network fft_kernel generateTapers datas nfft0 win C L Hv)
    as (r & rs & HF & Hp & Hc & Hi & _ & _ & HC).
  eexists _, _. split; [apply HC|]. cbn [data matPsdSum].
  intros k si Hsi.
  destruct Hp as (Hrp & Hcp & Hwp).
  destruct (coeff_lt _ _ _ _ Hwp Hsi) as [HiC HkF]. rewrite Hrp in HiC.
  rewrite Hcp in HkF.
  apply mat_map_coeff in Hsi as (p & Hp0 & ->).
  destruct Hc as [Hlen Hall].
  destruct (lookup_lt_is_Some_2 (csd_total r rs) i) as [e He]; [lia|].
  pose proof (Forall_lookup_1 _ _ _ _ Hall He) as (Hre & Hce & Hwe).
  destruct (coeff_is_Some e.2 i k) as [z Hz]; [done|lia|lia|].
  apply (run_holds_at fft_kernel generateTapers no_power (λ a b, a = i ∧ b = i)
           datas nfft0 win C L r rs no_power_closed) in HF; [|lia| |done].
  - rewrite (HF i i k e z p p); [apply sqrt_0|done..].
  - intros d a b t k0 Hd [-> ->]. cbv zeta. unfold no_power.
    destruct (Hflat d Hd) as (c & Hrow).
    rewrite (spectrum_flat fft_kernel Hzero d _ _ i t k0 L c Hrow).
    unfold Cplx.abs2, Cplx.zero. simpl. lra.
Qed.

Lemma mat_plus_coeff (M N : MatrixXd) i k x :
  coeff (mat_plus M N) i k = Some x →
  ∃ a b, coeff M i k = Some a ∧ coeff N i k = Some b ∧ x = (a + b)%R.
Proof.
  unfold coeff, row, mat_plus. cbn [m_coeffs]. intros H.
  destruct (zip_with _ _ _ !! i) as [r|] eqn:Er; [|done].
  apply lookup_zip_with_Some in Er as (r1 & r2 & -> & Hr1 & Hr2).
  cbn [mbind option_bind] in H.
  apply lookup_zip_with_Some in H as (a & b & -> & Ha & Hb).
  exists a, b. by rewrite Hr1, Hr2.
Qed.

Lemma pairs_plus_coeff (A B : list (Z * MatrixXcd)) i j k e z :
  pairs_plus A B !! i = Some e → coeff e.2 j k = Some z →
  ∃ ea eb a b, A !! i = Some ea ∧ B !! i = Some eb
    ∧ coeff ea.2 j k = Some a ∧ coeff eb.2 j k = Some b ∧ z = Cplx.add a b.
Proof.
  unfold pairs_plus. intros He Hz.
  apply lookup_zip_with_Some in He as (ea & eb & -> & Hea & Heb).
  unfold coeff, row, cmat_plus in *. cbn [snd m_coeffs] in *.
  destruct (zip_with _ _ _ !! j) as [r|] eqn:Er; [|done].
  apply lookup_zip_with_Some in Er as (r1 & r2 & -> & Hr1 & Hr2).
  cbn [mbind option_bind] in Hz.
  apply lookup_zip_with_Some in Hz as (a & b & -> & Ha & Hb).
  exists ea, eb, a, b. by rewrite Hr1, Hr2.
Qed.

Lemma coeffs_are_plus c1 p1 c2 p2 A PA B PB :
  coeffs_are c1 p1 A PA → coeffs_are c2 p2 B PB →
  coeffs_are (λ i j k, Cplx.add (c1 i j k) (c2 i j k))
    (λ i k, p1 i k + p2 i k)%R (pairs_plus A B) (mat_plus PA PB).
Proof.
  intros [Hc1 Hp1] [Hc2 Hp2]. split.
  - intros i j k e z Hij He Hz.
    destruct (pairs_plus_coeff _ _ _ _ _ _ _ He Hz)
      as (ea & eb & a & b & Hea & Heb & Ha & Hb & ->).
    by rewrite (Hc1 i j k ea a), (Hc2 i j k eb b).
  - intros i k p Hp.
    destruct (mat_plus_coeff _ _ _ _ _ Hp) as (a & b & Ha & Hb & ->).
    by rewrite (Hp1 i k a), (Hp2 i k b).
Qed.

Section Sums.
Context (fft_kernel : list R → nat → complex).
Context (generateTapers : Z → string → MatrixXd * list R).

Lemma coeffs_are_total C L nfft tapers (ds : list MatrixXd)
    (rs : list ConnectivityTrialData) c0 p0 A PA :
  Forall (data_shape C L) ds → tapers_wf tapers L → (Z.of_nat L ≤ nfft)%Z →
  Forall2 (result_of fft_kernel C nfft tapers) ds rs →
  coeffs_are c0 p0 A PA →
  coeffs_are
    (λ i j k, foldl Cplx.add (c0 i j k)
                ((λ d, spec_csd fft_kernel d tapers nfft i j k) <$> ds))
    (λ i k, foldl Rplus (p0 i k)
              ((λ d, spec_psd fft_kernel d tapers nfft i k) <$> ds))
    (foldl pairs_plus A (vecPairCsd <$> rs))
    (foldl mat_plus PA (matPsd <$> rs)).
Proof.
  intros Hd Htap Hn HF. revert c0 p0 A PA Hd.
  induction HF as [|d r ds rs Hr _ IH]; intros c0 p0 A PA Hd H0; [done|].
  apply Forall_cons in Hd as [Hd0 Hd]. cbn [fmap list_fmap foldl].
  apply (IH (λ i j k, Cplx.add (c0 i j k) (spec_csd fft_kernel d tapers nfft i j k))
            (λ i k, p0 i k + spec_psd fft_kernel d tapers nfft i k)%R);
    [done|].
  apply coeffs_are_plus; [done|].
  destruct (result_coeffs fft_kernel d C L nfft tapers r Hd0 Htap Hn Hr)
    as (Hp & Hc & _).
  split; [exact Hc|exact Hp].
Qed.

Lemma run_coeffs_are d ds nfft0 win C L r rs :
  valid_run generateTapers (d :: ds) win C L →
  Forall2 (result_of fft_kernel C (run_nfft nfft0 L)
             (generateTapers (Z.of_nat L) win)) (d :: ds) (r :: rs) →
  coeffs_are
    (csd_sum fft_kernel d ds (generateTapers (Z.of_nat L) win) (run_nfft nfft0 L))
    (psd_sum fft_kernel d ds (generateTapers (Z.of_nat L) win) (run_nfft nfft0 L))
    (csd_total r rs) (psd_total r rs).
Proof.
  intros (_ & Hd & Htap) HF.
  apply Forall2_cons_1 in HF as [Hr HF]. apply Forall_cons in Hd as [Hd0 Hd].
  apply (coeffs_are_total C L); [done|done|apply run_nfft_ge|done|].
  destruct (result_coeffs fft_kernel d C L _ _ r Hd0 Htap (run_nfft_ge nfft0 L) Hr)
    as (Hp & Hc & _).
  split; [exact Hc|exact Hp].
Qed.

End Sums.

(** X19.  [calculate] on new trials, end to end: the result has one
    matrix per channel, the stored PSD sum is the square root of the sum
    over the trials of the PSD of the description, and for i <= j the
    coefficient of bin k in row j of the matrix of channel i is the sum
    over the trials of the CSD of the description, divided by the product
    of the two square roots of the sums of the PSDs of the channels i and
    j; the sums run in the order of the trial list. *)
Theorem coherency_formula (fft_kernel : list R → nat → complex)
    (generateTapers : Z → string → MatrixXd * list R)
    (d : MatrixXd) (ds : list MatrixXd) (nfft0 : Z) (win : string) (C L : nat)
    (vecCoherency : list (Z * MatrixXcd)) :
  valid_run generateTapers (d :: ds) win C L →
  let tapers := generateTapers (Z.of_nat L) win in
  let nfft := run_nfft nfft0 L in
  ∃ v s',
    calculate fft_kernel generateTapers vecCoherency
      (new_settings (new_trial <$> d :: ds) nfft0 win) = Some (v, s')
    ∧ length v = C
    ∧ (∀ i k si, coeff (matPsdSum (data s')) i k = Some si →
         si = sqrt (psd_sum fft_kernel d ds tapers nfft i k))
    ∧ ∀ i j k, i ≤ j → j < C → k < spec_bins nfft →
        ∃ e, v !! i = Some e ∧ e.1 = Z.of_nat i
          ∧ coeff e.2 j k
            = Some (Cplx.divr (csd_sum fft_kernel d ds tapers nfft i j k)
                      (sqrt (psd_sum fft_kernel d ds tapers nfft i k)
                       * sqrt (psd_sum fft_kernel d ds tapers nfft j k))).
Proof.
  intros Hv tapers nfft.
  destruct (run_new_network fft_kernel generateTapers (d :: ds) nfft0 win C L Hv)
    as (r & rs & HF & Hp & Hc & Hi & _ & _ & HC).
  destruct (run_coeffs_are fft_kernel generateTapers d ds nfft0 win C L r rs Hv HF)
    as [Hcsd Hpsd]. fold tapers nfft in Hcsd, Hpsd.
  destruct (normalised_shape C _ _ _ Hc Hi Hp) as [[Hlen Hall] Hi'].
  eexists _, _. split; [apply HC|]. cbn [data matPsdSum]. split_and!.
  - done.
  - intros i k si Hsi. apply mat_map_coeff in Hsi as (p & Hp0 & ->).
    by rewrite (Hpsd _ _ _ Hp0).
  - intros i j k Hij HjC HkF.
    destruct (lookup_lt_is_Some_2
                (normalised (csd_total r rs) (mat_map sqrt (psd_total r rs))) i)
      as [e He]; [lia|].
    exists e. split; [done|]. split; [by apply Hi'|].
    pose proof (Forall_lookup_1 _ _ _ _ Hall He) as (Hre & Hce & Hwe).
    destruct (coeff_is_Some e.2 j k) as [c Hcf]; [done|lia|by rewrite Hce|].
    rewrite Hcf. f_equal.
    apply normalised_lookup in He as (e0 & He0 & ->). cbn [snd] in Hcf.
    apply coherency_coeff in Hcf as (z & si & sj & Hz & Hsi & Hsj & ->).
    rewrite (Hi _ _ He0), Nat2Z.id in Hsi.
    apply mat_map_coeff in Hsi as (p & Hp0 & ->).
    apply mat_map_coeff in Hsj as (q & Hq0 & ->).
    by rewrite (Hcsd i j k e0 z Hij He0 Hz), (Hpsd _ _ _ Hp0), (Hpsd _ _ _ Hq0).
Qed.

Lemma conj_add (x y : complex) :
  Cplx.conj (Cplx.add x y) = Cplx.add (Cplx.conj x) (Cplx.conj y).
Proof. unfold Cplx.conj, Cplx.add. simpl. f_equal. lra. Qed.

Lemma conj_divr (z : complex) (c : R) :
  Cplx.conj (Cplx.divr z c) = Cplx.divr (Cplx.conj z) c.
Proof. unfold Cplx.conj, Cplx.divr. simpl. f_equal. unfold Rdiv. lra. Qed.

Lemma conj_cross (x y : complex) :
  Cplx.mul y (Cplx.conj x) = Cplx.conj (Cplx.mul x (Cplx.conj y)).
Proof. unfold Cplx.conj, Cplx.mul. simpl. f_equal; lra. Qed.

Lemma conj_halving nfft k (z : complex) :
  spec_halving (λ z, Cplx.divr z 2) nfft k (Cplx.conj z)
  = Cplx.conj (spec_halving (λ z, Cplx.divr z 2) nfft k z).
Proof.
  unfold spec_halving.
  destruct (k =? 0), (Z.even nfft && (k =? spec_bins nfft - 1));
    by rewrite ?conj_divr.
Qed.

Lemma conj_Csum {T : Type} (f : T → complex) (l : list T) :
  Csum ((λ t, Cplx.conj (f t)) <$> l) = Cplx.conj (Csum (f <$> l)).
Proof.
  induction l as [|t l IH].
  - simpl. unfold Cplx.conj, Cplx.zero. simpl. f_equal. lra.
  - rewrite !fmap_cons. cbn [Csum foldr].
    fold (Csum ((λ t, Cplx.conj (f t)) <$> l)). fold (Csum (f <$> l)).
    by rewrite IH, conj_add.
Qed.

Lemma conj_foldl_add {T : Type} (f : T → complex) (z : complex) (l : list T) :
  foldl Cplx.add (Cplx.conj z) ((λ t, Cplx.conj (f t)) <$> l)
  = Cplx.conj (foldl Cplx.add z (f <$> l)).
Proof.
  revert z. induction l as [|t l IH]; intros z; [done|].
  rewrite !fmap_cons. cbn [foldl]. by rewrite <- conj_add, IH.
Qed.

Section Swap.
Context (fft_kernel : list R → nat → complex).

Lemma swap_channels_rows a b (d : MatrixXd) C L :
  data_shape C L d → a < C → b < C → a ≠ b →
  data_shape C L (swap_channels a b d)
  ∧ row (swap_channels a b d) a = row d b
  ∧ row (swap_channels a b d) b = row d a.
Proof.
  intros (Hwf & HC & HL) Ha Hb Hab. unfold swap_channels, rows in *.
  destruct (lookup_lt_is_Some_2 (m_coeffs d) a) as [ra Hra]; [lia|].
  destruct (lookup_lt_is_Some_2 (m_coeffs d) b) as [rb Hrb]; [lia|].
  unfold row. rewrite Hra, Hrb. cbn [m_coeffs]. split_and!.
  - split_and!.
    + unfold mat_wf, cols in *. cbn [m_cols m_coeffs].
      apply Forall_insert; [apply Forall_insert; [done|]|].
      * exact (Forall_lookup_1 _ _ _ _ Hwf Hra).
      * exact (Forall_lookup_1 _ _ _ _ Hwf Hrb).
    + unfold rows. cbn [m_coeffs]. by rewrite !length_insert.
    + done.
  - rewrite list_lookup_insert_eq; [done|]. rewrite length_insert. lia.
  - rewrite list_lookup_insert_ne by done.
    rewrite list_lookup_insert_eq; [done|lia].
Qed.

Lemma spec_spectrum_row (d d' : MatrixXd) tapers nfft i i' t k :
  row d' i' = row d i →
  spec_spectrum fft_kernel d' tapers nfft i' t k
  = spec_spectrum fft_kernel d tapers nfft i t k.
Proof. intros H. unfold spec_spectrum. by rewrite H. Qed.

Lemma spec_psd_row (d d' : MatrixXd) tapers nfft i i' k :
  row d' i' = row d i →
  spec_psd fft_kernel d' tapers nfft i' k = spec_psd fft_kernel d tapers nfft i k.
Proof.
  intros H. unfold spec_psd. do 3 f_equal.
  apply list_fmap_ext. intros _ t _. by rewrite (spec_spectrum_row d d' _ _ i i').
Qed.

Lemma spec_csd_swap (d d' : MatrixXd) tapers nfft a b k :
  row d' a = row d b → row d' b = row d a →
  spec_csd fft_kernel d' tapers nfft a b k
  = Cplx.conj (spec_csd fft_kernel d tapers nfft a b k).
Proof.
  intros Ha Hb. unfold spec_csd.
  rewrite <- conj_halving, conj_divr, <- conj_Csum. do 3 f_equal.
  apply list_fmap_ext. intros _ t _.
  rewrite (spec_spectrum_row d d' _ _ b a), (spec_spectrum_row d d' _ _ a b) by done.
  apply conj_cross.
Qed.

End Swap.

(** X20.  The order of two channels decides the sign of the imaginary
    part: when the channels a < b are exchanged in every trial, the
    coefficient that [calculate] returns for the pair (a, b) is the complex
    conjugate of the one it returns for the data as they are. *)
Theorem channel_swap_conjugates (fft_kernel : list R → nat → complex)
    (generateTapers : Z → string → MatrixXd * list R)
    (d : MatrixXd) (ds : list MatrixXd) (nfft0 : Z) (win : string) (C L : nat)
    (vecCoherency : list (Z * MatrixXcd)) (a b : nat) :
  valid_run generateTapers (d :: ds) win C L → a < b → b < C →
  ∃ v s v' s',
    calculate fft_kernel generateTapers vecCoherency
      (new_settings (new_trial <$> d :: ds) nfft0 win) = Some (v, s)
    ∧ calculate fft_kernel generateTapers vecCoherency
        (new_settings (new_trial <$> (swap_channels a b <$> d :: ds)) nfft0 win)
      = Some (v', s')
    ∧ ∀ k, k < spec_bins (run_nfft nfft0 L) →
        ∃ e e' c,
          v !! a = Some e ∧ v' !! a = Some e'
          ∧ coeff e.2 b k = Some c ∧ coeff e'.2 b k = Some (Cplx.conj c).
Proof.
  intros Hv Hab HbC. pose proof Hv as (_ & Hd & Htap).
  assert (valid_run generateTapers (swap_channels a b <$> d :: ds) win C L) as Hv'.
  { split_and!; [done| |done]. apply Forall_fmap.
    eapply Forall_impl; [exact Hd|]. intros x Hx. simpl.
    apply (swap_channels_rows a b x C L Hx); lia. }
  rewrite fmap_cons in Hv'.
  destruct (run_new_network fft_kernel generateTapers (d :: ds) nfft0 win C L Hv)
    as (r & rs & HF & Hp & Hc & Hi & _ & _ & HC).
  destruct (run_new_network fft_kernel generateTapers _ nfft0 win C L Hv')
    as (r' & rs' & HF' & Hp' & Hc' & Hi' & _ & _ & HC').
  destruct (run_coeffs_are fft_kernel generateTapers d ds nfft0 win C L r rs Hv HF)
    as [Hcsd Hpsd].
  destruct (run_coeffs_are fft_kernel generateTapers _ _ nfft0 win C L r' rs' Hv' HF')
    as [Hcsd' Hpsd'].
  destruct (normalised_shape C _ _ _ Hc Hi Hp) as [[Hlen Hall] _].
  destruct (normalised_shape C _ _ _ Hc' Hi' Hp') as [[Hlen' Hall'] _].
  rewrite fmap_cons.
  eexists _, _, _, _. split; [apply HC|]. split; [apply HC'|].
  intros k Hk.
  destruct (lookup_lt_is_Some_2 _ a ltac:(rewrite Hlen; lia)) as [e He].
  destruct (lookup_lt_is_Some_2 _ a ltac:(rewrite Hlen'; lia)) as [e' He'].
  pose proof (Forall_lookup_1 _ _ _ _ Hall He) as (Hre & Hce & Hwe).
  pose proof (Forall_lookup_1 _ _ _ _ Hall' He') as (Hre' & Hce' & Hwe').
  destruct (coeff_is_Some e.2 b k) as [c Hcf]; [done|lia|by rewrite Hce|].
  destruct (coeff_is_Some e'.2 b k) as [c' Hcf']; [done|lia|by rewrite Hce'|].
  exists e, e', c. split_and!; [done..|]. rewrite Hcf'. f_equal.
  apply normalised_lookup in He as (e0 & He0 & ->). cbn [snd] in Hcf.
  apply normalised_lookup in He' as (e0' & He0' & ->). cbn [snd] in Hcf'.
  apply coherency_coeff in Hcf as (z & si & sj & Hz & Hsi & Hsj & ->).
  apply coherency_coeff in Hcf' as (z' & si' & sj' & Hz' & Hsi' & Hsj' & ->).
  rewrite (Hi _ _ He0), Nat2Z.id in Hsi.
  rewrite (Hi' _ _ He0'), Nat2Z.id in Hsi'.
  apply mat_map_coeff in Hsi as (p & Hp0 & ->).
  apply mat_map_coeff in Hsj as (q & Hq0 & ->).
  apply mat_map_coeff in Hsi' as (p' & Hp0' & ->).
  apply mat_map_coeff in Hsj' as (q' & Hq0' & ->).
  assert (∀ x, x ∈ d :: ds →
            row (swap_channels a b x) a = row x b
            ∧ row (swap_channels a b x) b = row x a) as Hrows.
  { intros x Hx. pose proof (proj1 (Forall_forall _ _) Hd x Hx) as Hsh.
    apply (swap_channels_rows a b x C L Hsh); lia. }
  assert (z' = Cplx.conj z) as ->.
  { rewrite (Hcsd' a b k e0' z'), (Hcsd a b k e0 z) by (done || lia).
    unfold csd_sum. rewrite <- list_fmap_compose.
    destruct (Hrows d) as [Ha Hb]; [by left|].
    rewrite (spec_csd_swap fft_kernel d _ _ _ a b k Ha Hb).
    rewrite <- conj_foldl_add. f_equal.
    apply Forall_fmap_ext_1, Forall_forall. intros x Hx. simpl.
    destruct (Hrows x) as [Ha' Hb']; [by right|].
    by apply spec_csd_swap. }
  assert (p' = q ∧ q' = p) as [-> ->].
  { rewrite (Hpsd' _ _ _ Hp0'), (Hpsd' _ _ _ Hq0'), (Hpsd _ _ _ Hp0),
      (Hpsd _ _ _ Hq0).
    unfold psd_sum. rewrite <- !list_fmap_compose.
    destruct (Hrows d) as [Ha Hb]; [by left|].
    rewrite (spec_psd_row fft_kernel d _ _ _ b a k Ha),
      (spec_psd_row fft_kernel d _ _ _ a b k Hb).
    split; f_equal; apply Forall_fmap_ext_1, Forall_forall; intros x Hx; simpl;
      destruct (Hrows x) as [Ha' Hb']; try (by right);
      by apply spec_psd_row. }
  rewrite conj_divr. f_equal. lra.
Qed.

(** ** The sums over the trials *)







(** ** The theorems on concrete data *)

Lemma ones_tapers_wf (L : nat) : tapers_wf (ones_tapers (Z.of_nat L) "ones") L.
Proof.
  unfold tapers_wf, ones_tapers, mat_wf, cols, rows. simpl.
  rewrite Nat2Z.id. split_and!; [|done..].
  repeat constructor. by rewrite length_replicate.
Qed.

Lemma two_channels_shape : data_shape 2 2 two_channels.
Proof. split_and!; [|done..]. by repeat constructor. Qed.

Lemma valid_run_single (d : MatrixXd) (C L : nat) :
  data_shape C L d → valid_run ones_tapers [d] "ones" C L.
Proof.
  intros Hd. split_and!; [done|by apply Forall_singleton|apply ones_tapers_wf].
Qed.

Lemma compute_psd_csd_witness :
  ∃ result,
    compute_trial dft_kernel (new_trial two_channels) 2 2 2 (ones_tapers 2 "ones")
    = Some result
    ∧ coeff (matPsd result) 0 1
      = Some (spec_psd dft_kernel two_channels (ones_tapers 2 "ones") 2 0 1)
    ∧ ∃ M, vecPairCsd result !! 0 = Some (0%Z, M)
         ∧ coeff M 1 1
           = Some (spec_csd dft_kernel two_channels (ones_tapers 2 "ones") 2 0 1 1).
Proof.
  destruct (compute_psd_csd dft_kernel (new_trial two_channels) mat_empty [] 2 2 2
              (ones_tapers 2 "ones"))
    as (r & H1 & _ & _ & _ & _ & Hpsd & Hcsd).
  - apply two_channels_shape.
  - apply (ones_tapers_wf 2).
  - reflexivity.
  - simpl. lia.
  - reflexivity.
  - reflexivity.
  - exists r. split; [exact H1|]. split.
    + apply Hpsd; vm_compute; lia.
    + destruct (Hcsd 0 1 1) as (M & HM & _ & _ & HMc); [vm_compute; lia..|].
      exists M. split; [exact HM|exact HMc].
Defined.

Lemma network_one_edge_per_pair_witness :
  (∃ net s',
     calculateReal dft_kernel ones_tapers (new_network 3)
       (new_settings (new_trial <$> [three_channels]) 4 "ones") = Some (net, s')
     ∧ one_edge_per_pair 3 (spec_bins (run_nfft 4 2)) net)
  ∧ (∃ net s',
       calculateImag dft_kernel ones_tapers (new_network 3)
         (new_settings (new_trial <$> [three_channels]) 4 "ones")
       = Some (net, s')
       ∧ one_edge_per_pair 3 (spec_bins (run_nfft 4 2)) net).
Proof.
  apply (network_one_edge_per_pair dft_kernel ones_tapers [three_channels] 4
           "ones" 3 2 3).
  - apply valid_run_single. split_and!; [|reflexivity..]. by repeat constructor.
  - lia.
Defined.


Lemma trial_count_invariance_witness :
  ∃ net',
    fst <$> calculateReal dft_kernel ones_tapers (new_network 2)
              (new_settings (new_trial <$> replicate 3 two_channels) 4 "ones")
    = Some net'
    ∧ fst <$> calculateReal dft_kernel ones_tapers (new_network 2)
                (new_settings (new_trial <$> [two_channels]) 4 "ones")
      = Some net'.
Proof.
  apply (trial_count_invariance dft_kernel ones_tapers two_channels 4 "ones"
           2 2 3 (new_network 2) []).
  - apply two_channels_shape.
  - apply (ones_tapers_wf 2).
  - lia.
  - simpl. lia.
Defined.

Lemma bins_of_run_witness :
  ∃ net s',
    calculateReal dft_kernel ones_tapers (new_network 3)
      (new_settings (new_trial <$> [three_channels]) 5 "ones") = Some (net, s')
    ∧ bins_everywhere 3 s'
    ∧ Forall (λ e, rows (matWeight e) = 3) (network_edges net).
Proof.
  apply (bins_of_run dft_kernel ones_tapers [three_channels] 5 "ones" 3 2 3
           (new_trial three_channels) []).
  - apply valid_run_single. split_and!; [|reflexivity..]. by repeat constructor.
  - lia.
  - reflexivity.
Defined.

Lemma no_input_validation_witness :
  calculateReal dft_kernel ones_tapers (new_network 1)
    (new_settings [new_trial one_channel] 0 "ones")
  = keep_nfft 0
      <$> calculateReal dft_kernel ones_tapers (new_network 1)
            (set_nfft 2 (new_settings [new_trial one_channel] 0 "ones")).
Proof.
  apply (no_input_validation dft_kernel ones_tapers
           (new_settings [new_trial one_channel] 0 "ones")
           (new_trial one_channel) [] (new_network 1) [] [no_channel] 4 "ones" 2).
  - reflexivity.
  - simpl. lia.
  - apply valid_run_single. split_and!; [|reflexivity..]. constructor.
Defined.

Lemma empty_trials_return_witness :
  calculateReal dft_kernel ones_tapers (new_network 2) (new_settings [] 4 "ones")
  = Some (new_network 2, new_settings [] 4 "ones")
  ∧ calculateImag dft_kernel ones_tapers (new_network 2)
      (new_settings [] 4 "ones")
    = Some (new_network 2, new_settings [] 4 "ones")
  ∧ calculate dft_kernel ones_tapers [] (new_settings [] 4 "ones")
    = Some ([], new_settings [] 4 "ones").
Proof.
  apply (empty_trials_return dft_kernel ones_tapers (new_network 2) []
           (new_settings [] 4 "ones")).
  reflexivity.
Defined.

Lemma compute_memoized_witness :
  compute dft_kernel memo_trial mat_empty [] 1 2 2 (ramp_tapers 2 "ramp")
  = Some (memo_trial, mat_empty, []).
Proof.
  apply (compute_memoized dft_kernel memo_trial mat_empty [] 1 2 2
           (ramp_tapers 2 "ramp")); reflexivity.
Defined.

Lemma self_pair_twice_in_node_witness :
  ∃ net' e adj,
    computePSDCSDReal (new_network 2)
      (0%Z, mkMatrix 2 [[Cplx.mk 4 0; Cplx.mk 1 0]; [Cplx.mk 2 1; Cplx.mk 0 1]])
      (mkMatrix 2 [[2; 1]; [1; 3]]%R) = Some net'
    ∧ net_store net' !! 0 = Some e
    ∧ endpoints e = (0%Z, 0%Z)
    ∧ occurrences 0 (net_edges net') = 1
    ∧ net_nodes net' !! 0 = Some adj
    ∧ occurrences 0 adj = 2.
Proof.
  apply (self_pair_twice_in_node (new_network 2) 0
           (mkMatrix 2 [[Cplx.mk 4 0; Cplx.mk 1 0]; [Cplx.mk 2 1; Cplx.mk 0 1]])
           (mkMatrix 2 [[2; 1]; [1; 3]]%R) 2 2).
  - split_and!; [reflexivity..|]. by repeat constructor.
  - lia.
  - reflexivity.
  - reflexivity.
  - simpl. lia.
  - split; by repeat constructor.
Defined.

Lemma sqrt_on_every_call_witness :
  (∀ vecCoherency,
     calculate dft_kernel ramp_tapers vecCoherency memo_settings
     = (csd ← mapM (λ pairInput,
                      computePSDCSD pairInput
                        (mat_map sqrt (matPsdSum (data memo_settings))))
                 (vecPairCsdSum (data memo_settings));
        Some (csd, with_csd csd (with_sqrt_psd memo_settings))))
  ∧ ∃ net1 s1 net2,
      calculateReal dft_kernel ramp_tapers (new_network 1)
        (new_settings (new_trial <$> [swing]) 2 "ramp") = Some (net1, s1)
      ∧ calculateReal dft_kernel ramp_tapers (new_network 1) s1
        = Some (net2, with_sqrt_psd s1).
Proof.
  destruct (sqrt_on_every_call dft_kernel ramp_tapers memo_settings memo_trial
              [swing] 2 "ramp" 1 2 1 1 [] [])
    as ((_ & _ & HA) & HB & _).
  - apply memo_settings_computed.
  - apply swing_valid.
  - lia.
  - lia.
  - split; [exact HA|exact HB].
Defined.
(** ** The further theorems on concrete data *)

Lemma two_channels_b_shape : data_shape 2 2 two_channels_b.
Proof. split_and!; [|done..]. by repeat constructor. Qed.

Lemma copy_channels_shape : data_shape 2 2 copy_channels.
Proof. split_and!; [|done..]. by repeat constructor. Qed.

Lemma valid_run_pair (d1 d2 : MatrixXd) (C L : nat) :
  data_shape C L d1 → data_shape C L d2 →
  valid_run ones_tapers [d1; d2] "ones" C L.
Proof.
  intros H1 H2. split_and!; [done| |apply ones_tapers_wf].
  apply Forall_cons. split; [done|]. by apply Forall_singleton.
Qed.

Lemma compute_offset_invariant_witness :
  compute dft_kernel
    (with_data (shift_channels [5; -1]%R two_channels) (new_trial two_channels))
    mat_empty [] 2 2 2 (ones_tapers 2 "ones")
  = (λ res, (with_data (shift_channels [5; -1]%R two_channels) res.1.1,
             res.1.2, res.2))
      <$> compute dft_kernel (new_trial two_channels) mat_empty [] 2 2 2
            (ones_tapers 2 "ones").
Proof.
  apply (compute_offset_invariant dft_kernel [5; -1]%R (new_trial two_channels)
           mat_empty [] 2 2 2 (ones_tapers 2 "ones")).
  reflexivity.
Defined.

Lemma compute_missing_channel_witness :
  compute dft_kernel (new_trial one_channel) mat_empty [] 2 2 2
    (ones_tapers 2 "ones") = None.
Proof.
  apply (compute_missing_channel dft_kernel (new_trial one_channel) mat_empty []
           2 2 2 (ones_tapers 2 "ones")).
  - reflexivity.
  - reflexivity.
Defined.

Lemma compute_sample_mismatch_witness :
  compute dft_kernel (new_trial one_channel) mat_empty [] 1 2 3
    (ones_tapers 3 "ones") = None.
Proof.
  apply (compute_sample_mismatch dft_kernel (new_trial one_channel) mat_empty []
           1 2 3 (ones_tapers 3 "ones") 0 0 [1; 3]%R
           (replicate 3 (1 / 3)%R)).
  - reflexivity.
  - lia.
  - reflexivity.
  - reflexivity.
  - simpl. lia.
Defined.

Lemma compute_appends_entries_witness :
  ∃ r,
    compute_trial dft_kernel memo_trial 1 (4 / 2 + 1) 4 (ones_tapers 2 "ones")
    = Some r
    ∧ take 1 (vecPairCsd r) = vecPairCsd memo_trial
    ∧ length (vecPairCsd r) = 1 + 1
    ∧ (vecPairCsd memo_trial ≠ [] → already_computed r 1 (4 / 2 + 1) = false).
Proof.
  apply (compute_appends_entries dft_kernel memo_trial 4 (ones_tapers 2 "ones")).
  - by repeat constructor.
  - apply (ones_tapers_wf 2).
  - simpl. lia.
Defined.

Lemma compute_lower_rows_witness :
  ∃ r,
    compute_trial dft_kernel (new_trial two_channels) 2 (2 / 2 + 1) 2
      (ones_tapers 2 "ones") = Some r
    ∧ ∀ i j, j < i < 2 →
        ∃ ei ej rw,
          vecPairCsd r !! i = Some ei ∧ vecPairCsd r !! j = Some ej
          ∧ row ei.2 j = Some rw ∧ row ej.2 j = Some rw.
Proof.
  apply (compute_lower_rows dft_kernel two_channels 2 2 2 (ones_tapers 2 "ones")).
  - apply two_channels_shape.
  - apply (ones_tapers_wf 2).
  - lia.
Defined.

Lemma compute_auto_spectrum_witness :
  ∃ r,
    compute_trial dft_kernel (new_trial two_channels) 2 (2 / 2 + 1) 2
      (ones_tapers 2 "ones") = Some r
    ∧ (∀ i k p, coeff (matPsd r) i k = Some p → (0 <= p)%R)
    ∧ (∀ i k e z p,
         vecPairCsd r !! i = Some e → coeff e.2 i k = Some z →
         coeff (matPsd r) i k = Some p → z = Cplx.mk p 0).
Proof.
  apply (compute_auto_spectrum dft_kernel two_channels 2 2 2
           (ones_tapers 2 "ones")).
  - apply two_channels_shape.
  - apply (ones_tapers_wf 2).
  - lia.
  - unfold weight_norm2. simpl. lra.
Defined.

Lemma coherency_bounded_witness :
  ∃ v s',
    calculate dft_kernel ones_tapers []
      (new_settings (new_trial <$> [two_channels; two_channels_b]) 4 "ones")
    = Some (v, s')
    ∧ ∀ i j k e c si sj,
        i ≤ j → v !! i = Some e → coeff e.2 j k = Some c →
        coeff (matPsdSum (data s')) i k = Some si →
        coeff (matPsdSum (data s')) j k = Some sj →
        (0 < si)%R → (0 < sj)%R → (Cplx.abs c <= 1)%R.
Proof.
  apply (coherency_bounded dft_kernel ones_tapers
           [two_channels; two_channels_b] 4 "ones" 2 2 []).
  apply valid_run_pair; [apply two_channels_shape|apply two_channels_b_shape].
Defined.

Lemma coherency_diagonal_witness :
  ∃ v s',
    calculate dft_kernel ones_tapers []
      (new_settings (new_trial <$> [two_channels; two_channels_b]) 4 "ones")
    = Some (v, s')
    ∧ ∀ i k e c si,
        v !! i = Some e → coeff e.2 i k = Some c →
        coeff (matPsdSum (data s')) i k = Some si →
        (0 < si)%R → c = Cplx.mk 1 0.
Proof.
  apply (coherency_diagonal dft_kernel ones_tapers
           [two_channels; two_channels_b] 4 "ones" 2 2 []).
  apply valid_run_pair; [apply two_channels_shape|apply two_channels_b_shape].
Defined.

Lemma offset_copy_unit_coherency_witness :
  ∃ v s',
    calculate dft_kernel ones_tapers []
      (new_settings (new_trial <$> [copy_channels]) 4 "ones") = Some (v, s')
    ∧ ∀ k e c si,
        v !! 0 = Some e → coeff e.2 1 k = Some c →
        coeff (matPsdSum (data s')) 0 k = Some si →
        (0 < si)%R → c = Cplx.mk 1 0.
Proof.
  apply (offset_copy_unit_coherency dft_kernel ones_tapers [copy_channels] 4
           "ones" 2 2 [] 0 1).
  - apply valid_run_single, copy_channels_shape.
  - lia.
  - intros d Hd. apply list_elem_of_singleton in Hd as ->.
    exists 1%R, [1; 3]%R. split; reflexivity.
Defined.

Lemma single_taper_trial_unit_witness :
  ∃ v s',
    calculate dft_kernel ones_tapers []
      (new_settings (new_trial <$> [two_channels]) 4 "ones") = Some (v, s')
    ∧ ∀ i j k e c si sj,
        i ≤ j → v !! i = Some e → coeff e.2 j k = Some c →
        coeff (matPsdSum (data s')) i k = Some si →
        coeff (matPsdSum (data s')) j k = Some sj →
        (0 < si)%R → (0 < sj)%R → Cplx.abs c = 1%R.
Proof.
  apply (single_taper_trial_unit dft_kernel ones_tapers two_channels 4 "ones"
           2 2 []).
  - apply two_channels_shape.
  - apply (ones_tapers_wf 2).
  - reflexivity.
Defined.

Lemma gain_invariance_witness :
  let sg := new_settings (new_trial <$> (mat_scale 3 <$> [two_channels])) 4
              "ones" in
  let s := new_settings (new_trial <$> [two_channels]) 4 "ones" in
  (∃ net', fst <$> calculateReal dft_kernel ones_tapers (new_network 2) sg
           = Some net'
         ∧ fst <$> calculateReal dft_kernel ones_tapers (new_network 2) s
           = Some net')
  ∧ (∃ net', fst <$> calculateImag dft_kernel ones_tapers (new_network 2) sg
             = Some net'
           ∧ fst <$> calculateImag dft_kernel ones_tapers (new_network 2) s
             = Some net')
  ∧ (∃ v, fst <$> calculate dft_kernel ones_tapers [] sg = Some v
        ∧ fst <$> calculate dft_kernel ones_tapers [] s = Some v).
Proof.
  apply (gain_invariance dft_kernel ones_tapers [two_channels] 4 "ones" 2 2 3
           (new_network 2) []).
  - apply dft_kernel_homogeneous.
  - lra.
  - apply valid_run_single, two_channels_shape.
  - simpl. lia.
Defined.

Lemma trial_order_invariance_witness :
  let s := new_settings (new_trial <$> [two_channels; two_channels_b]) 4 "ones" in
  let s' := new_settings (new_trial <$> [two_channels_b; two_channels]) 4 "ones" in
  (∃ net' t t',
     calculateReal dft_kernel ones_tapers (new_network 2) s = Some (net', t)
     ∧ calculateReal dft_kernel ones_tapers (new_network 2) s' = Some (net', t')
     ∧ data t = data t' ∧ m_dataList t ≡ₚ m_dataList t')
  ∧ (∃ net' t t',
       calculateImag dft_kernel ones_tapers (new_network 2) s = Some (net', t)
       ∧ calculateImag dft_kernel ones_tapers (new_network 2) s' = Some (net', t')
       ∧ data t = data t' ∧ m_dataList t ≡ₚ m_dataList t')
  ∧ (∃ v t t',
       calculate dft_kernel ones_tapers [] s = Some (v, t)
       ∧ calculate dft_kernel ones_tapers [] s' = Some (v, t')
       ∧ data t = data t' ∧ m_dataList t ≡ₚ m_dataList t').
Proof.
  apply (trial_order_invariance dft_kernel ones_tapers
           [two_channels; two_channels_b] [two_channels_b; two_channels]
           4 "ones" 2 2 (new_network 2) []).
  - apply valid_run_pair; [apply two_channels_shape|apply two_channels_b_shape].
  - apply Permutation_swap.
  - simpl. lia.
Defined.

Lemma one_more_trial_witness :
  ∃ r rs rd net1 s1 net2 s2,
    Forall2 (result_of dft_kernel 2 (run_nfft 4 2) (ones_tapers 2 "ones"))
      ([two_channels] ++ [two_channels_b]) (r :: rs ++ [rd])
    ∧ calculateReal dft_kernel ones_tapers (new_network 2)
        (new_settings (new_trial <$> [two_channels]) 4 "ones") = Some (net1, s1)
    ∧ matPsdSum (data s1) = mat_map sqrt (psd_total r rs)
    ∧ vecPairCsdSum (data s1) = csd_total r rs
    ∧ calculateReal dft_kernel ones_tapers (new_network 2)
        (add_trial (new_trial two_channels_b) s1) = Some (net2, s2)
    ∧ m_dataList s2 = r :: rs ++ [rd]
    ∧ matPsdSum (data s2)
      = mat_map sqrt (mat_plus (mat_map sqrt (psd_total r rs)) (matPsd rd))
    ∧ vecPairCsdSum (data s2) = pairs_plus (csd_total r rs) (vecPairCsd rd).
Proof.
  apply (one_more_trial dft_kernel ones_tapers [two_channels] two_channels_b 4
           "ones" 2 2 2 (new_network 2)).
  - apply valid_run_single, two_channels_shape.
  - apply two_channels_b_shape.
  - lia.
  - simpl. lia.
Defined.

Lemma rerun_other_length_fails_witness :
  ∃ net1 s1,
    calculateReal dft_kernel ones_tapers (new_network 2)
      (new_settings (new_trial <$> [two_channels]) 2 "ones") = Some (net1, s1)
    ∧ calculateReal dft_kernel ones_tapers (new_network 2) (set_nfft 4 s1) = None
    ∧ calculateImag dft_kernel ones_tapers (new_network 2) (set_nfft 4 s1) = None
    ∧ calculate dft_kernel ones_tapers [] (set_nfft 4 s1) = None.
Proof.
  apply (rerun_other_length_fails dft_kernel ones_tapers [two_channels] 2 4
           "ones" 2 2 2 (new_network 2) []).
  - apply valid_run_single, two_channels_shape.
  - lia.
  - lia.
  - vm_compute. lia.
Defined.

Lemma edge_weights_from_coherency_witness :
  let s0 := new_settings (new_trial <$> [two_channels]) 4 "ones" in
  ∃ v s netR sR netI sI,
    calculate dft_kernel ones_tapers [] s0 = Some (v, s)
    ∧ calculateReal dft_kernel ones_tapers (new_network 2) s0 = Some (netR, sR)
    ∧ calculateImag dft_kernel ones_tapers (new_network 2) s0 = Some (netI, sI)
    ∧ (∀ e, e ∈ network_edges netR →
         ∃ ent, v !! Z.to_nat (iStartNode e) = Some ent
           ∧ ∀ k, coeff (matWeight e) k 0
                  = Cplx.abs <$> coeff ent.2 (Z.to_nat (iEndNode e)) k)
    ∧ (∀ e, e ∈ network_edges netI →
         ∃ ent, v !! Z.to_nat (iStartNode e) = Some ent
           ∧ ∀ k, coeff (matWeight e) k 0
                  = Cplx.im <$> coeff ent.2 (Z.to_nat (iEndNode e)) k).
Proof.
  apply (edge_weights_from_coherency dft_kernel ones_tapers [two_channels] 4
           "ones" 2 2 2 []).
  - apply valid_run_single, two_channels_shape.
  - lia.
Defined.

Lemma flat_channel_zero_power_witness :
  ∃ v s',
    calculate dft_kernel ones_tapers []
      (new_settings (new_trial <$> [flat_channels]) 4 "ones") = Some (v, s')
    ∧ ∀ k si, coeff (matPsdSum (data s')) 0 k = Some si → si = 0%R.
Proof.
  apply (flat_channel_zero_power dft_kernel ones_tapers [flat_channels] 4 "ones"
           2 2 [] 0).
  - apply dft_kernel_homogeneous.
  - apply valid_run_single. split_and!; [|reflexivity..]. by repeat constructor.
  - intros d Hd. apply list_elem_of_singleton in Hd as ->.
    exists 7%R. reflexivity.
Defined.

Lemma calls_keep_configuration_witness :
  same_configuration memo_settings (with_sqrt_psd memo_settings).
Proof.
  apply (calls_keep_configuration dft_kernel ramp_tapers (new_network 1)
           (foldl attach (new_network 1)
              (run_edges Cplx.abs (vecPairCsdSum (data memo_settings))
                 (mat_map sqrt (matPsdSum (data memo_settings)))))
           [] memo_settings (with_sqrt_psd memo_settings)).
  left. reflexivity.
Defined.

Lemma coherency_formula_witness :
  let tapers := ones_tapers (Z.of_nat 2) "ones" in
  let nfft := run_nfft 4 2 in
  ∃ v s',
    calculate dft_kernel ones_tapers []
      (new_settings (new_trial <$> two_channels :: [two_channels_b]) 4 "ones")
    = Some (v, s')
    ∧ length v = 2
    ∧ (∀ i k si, coeff (matPsdSum (data s')) i k = Some si →
         si = sqrt (psd_sum dft_kernel two_channels [two_channels_b] tapers
                      nfft i k))
    ∧ ∀ i j k, i ≤ j → j < 2 → k < spec_bins nfft →
        ∃ e, v !! i = Some e ∧ e.1 = Z.of_nat i
          ∧ coeff e.2 j k
            = Some (Cplx.divr
                      (csd_sum dft_kernel two_channels [two_channels_b] tapers
                         nfft i j k)
                      (sqrt (psd_sum dft_kernel two_channels [two_channels_b]
                               tapers nfft i k)
                       * sqrt (psd_sum dft_kernel two_channels [two_channels_b]
                                 tapers nfft j k))).
Proof.
  apply (coherency_formula dft_kernel ones_tapers two_channels [two_channels_b]
           4 "ones" 2 2 []).
  apply valid_run_pair; [apply two_channels_shape|apply two_channels_b_shape].
Defined.

Lemma channel_swap_conjugates_witness :
  ∃ v s v' s',
    calculate dft_kernel ones_tapers []
      (new_settings (new_trial <$> two_channels :: [two_channels_b]) 4 "ones")
    = Some (v, s)
    ∧ calculate dft_kernel ones_tapers []
        (new_settings
           (new_trial <$> (swap_channels 0 1 <$> two_channels :: [two_channels_b]))
           4 "ones")
      = Some (v', s')
    ∧ ∀ k, k < spec_bins (run_nfft 4 2) →
        ∃ e e' c,
          v !! 0 = Some e ∧ v' !! 0 = Some e'
          ∧ coeff e.2 1 k = Some c ∧ coeff e'.2 1 k = Some (Cplx.conj c).
Proof.
  apply (channel_swap_conjugates dft_kernel ones_tapers two_channels
           [two_channels_b] 4 "ones" 2 2 [] 0 1).
  - apply valid_run_pair; [apply two_channels_shape|apply two_channels_b_shape].
  - lia.
  - lia.
Defined.
